(** * Orchestration core of the agent-framework samples

    A shallow embedding of the two execution models of the repository:

    - [Bus]: the message-passing model of [samples/agentscope/main.py]
      ([Msg], [MessageBus], [BaseAgent] and its three subclasses), and the
      instrumented [receive] of [samples/agentscope-with-otel/main.py];
    - [Graph]: the graph model of [samples/langgraph/main.py]
      ([MockCompiledGraph.invoke], [parse_request], [analyze_preferences],
      [route_by_priority] and the tables built by [build_travel_graph]).

    Python exceptions are values of [Exn]; a call that may raise returns a
    [Result].  Mutable objects are threaded explicitly: the bus carries its
    log and its agents, the graph engine works on a store of dict and list
    objects. *)

From stdpp Require Import gmap strings list fin_maps pretty.

Open Scope string_scope.
Open Scope list_scope.

(** ** Python results *)

Inductive Exn : Type :=
  | AttributeError
  | TypeError
  | KeyError
  | NotImplementedError
  | Exception (what : string).

Inductive Result (A : Type) : Type :=
  | Ok (a : A)
  | Raise (e : Exn).
Arguments Ok {A} a.
Arguments Raise {A} e.

#[global] Instance Result_bind : MBind Result := λ A B k r,
  match r with
  | Ok a => k a
  | Raise e => Raise e
  end.

#[global] Instance Result_ret : MRet Result := λ A a, Ok a.

Definition is_ok {A : Type} (r : Result A) : bool :=
  match r with Ok _ => true | Raise _ => false end.

(** Number of code points of a UTF-8 encoded string: the bytes that are not
    continuation bytes [10xxxxxx].  This is Python's [len] on a [str]. *)
Fixpoint code_points (s : string) : nat :=
  match s with
  | EmptyString => 0
  | String c r =>
      let n := Ascii.nat_of_ascii c in
      if (128 <=? n)%nat && (n <? 192)%nat then code_points r
      else S (code_points r)
  end.

(** [sub in s] on two [str]. *)
Fixpoint is_prefix (p s : string) : bool :=
  match p, s with
  | EmptyString, _ => true
  | String a p', String b s' => Ascii.eqb a b && is_prefix p' s'
  | String _ _, EmptyString => false
  end.

Fixpoint is_substring (p s : string) : bool :=
  is_prefix p s ||
  match s with
  | EmptyString => false
  | String _ s' => is_substring p s'
  end.

(** ** Insertion-ordered dictionaries

    A Python [dict] iterates in insertion order, and assigning to a key that
    is already present keeps the key's position.  The registry of the bus is
    iterated, so it is kept as an association list with these operations. *)

Section odict.
Context {V : Type}.

Fixpoint od_get (k : string) (d : list (string * V)) : option V :=
  match d with
  | [] => None
  | (k', v) :: r => if String.eqb k' k then Some v else od_get k r
  end.

Fixpoint od_set (k : string) (v : V) (d : list (string * V)) : list (string * V) :=
  match d with
  | [] => [(k, v)]
  | (k', v') :: r =>
      if String.eqb k' k then (k', v) :: r else (k', v') :: od_set k v r
  end.

End odict.

(** * The message bus ([samples/agentscope/main.py]) *)

Module Bus.

(** ** Payloads

    [Msg.content] is typed [Any]; the samples put text or JSON-like data in
    it.  A mapping keeps its items in insertion order, with unique keys.
    Python's [bool] is an [int], so it needs no constructor of its own.
    [value_eqb] decides whether two payloads are the same term; Python's
    [==] is [py_eq] below, which takes two mappings with the same items in
    another order for equal. *)

#[warnings="-register-all"] Inductive Value : Type :=
  | VNone
  | VInt (z : Z)
  | VStr (s : string)
  | VList (l : list Value)
  | VDict (d : list (string * Value)).

Fixpoint value_eqb (a b : Value) {struct a} : bool :=
  match a, b with
  | VNone, VNone => true
  | VInt x, VInt y => Z.eqb x y
  | VStr x, VStr y => String.eqb x y
  | VList l, VList l' =>
      (fix go (l l' : list Value) : bool :=
         match l, l' with
         | [], [] => true
         | x :: r, y :: r' => value_eqb x y && go r r'
         | _, _ => false
         end) l l'
  | VDict d, VDict d' =>
      (fix go (d d' : list (string * Value)) : bool :=
         match d, d' with
         | [], [] => true
         | (k, x) :: r, (k', y) :: r' =>
             String.eqb k k' && value_eqb x y && go r r'
         | _, _ => false
         end) d d'
  | _, _ => false
  end.

Section Value_rect_nested.
Variable P : Value → Prop.
Hypothesis HNone : P VNone.
Hypothesis HInt : ∀ z, P (VInt z).
Hypothesis HStr : ∀ s, P (VStr s).
Hypothesis HList : ∀ l, Forall P l → P (VList l).
Hypothesis HDict : ∀ d, Forall (λ kv, P kv.2) d → P (VDict d).

Fixpoint Value_nested_ind (v : Value) : P v :=
  match v with
  | VNone => HNone
  | VInt z => HInt z
  | VStr s => HStr s
  | VList l =>
      HList l ((fix go (l : list Value) : Forall P l :=
                  match l with
                  | [] => Forall_nil_2 P
                  | x :: r => Forall_cons_2 P x r (Value_nested_ind x) (go r)
                  end) l)
  | VDict d =>
      HDict d ((fix go (d : list (string * Value)) : Forall (λ kv, P kv.2) d :=
                  match d with
                  | [] => Forall_nil_2 _
                  | kv :: r =>
                      Forall_cons_2 (λ kv, P kv.2) kv r (Value_nested_ind kv.2) (go r)
                  end) d)
  end.
End Value_rect_nested.

Lemma value_eqb_eq (a b : Value) : value_eqb a b = true ↔ a = b.
Proof.
  revert b. induction a as [|z|s|l IH|d IH] using Value_nested_ind;
    intros [|z'|s'|l'|d']; simpl; try (split; [discriminate|congruence]).
  - done.
  - rewrite Z.eqb_eq. split; congruence.
  - rewrite String.eqb_eq. split; congruence.
  - revert l'. induction IH as [|x r Hx _ IHr]; intros [|y r'];
      try (split; [discriminate|congruence]); [done|].
    rewrite andb_true_iff, Hx. specialize (IHr r').
    split.
    + intros [-> H]. apply IHr in H. congruence.
    + intros [= -> ->]. split; [done|]. by apply IHr.
  - revert d'. induction IH as [|[k x] r Hx _ IHr]; intros [|[k' y] r'];
      try (split; [discriminate|congruence]); [done|].
    rewrite !andb_true_iff, String.eqb_eq. simpl in Hx. rewrite Hx.
    specialize (IHr r').
    split.
    + intros [[-> ->] H]. apply IHr in H. congruence.
    + intros [= -> -> ->]. split; [done|]. by apply IHr.
Qed.

#[global] Instance Value_eq_dec : EqDecision Value.
Proof.
  intros a b. destruct (value_eqb a b) eqn:E.
  - left. by apply value_eqb_eq.
  - right. intros H. apply value_eqb_eq in H. congruence.
Defined.

(** Python's [==] on payloads.  Two lists are equal when they are equal
    item by item.  Two mappings are equal when each item of the one has
    its key in the other with an equal value, and the other way round; for
    mappings, whose keys are unique, this is [dict.__eq__]: as many items,
    and every key of the one in the other with an equal value, in
    whatever order the items were inserted. *)
Fixpoint py_eq (a b : Value) {struct a} : bool :=
  match a, b with
  | VNone, VNone => true
  | VInt x, VInt y => Z.eqb x y
  | VStr x, VStr y => String.eqb x y
  | VList l, VList l' =>
      (fix go (l l' : list Value) : bool :=
         match l, l' with
         | [], [] => true
         | x :: r, y :: r' => py_eq x y && go r r'
         | _, _ => false
         end) l l'
  | VDict d, VDict d' =>
      forallb (λ '(k, x),
                 existsb (λ '(k', y), String.eqb k k' && py_eq x y) d') d
      && forallb (λ '(k', y),
                    existsb (λ '(k, x), String.eqb k k' && py_eq x y) d) d'
  | _, _ => false
  end.

(** [d.get(key, default)]: only a mapping has the method. *)
Definition py_get (v : Value) (key : string) (default : Value) : Result Value :=
  match v with
  | VDict d => Ok (from_option (λ x, x) default (od_get key d))
  | _ => Raise AttributeError
  end.

(** [isinstance(v, dict)] *)
Definition is_dict (v : Value) : bool :=
  match v with VDict _ => true | _ => false end.

(** [s in v] for a text [s]: element of a list, key of a mapping, substring
    of a text; anything else is not iterable. *)
Definition py_contains (s : string) (v : Value) : Result bool :=
  match v with
  | VList l => Ok (bool_decide (VStr s ∈ l))
  | VDict d => Ok (bool_decide (is_Some (od_get s d)))
  | VStr t => Ok (is_substring s t)
  | _ => Raise TypeError
  end.

(** [len(v)] *)
Definition py_len (v : Value) : Result nat :=
  match v with
  | VList l => Ok (length l)
  | VDict d => Ok (length d)
  | VStr t => Ok (code_points t)
  | _ => Raise TypeError
  end.

(** ** Messages *)

Record Msg : Type := MkMsg {
  name : string;            (* sending agent *)
  content : Value;
  role : string;            (* "user", "assistant", "system" *)
  to : option string;       (* receiving agent; None means broadcast *)
  id : string;
  timestamp : string
}.

#[global] Instance Msg_eq_dec : EqDecision Msg.
Proof. solve_decision. Defined.

(** [Msg.__eq__], as [@dataclass] generates it: the six fields are
    compared with [==]. *)
Definition Msg_eq (a b : Msg) : bool :=
  String.eqb (name a) (name b) && py_eq (content a) (content b)
  && String.eqb (role a) (role b) && bool_decide (to a = to b)
  && String.eqb (id a) (id b) && String.eqb (timestamp a) (timestamp b).

(** [msg in log]: some entry of the list is equal to the message. *)
Definition logged (msg : Msg) (log : list Msg) : bool :=
  existsb (Msg_eq msg) log.

(** Truth value of [msg.to]: [None] and the empty text are false. *)
Definition truthy (o : option string) : bool :=
  match o with
  | Some s => negb (String.eqb s "")
  | None => false
  end.

(** What [send] makes of [msg.to]. *)
Inductive Recipient : Type :=
  | Direct (who : string)
  | Broadcast.

Definition recipient (msg : Msg) : Recipient :=
  match to msg with
  | Some s => if truthy (Some s) then Direct s else Broadcast
  | None => Broadcast
  end.

(** ** Agents

    [Msg(...)] draws its [id] from [uuid.uuid4] and its [timestamp] from the
    clock.  Both sources are oracles here: the [n]-th draw yields
    [uuid8 n] and [now n]. *)

Definition Stamp : Type := string * string.

Definition Msg_ (st : Stamp) (name : string) (role : string)
    (to : option string) (content : Value) : Msg :=
  MkMsg name content role to st.1 st.2.

(** The classes of the sample, and any further subclass of [BaseAgent]: its
    [_process] reads the agent's name, memory and state and the message,
    may construct one [Msg] and may assign [self.state]. *)
Inductive AgentClass : Type :=
  | BaseAgent
  | CoordinatorAgent
  | PlaceExpertAgent
  | ScheduleExpertAgent
  | Subclass (f : string → list Msg → string → Msg → Stamp →
                  string * Result (option Msg)).

Record Agent : Type := MkAgent {
  agent_name : string;
  system_prompt : string;
  memory : list Msg;        (* messages this agent has received *)
  state : string;           (* CoordinatorAgent.state *)
  cls : AgentClass
}.

Definition set_state (s : string) (a : Agent) : Agent :=
  MkAgent (agent_name a) (system_prompt a) (memory a) s (cls a).

Definition remember (msg : Msg) (a : Agent) : Agent :=
  MkAgent (agent_name a) (system_prompt a) (memory a ++ [msg]) (state a) (cls a).

(** [BaseAgent.__init__] and the three constructors. *)
Definition new_agent (c : AgentClass) (name prompt : string) : Agent :=
  MkAgent name prompt [] "" c.

Definition new_CoordinatorAgent : Agent :=
  MkAgent "Coordinator" "여행 일정 생성을 조율하는 에이전트" [] "idle" CoordinatorAgent.

Definition new_PlaceExpertAgent : Agent :=
  new_agent PlaceExpertAgent "PlaceExpert" "부산 지역 장소 전문가".

Definition new_ScheduleExpertAgent : Agent :=
  new_agent ScheduleExpertAgent "ScheduleExpert" "여행 일정 구성 전문가".

(** *** Mock data *)

Definition texts (l : list string) : Value := VList (VStr <$> l).

Definition place (n area : string) (features : list string) : Value :=
  VDict [("name", VStr n); ("area", VStr area); ("features", texts features)].

Definition PLACES_cafe : list Value :=
  [ place "모모스커피" "전포동" ["조용함"; "혼자 작업 좋음"];
    place "테라로사" "해운대" ["넓음"; "바다 근처"] ].

Definition PLACES_exhibition : list Value :=
  [ place "F1963" "수영" ["복합문화공간"; "전시+서점"];
    place "부산시립미술관" "해운대" ["무료"; "기획전시"] ].

Definition PLACES_restaurant : list Value :=
  [ place "밀양순대국" "부전동" ["혼밥 가능"; "현지 맛집"] ].

Definition item (time place area reason : string) : Value :=
  VDict [("time", VStr time); ("place", VStr place); ("area", VStr area);
         ("reason", VStr reason)].

Definition schedule : Value :=
  VDict
    [ ("day1", VDict
        [ ("theme", VStr "전포동/수영 권역");
          ("items", VList
            [ item "10:00" "모모스커피" "전포동" "조용한 카페에서 여행 시작";
              item "14:00" "F1963" "수영" "전시 관람 및 복합문화공간 탐방";
              item "18:00" "밀양순대국" "부전동" "현지 맛집에서 혼밥" ]) ]);
      ("day2", VDict
        [ ("theme", VStr "해운대 권역");
          ("items", VList
            [ item "09:00" "테라로사" "해운대" "바다 근처 카페에서 여유로운 아침";
              item "11:00" "해운대 해변 산책" "해운대" "체크아웃 후 가벼운 마무리" ]) ]);
      ("optimization_notes",
        texts [ "권역별 분리로 이동 시간 최소화";
                "혼자 여행에 적합한 장소만 선정";
                "여유로운 시간 배분" ]) ].

Definition requirements_of_user : Value :=
  VDict [ ("destination", VStr "부산");
          ("duration", VStr "1박 2일");
          ("style", VStr "혼자 여행");
          ("preferences", texts ["조용한 카페"; "전시"]);
          ("constraints", texts ["혼밥 가능"; "이동 동선 최소화"]) ].

(** [msg.content.get("action") == what] *)
Definition action_is (what : string) (v : Value) : bool :=
  match py_get v "action" VNone with
  | Ok (VStr s) => String.eqb s what
  | _ => false
  end.

(** *** [_process] of each class *)

Definition CoordinatorAgent_process (self : Agent) (msg : Msg) (st : Stamp)
  : Agent * Result (option Msg) :=
  if String.eqb (role msg) "user" then
    let self := set_state "collecting" self in
    (self, Ok (Some (Msg_ st (agent_name self) "assistant" (Some "PlaceExpert")
      (VDict [ ("action", VStr "request_places");
               ("requirements", requirements_of_user);
               ("instruction", VStr "요구사항에 맞는 장소들을 추천해주세요") ]))))
  else if String.eqb (name msg) "PlaceExpert" then
    (self,
     places ← py_get (content msg) "places" (VList []);
     Ok (Some (Msg_ st (agent_name self) "assistant" (Some "ScheduleExpert")
       (VDict [ ("action", VStr "create_schedule");
                ("places", places);
                ("duration", VStr "1박 2일");
                ("instruction", VStr "이 장소들로 1박 2일 일정을 만들어주세요") ]))))
  else if String.eqb (name msg) "ScheduleExpert" then
    let self := set_state "finalizing" self in
    (self,
     sched ← py_get (content msg) "schedule" (VDict []);
     Ok (Some (Msg_ st (agent_name self) "assistant" None
       (VDict [ ("action", VStr "final_result");
                ("schedule", sched);
                ("summary", VStr "일정 생성이 완료되었습니다") ]))))
  else (self, Ok None).

Definition PlaceExpertAgent_process (self : Agent) (msg : Msg) (st : Stamp)
  : Agent * Result (option Msg) :=
  if is_dict (content msg) && action_is "request_places" (content msg) then
    (self,
     requirements ← py_get (content msg) "requirements" (VDict []);
     preferences ← py_get requirements "preferences" (VList []);
     quiet ← py_contains "조용한 카페" preferences;
     let recommended := if quiet : bool then PLACES_cafe else [] in
     shows ← py_contains "전시" preferences;
     let recommended :=
       if shows : bool then recommended ++ PLACES_exhibition else recommended in
     let recommended := recommended ++ PLACES_restaurant in
     Ok (Some (Msg_ st (agent_name self) "assistant" (Some "Coordinator")
       (VDict [ ("action", VStr "places_response");
                ("places", VList recommended);
                ("reasoning", VStr "혼자 여행에 적합하고 조용한 장소들을 선정했습니다") ]))))
  else (self, Ok None).

Definition ScheduleExpertAgent_process (self : Agent) (msg : Msg) (st : Stamp)
  : Agent * Result (option Msg) :=
  if is_dict (content msg) && action_is "create_schedule" (content msg) then
    (self,
     places ← py_get (content msg) "places" (VList []);
     total ← py_len places;
     Ok (Some (Msg_ st (agent_name self) "assistant" (Some "Coordinator")
       (VDict [ ("action", VStr "schedule_response");
                ("schedule", schedule);
                ("total_places", VInt (Z.of_nat total)) ]))))
  else (self, Ok None).

Definition _process (self : Agent) (msg : Msg) (st : Stamp)
  : Agent * Result (option Msg) :=
  match cls self with
  | BaseAgent => (self, Raise NotImplementedError)
  | CoordinatorAgent => CoordinatorAgent_process self msg st
  | PlaceExpertAgent => PlaceExpertAgent_process self msg st
  | ScheduleExpertAgent => ScheduleExpertAgent_process self msg st
  | Subclass f =>
      let '(s, r) := f (agent_name self) (memory self) (state self) msg st in
      (set_state s self, r)
  end.

(** [BaseAgent.receive] *)
Definition receive (self : Agent) (msg : Msg) (st : Stamp)
  : Agent * Result (option Msg) :=
  let self := remember msg self in
  _process self msg st.

(** ** The bus

    [debug] and [already_printed] only steer console output and are left
    out.  [drawn] counts the stamps handed out so far; one is reserved for
    every call of [receive] and for every message the caller constructs. *)

Record MessageBus : Type := MkBus {
  messages : list Msg;
  agents : list (string * Agent);
  drawn : nat
}.

(** [MessageBus.__init__] *)
Definition new_bus : MessageBus := MkBus [] [] 0.

(** [MessageBus.register] *)
Definition register (agent : Agent) (bus : MessageBus) : MessageBus :=
  MkBus (messages bus) (od_set (agent_name agent) agent (agents bus)) (drawn bus).

Section send.
Variable uuid8 : nat → string.
Variable now : nat → string.

Definition stamp (n : nat) : Stamp := (uuid8 n, now n).

(** The loop [for name, agent in self.agents.items()] of the broadcast
    branch.  It returns the agents as the loop leaves them, the log, the
    number of stamps drawn, the responses collected so far, and the
    exception that ended the loop early, if any. *)
Fixpoint deliver_all (msg : Msg) (todo : list (string * Agent))
    (log : list Msg) (n : nat) (responses : list Msg)
  : list (string * Agent) * list Msg * nat * list Msg * option Exn :=
  match todo with
  | [] => ([], log, n, responses, None)
  | (key, agent) :: rest =>
      if negb (String.eqb key (name msg)) then
        match receive agent msg (stamp n) with
        | (agent', Raise e) =>
            ((key, agent') :: rest, log, S n, responses, Some e)
        | (agent', Ok None) =>
            let '(rest', log', n', rs, e) :=
              deliver_all msg rest log (S n) responses in
            ((key, agent') :: rest', log', n', rs, e)
        | (agent', Ok (Some response)) =>
            let '(rest', log', n', rs, e) :=
              deliver_all msg rest (log ++ [response]) (S n)
                (responses ++ [response]) in
            ((key, agent') :: rest', log', n', rs, e)
        end
      else
        let '(rest', log', n', rs, e) :=
          deliver_all msg rest log n responses in
        ((key, agent) :: rest', log', n', rs, e)
  end.

(** [MessageBus.send]: the bus afterwards, and the returned list or the
    exception that left the call.  The test [msg not in self.messages]
    compares with [==]. *)
Definition send (msg : Msg) (bus : MessageBus)
  : MessageBus * Result (list Msg) :=
  let log := if logged msg (messages bus) then messages bus
             else messages bus ++ [msg] in
  if truthy (to msg) then
    let who := default "" (to msg) in
    match od_get who (agents bus) with
    | Some agent =>
        match receive agent msg (stamp (drawn bus)) with
        | (agent', Raise e) =>
            (MkBus log (od_set who agent' (agents bus)) (S (drawn bus)),
             Raise e)
        | (agent', Ok None) =>
            (MkBus log (od_set who agent' (agents bus)) (S (drawn bus)),
             Ok [])
        | (agent', Ok (Some response)) =>
            (MkBus (log ++ [response]) (od_set who agent' (agents bus))
               (S (drawn bus)),
             Ok [response])
        end
    | None => (MkBus log (agents bus) (drawn bus), Ok [])
    end
  else
    let '(agents', log', n', responses, e) :=
      deliver_all msg (agents bus) log (drawn bus) [] in
    (MkBus log' agents' n',
     match e with Some e => Raise e | None => Ok responses end).

(** A caller that constructs a message and sends it, as
    [TravelPlanningSystem.run] does with the user's request. *)
Definition send_new (name role : string) (to : option string)
    (content : Value) (bus : MessageBus) : MessageBus * Result (list Msg) :=
  let msg := Msg_ (stamp (drawn bus)) name role to content in
  send msg (MkBus (messages bus) (agents bus) (S (drawn bus))).

(** The loop of [TravelPlanningSystem.run] after the first [send].  One
    round: every addressed response is sent, and what comes back forms the
    next round. *)
Fixpoint send_round (responses : list Msg) (bus : MessageBus)
  : MessageBus * Result (list Msg) :=
  match responses with
  | [] => (bus, Ok [])
  | response :: rest =>
      if truthy (to response) then
        match send response bus with
        | (bus', Raise e) => (bus', Raise e)
        | (bus', Ok new_responses) =>
            match send_round rest bus' with
            | (bus'', Raise e) => (bus'', Raise e)
            | (bus'', Ok next) => (bus'', Ok (new_responses ++ next))
            end
        end
      else send_round rest bus
  end.

(** [while responses:], for at most [fuel] rounds. *)
Fixpoint drain (fuel : nat) (responses : list Msg) (bus : MessageBus)
  : option (MessageBus * Result unit) :=
  match responses with
  | [] => Some (bus, Ok ())
  | _ =>
      match fuel with
      | 0 => None
      | S fuel =>
          match send_round responses bus with
          | (bus', Raise e) => Some (bus', Raise e)
          | (bus', Ok next) => drain fuel next bus'
          end
      end
  end.

(** [TravelPlanningSystem.run] up to the final formatting: the request is
    sent to the coordinator, then the responses are drained. *)
Definition run (fuel : nat) (user_request : string) (bus : MessageBus)
  : option (MessageBus * Result unit) :=
  match send_new "User" "user" (Some "Coordinator") (VStr user_request) bus with
  | (bus, Raise e) => Some (bus, Raise e)
  | (bus, Ok responses) => drain fuel responses bus
  end.
End send.

(** [TravelPlanningSystem._format_final_output].  The text layout of
    [_format_schedule] is left to a parameter. *)
Section format_final_output.
Variable _format_schedule : Value → Result string.

(** The loop [for msg in reversed(self.bus.messages)], on the reversed
    log. *)
Fixpoint last_result (backwards : list Msg) : Result string :=
  match backwards with
  | [] => Ok "일정 생성 실패"
  | msg :: earlier =>
      if String.eqb (name msg) "Coordinator" && is_dict (content msg) then
        if action_is "final_result" (content msg) then
          schedule ← py_get (content msg) "schedule" (VDict []);
          _format_schedule schedule
        else last_result earlier
      else last_result earlier
  end.

Definition _format_final_output (bus : MessageBus) : Result string :=
  last_result (reverse (messages bus)).
End format_final_output.

(** [TravelPlanningSystem.__init__] *)
Definition travel_bus : MessageBus :=
  register new_ScheduleExpertAgent
    (register new_PlaceExpertAgent
       (register new_CoordinatorAgent new_bus)).

(** ** The variants of the sample and what each of them recognizes *)

Inductive Variant : Type := Coordinator | PlaceExpert | ScheduleExpert.

Definition variant_class (v : Variant) : AgentClass :=
  match v with
  | Coordinator => CoordinatorAgent
  | PlaceExpert => PlaceExpertAgent
  | ScheduleExpert => ScheduleExpertAgent
  end.

(** The guards of the variant's [_process]: the message is recognized when
    one of them holds, otherwise [_process] falls through to
    [return None]. *)
Definition recognizes (v : Variant) (msg : Msg) : bool :=
  match v with
  | Coordinator =>
      String.eqb (role msg) "user"
      || String.eqb (name msg) "PlaceExpert"
      || String.eqb (name msg) "ScheduleExpert"
  | PlaceExpert =>
      is_dict (content msg) && action_is "request_places" (content msg)
  | ScheduleExpert =>
      is_dict (content msg) && action_is "create_schedule" (content msg)
  end.

(** The part of those guards that looks at [msg.role] or at the payload's
    [action] only.  The coordinator's two tests on the sender drop out. *)
Definition role_action_case (v : Variant) (msg : Msg) : bool :=
  match v with
  | Coordinator => String.eqb (role msg) "user"
  | PlaceExpert =>
      is_dict (content msg) && action_is "request_places" (content msg)
  | ScheduleExpert =>
      is_dict (content msg) && action_is "create_schedule" (content msg)
  end.

(** ** Callers of the bus

    The states a bus can be in after its caller has registered agents that
    satisfy [eligible], drawn stamps for messages it constructs, and sent
    messages that satisfy [allowed] at the time of the call. *)

Section reachable.
Variable uuid8 : nat → string.
Variable now : nat → string.
Variable eligible : Agent → Prop.
Variable allowed : MessageBus → Msg → Prop.

Inductive reachable : MessageBus → Prop :=
  | reach_new : reachable new_bus
  | reach_register bus agent :
      reachable bus → eligible agent → reachable (register agent bus)
  | reach_draw bus :
      reachable bus →
      reachable (MkBus (messages bus) (agents bus) (S (drawn bus)))
  | reach_send bus msg :
      reachable bus → allowed bus msg →
      reachable (send uuid8 now msg bus).1.
End reachable.

(** A message the caller may send without giving two messages one id: it
    is in the log already, or the caller has constructed it and its id is
    not in the log. *)
Definition constructed_or_logged (uuid8 : nat → string) (bus : MessageBus)
    (msg : Msg) : Prop :=
  logged msg (messages bus) = true ∨
  (id msg ∉ id <$> messages bus) ∧ ∃ k, k < drawn bus ∧ id msg = uuid8 k.

(** Every response of the class is a message constructed during the call,
    so it carries the stamp of the call. *)
Definition stamping (c : AgentClass) : Prop :=
  match c with
  | Subclass f =>
      ∀ nm mem s msg st response,
        (f nm mem s msg st).2 = Ok (Some response) → id response = st.1
  | _ => True
  end.

(** The receipts a broadcast produces: the registered agents other than
    the sender, in registry order, each called once. *)
Section visit.
Variable uuid8 : nat → string.
Variable now : nat → string.

Definition recipients (msg : Msg) (bus : MessageBus) : list (string * Agent) :=
  filter (λ ka, ka.1 ≠ name msg) (agents bus).

Fixpoint visit (msg : Msg) (who : list (string * Agent)) (n : nat)
  : list (Agent * Result (option Msg)) :=
  match who with
  | [] => []
  | (_, agent) :: rest =>
      receive agent msg (stamp uuid8 now n) :: visit msg rest (S n)
  end.

Definition response_of (o : Agent * Result (option Msg)) : option Msg :=
  match o.2 with
  | Ok r => r
  | Raise _ => None
  end.
End visit.

(** The agents that [send] calls for a message. *)
Definition addressees (msg : Msg) (bus : MessageBus) : list Agent :=
  match recipient msg with
  | Direct who => option_list (od_get who (agents bus))
  | Broadcast => (recipients msg bus).*2
  end.

(** ** Notions used in the statements *)

(** How the loop of the broadcast branch leaves an entry of the registry. *)
Definition delivered (msg : Msg) (before after : string * Agent) : Prop :=
  after.1 = before.1 ∧
  agent_name after.2 = agent_name before.2 ∧
  cls after.2 = cls before.2 ∧
  if decide (before.1 = name msg) then after.2 = before.2
  else memory after.2 = memory before.2 ++ [msg].

(** An entry of the registry after a call: same key, same class, and the
    memory as before or extended by the message. *)
Definition kept (msg : Msg) (before after : string * Agent) : Prop :=
  after.1 = before.1 ∧ cls after.2 = cls before.2 ∧
  (memory after.2 = memory before.2 ∨
   memory after.2 = memory before.2 ++ [msg]).

(** An agent as [BaseAgent.__init__] leaves it. *)
Definition fresh_agent (agent : Agent) : Prop := memory agent = [].

(** The keys under which [send] calls [receive] for a message. *)
Definition reaches (msg : Msg) (key : string) : Prop :=
  match recipient msg with
  | Direct who => key = who
  | Broadcast => key ≠ name msg
  end.

(** An entry of the registry after a call of [send]: the memory is as
    before, or the entry is one that the message reaches and its memory
    has gained the message. *)
Definition handed (msg : Msg) (before after : string * Agent) : Prop :=
  after.1 = before.1 ∧
  (memory after.2 = memory before.2 ∨
   reaches msg before.1 ∧ memory after.2 = memory before.2 ++ [msg]).

(** Two disciplines of a caller: it sends whatever it likes, or it sends
    in the order of the log: a message that is not in the log yet, or a
    logged message that comes after everything its recipients hold. *)
Definition any_message (bus : MessageBus) (msg : Msg) : Prop := True.

Definition in_order (bus : MessageBus) (msg : Msg) : Prop :=
  logged msg (messages bus) = false ∨
  ∃ earlier later,
    messages bus = earlier ++ msg :: later ∧
    ∀ key agent, (key, agent) ∈ agents bus → reaches msg key →
      memory agent `sublist_of` earlier.

(** The log is [done ++ queue], and what the agents hold lies in [done]:
    the state of the loop of [run] with the responses in [queue] still to
    be looked at. *)
Definition queued (bus : MessageBus) (done queue : list Msg) : Prop :=
  messages bus = done ++ queue ∧
  ∀ key agent, (key, agent) ∈ agents bus → memory agent `sublist_of` done.

(** The ids in the log are pairwise different and were all drawn
    already. *)
Definition well_stamped (uuid8 : nat → string) (log : list Msg) (n : nat) : Prop :=
  NoDup (id <$> log) ∧ Forall (λ m, ∃ k, k < n ∧ id m = uuid8 k) log.

Definition all_stamping (registry : list (string * Agent)) : Prop :=
  Forall (λ ka, stamping (cls ka.2)) registry.

(** ** Sample messages and runs

    In the samples the [n]-th id and the [n]-th timestamp are the decimal
    numeral of [n]. *)

(** A message for a name that is not registered. *)
Definition lost_letter : Msg :=
  MkMsg "User" (VStr "anyone there?") "user" (Some "Concierge") "0a1b2c3d" "09:00:00".

(** A message with the id of [lost_letter] and another text. *)
Definition first_draft : Msg :=
  MkMsg "User" (VStr "Busan, one night") "user" (Some "Concierge")
    "0a1b2c3d" "09:00:00".

(** A message whose sender is the place expert but whose payload is text. *)
Definition stray_note : Msg :=
  MkMsg "PlaceExpert" (VStr "see you at the cafe") "assistant"
    (Some "Coordinator") "5e6f7a8b" "09:00:01".

(** A message of the place expert with an action that nobody knows. *)
Definition odd_reply : Msg :=
  MkMsg "PlaceExpert" (VDict [("action", VStr "bogus")]) "assistant"
    (Some "Coordinator") "7f8e9d0c" "09:00:03".

(** A message from an unknown sender, neither from the user nor carrying
    an action. *)
Definition chatter : Msg :=
  MkMsg "Visitor" (VStr "nice weather") "assistant" (Some "Coordinator")
    "3a4b5c6d" "09:00:02".

(** The coordinator's final broadcast on the bus of the sample. *)
Definition final_result : Msg :=
  MkMsg "Coordinator" (VDict [("action", VStr "final_result")]) "assistant"
    None "9c0d1e2f" "09:00:05".

(** A second delivery of a logged message. *)
Definition twice_told : MessageBus :=
  (send pretty pretty chatter (send pretty pretty chatter travel_bus).1).1.

(** The request of the user, constructed from the first stamp and sent to
    the bus of the sample. *)
Definition user_msg : Msg :=
  Msg_ (stamp pretty pretty 0) "User" "user" (Some "Coordinator")
    (VStr "부산 1박 2일 여행").

Definition first_round : MessageBus :=
  (send pretty pretty user_msg
     (MkBus (messages travel_bus) (agents travel_bus) 1)).1.

(** The coordinator's response to it, the last entry of the log, and the
    bus after the caller has forwarded it. *)
Definition first_request : Msg := default user_msg (last (messages first_round)).

Definition second_round : MessageBus :=
  (send pretty pretty first_request first_round).1.

(** A broadcast of the user that the coordinator and the place expert
    both answer. *)
Definition open_call : Msg :=
  MkMsg "User" (VDict [("action", VStr "request_places")]) "user" None
    "4d5e6f7a" "09:00:07".

(** Two messages that differ in the order of the items of the payload
    only. *)
Definition booking : Msg :=
  MkMsg "User" (VDict [("city", VStr "Busan"); ("nights", VInt 1)]) "user"
    (Some "Concierge") "6f7a8b9c" "09:00:08".

Definition booking_reordered : Msg :=
  MkMsg "User" (VDict [("nights", VInt 1); ("city", VStr "Busan")]) "user"
    (Some "Concierge") "6f7a8b9c" "09:00:08".

(** ** Further notions and sample data *)

(** What a call of [send] can do to an entry: nothing, or one [receive]. *)
Definition touched (uuid8 now : nat → string) (msg : Msg)
    (before after : string * Agent) : Prop :=
  after.1 = before.1 ∧
  (after.2 = before.2 ∨
   ∃ n, after.2 = (receive before.2 msg (stamp uuid8 now n)).1).

(** A bus on which an agent without [_process] stands between the two
    experts. *)
Definition broken_bus : MessageBus :=
  register new_ScheduleExpertAgent
    (register (new_agent BaseAgent "Intern" "")
       (register new_PlaceExpertAgent new_bus)).

(** The places of the catalogue of the place expert. *)
Definition catalogue : list Value :=
  PLACES_cafe ++ PLACES_exhibition ++ PLACES_restaurant.

(** The list behind the "places" entry of a payload. *)
Definition places_of (v : Value) : option (list Value) :=
  match py_get v "places" VNone with
  | Ok (VList l) => Some l
  | _ => None
  end.

(** A request for places that names no requirements. *)
Definition bare_request : Msg :=
  MkMsg "Coordinator" (VDict [("action", VStr "request_places")]) "assistant"
    (Some "PlaceExpert") "1a2b3c4d" "09:00:04".

(** A request for a schedule whose places are a number. *)
Definition odd_request : Msg :=
  MkMsg "Coordinator"
    (VDict [("action", VStr "create_schedule"); ("places", VInt 3)])
    "assistant" (Some "ScheduleExpert") "2b3c4d5e" "09:00:06".

Definition is_final_result (msg : Msg) : bool :=
  String.eqb (name msg) "Coordinator" && is_dict (content msg)
  && action_is "final_result" (content msg).

End Bus.

(** * The instrumented agent ([samples/agentscope-with-otel/main.py])

    The tracer is an external collaborator; what the agent tells it is
    recorded as a list of events. *)

Module Otel.

Inductive Event : Type :=
  | StartSpan (span : string) (attributes : list (string * string))
  | SetAttribute (key value : string)
  | SetStatusError (e : Exn)
  | RecordException (e : Exn)
  | EndSpan.

(** [_process] is left to the subclass: it sees the agent's memory, the
    message and the tracer, may record events of its own, and returns a
    response, nothing, or raises. *)
Record TracedAgent : Type := MkTraced {
  name : string;
  class_name : string;
  system_prompt : string;
  memory : list Bus.Msg;
  _process : list Bus.Msg → Bus.Msg → Bus.Stamp → list Event →
             list Event * Result (option Bus.Msg)
}.

Definition remember (msg : Bus.Msg) (a : TracedAgent) : TracedAgent :=
  MkTraced (name a) (class_name a) (system_prompt a) (memory a ++ [msg])
    (_process a).

(** [TracedAgent.receive] *)
Definition receive (self : TracedAgent) (msg : Bus.Msg) (st : Bus.Stamp)
    (tracer : list Event)
  : TracedAgent * list Event * Result (option Bus.Msg) :=
  let self := remember msg self in
  let tracer :=
    tracer ++ [StartSpan ("agent." +:+ name self +:+ ".process")
                 [("agent.name", name self);
                  ("agent.type", class_name self);
                  ("input.message_id", Bus.id msg)]] in
  match _process self (memory self) msg st tracer with
  | (tracer, Ok result) =>
      let tracer :=
        match result with
        | Some r => tracer ++ [SetAttribute "output.message_id" (Bus.id r)]
        | None => tracer
        end in
      (self, tracer ++ [EndSpan], Ok result)
  | (tracer, Raise e) =>
      (self, tracer ++ [SetStatusError e; RecordException e; EndSpan], Raise e)
  end.

End Otel.

(** * The graph engine ([samples/langgraph/main.py])

    [invoke] copies the caller's mapping with [dict(initial_state)] and
    then updates the copy in place, while the lists inside stay shared
    between the two mappings.  Mappings and lists are therefore objects of
    a store, and a value inside them is a scalar or a reference. *)

Module Graph.

Definition loc : Type := nat.

Inductive Val : Type :=
  | VNone
  | VBool (b : bool)
  | VInt (z : Z)
  | VStr (s : string)
  | VRef (l : loc).

#[global] Instance Val_eq_dec : EqDecision Val.
Proof. solve_decision. Defined.

Inductive Obj : Type :=
  | OList (items : list Val)
  | ODict (fields : gmap string Val).

Abbreviation Store := (gmap loc Obj).

Definition alloc (o : Obj) (h : Store) : loc * Store :=
  let l := fresh (dom h) in (l, <[l := o]> h).

(** A node function gets the store and the working mapping; it yields the
    items of the mapping it returns, or raises.  A routing function yields
    a label. *)
Definition Node : Type := Store → loc → Store * Result (gmap string Val).
Definition Router : Type := Store → loc → Store * Result string.

Record MockCompiledGraph : Type := MkGraph {
  nodes : gmap string Node;
  edges : gmap string (option string);
  conditional_edges : gmap string (Router * gmap string (option string));
  entry_point : option string
}.

(** Truth value of [current_node]. *)
Definition truthy (o : option string) : bool :=
  match o with
  | Some s => negb (String.eqb s "")
  | None => false
  end.

(** [state.update(result)].  [state] always refers to the mapping that
    [invoke] has created. *)
Definition update (state : loc) (result : gmap string Val) (h : Store) : Store :=
  match h !! state with
  | Some (ODict fields) => <[state := ODict (result ∪ fields)]> h
  | _ => h
  end.

(** [route_map.get(route_key)] *)
Definition route_get (route_map : gmap string (option string))
    (route_key : string) : option string :=
  match route_map !! route_key with
  | Some successor => successor
  | None => None
  end.

(** The loop body of [invoke] at a node name, in its two parts: run the
    node if it is registered and merge what it returns; then determine the
    next [current_node]. *)
Definition run_node (g : MockCompiledGraph) (current_node : string)
    (state : loc) (h : Store) : Store * Result () :=
  match nodes g !! current_node with
  | Some node =>
      match node h state with
      | (h, Ok result) => (update state result h, Ok ())
      | (h, Raise e) => (h, Raise e)
      end
  | None => (h, Ok ())
  end.

Definition next_node (g : MockCompiledGraph) (current_node : string)
    (state : loc) (h : Store) : Store * Result (option string) :=
  match conditional_edges g !! current_node with
  | Some (router_func, route_map) =>
      match router_func h state with
      | (h, Ok route_key) => (h, Ok (route_get route_map route_key))
      | (h, Raise e) => (h, Raise e)
      end
  | None =>
      match edges g !! current_node with
      | Some successor => (h, Ok successor)
      | None => (h, Ok None)
      end
  end.

Definition turn (g : MockCompiledGraph) (current_node : string)
    (state : loc) (h : Store) : Store * Result (option string) :=
  match run_node g current_node state h with
  | (h, Raise e) => (h, Raise e)
  | (h, Ok _) => next_node g current_node state h
  end.

(** The [while current_node:] loop.  The result holds the store, the names
    the loop went through, and how it ended: [Some (Ok ())] when
    [current_node] became false, [Some (Raise e)] when a call raised, [None]
    when [fuel] turns did not suffice. *)
Fixpoint loop (g : MockCompiledGraph) (fuel : nat)
    (current_node : option string) (state : loc) (h : Store)
  : Store * list string * option (Result ()) :=
  if truthy current_node then
    match fuel with
    | 0 => (h, [], None)
    | S fuel =>
        let name := default "" current_node in
        match turn g name state h with
        | (h, Raise e) => (h, [name], Some (Raise e))
        | (h, Ok next) =>
            let '(h, visited, r) := loop g fuel next state h in
            (h, name :: visited, r)
        end
    end
  else (h, [], Some (Ok ())).

(** [MockCompiledGraph.invoke].  [initial_state] refers to a mapping; the
    result refers to the working copy. *)
Definition invoke (g : MockCompiledGraph) (fuel : nat) (initial_state : loc)
    (h : Store) : Store * list string * option (Result loc) :=
  match h !! initial_state with
  | Some (ODict fields) =>
      let '(state, h) := alloc (ODict fields) h in
      let '(h, visited, r) := loop g fuel (entry_point g) state h in
      (h, visited,
       match r with
       | Some (Ok _) => Some (Ok state)
       | Some (Raise e) => Some (Raise e)
       | None => None
       end)
  | _ => (h, [], Some (Raise TypeError))
  end.

(** ** Distances *)

Definition AREA_DISTANCES : list (string * string * nat) :=
  [ ("전포동", "수영", 10);
    ("전포동", "해운대", 25);
    ("수영", "해운대", 15);
    ("서면", "전포동", 5);
    ("서면", "수영", 15);
    ("부전동", "전포동", 3) ].

(** [table.get(key)] on a table keyed by pairs of texts. *)
Fixpoint pair_get (key : string * string) (table : list (string * string * nat))
  : option nat :=
  match table with
  | [] => None
  | (a, b, d) :: rest =>
      if String.eqb a key.1 && String.eqb b key.2 then Some d
      else pair_get key rest
  end.

(** [get_distance] *)
Definition get_distance (area1 area2 : string) : nat :=
  if String.eqb area1 area2 then 0
  else
    let key :=
      if bool_decide (is_Some (pair_get (area1, area2) AREA_DISTANCES))
      then (area1, area2) else (area2, area1) in
    default 20 (pair_get key AREA_DISTANCES).

(** ** Nodes of the sample *)

Definition nl : string := String (Ascii.ascii_of_nat 10) "".
Definition dq : string := String (Ascii.ascii_of_nat 34) "".
Definition quoted (s : string) : string := dq +:+ s +:+ dq.

Fixpoint repeat_text (s : string) (n : nat) : string :=
  match n with
  | 0 => ""
  | S n => s +:+ repeat_text s n
  end.

(** [s[:n]] on a UTF-8 encoded text: its first [n] code points. *)
Fixpoint take_points (n : nat) (s : string) : string :=
  match s with
  | EmptyString => EmptyString
  | String c r =>
      let b := Ascii.nat_of_ascii c in
      if (128 <=? b)%nat && (b <? 192)%nat then String c (take_points n r)
      else match n with
           | 0 => EmptyString
           | S n' => String c (take_points n' r)
           end
  end.

(** [json.dumps(parsed, ensure_ascii=False, indent=4)] for the constant
    [parsed] of [parse_request]. *)
Definition parsed_json : string :=
  String.concat nl
    [ "{";
      "    " +:+ quoted "duration" +:+ ": " +:+ quoted "1박 2일" +:+ ",";
      "    " +:+ quoted "travel_style" +:+ ": " +:+ quoted "혼자" +:+ ",";
      "    " +:+ quoted "preferences" +:+ ": [";
      "        " +:+ quoted "조용한 카페" +:+ ",";
      "        " +:+ quoted "전시";
      "    ],";
      "    " +:+ quoted "constraints" +:+ ": [";
      "        " +:+ quoted "혼밥 가능" +:+ ",";
      "        " +:+ quoted "이동 동선 최소화";
      "    ]";
      "}" ].

Section parse_request.
(** What [f"{v[:50]}"] yields for a value that is not a text (a list is
    sliced and printed, a number is not subscriptable); formatting reads
    the store only. *)
Variable format_slice50 : Store → Val → Result string.

Definition slice50 (h : Store) (v : Val) : Result string :=
  match v with
  | VStr s => Ok (take_points 50 s)
  | _ => format_slice50 h v
  end.

(** [state.get("execution_log", []) + log]: the items of the new list. *)
Definition extended_log (h : Store) (fields : gmap string Val)
    (log : list Val) : Result (list Val) :=
  match fields !! "execution_log" with
  | None => Ok log
  | Some (VRef l) =>
      match h !! l with
      | Some (OList items) => Ok (items ++ log)
      | _ => Raise TypeError
      end
  | Some _ => Raise TypeError
  end.

Definition parse_request : Node := λ h state,
  match h !! state with
  | Some (ODict fields) =>
      match fields !! "raw_request" with
      | None => (h, Raise KeyError)
      | Some raw =>
          match slice50 h raw with
          | Raise e => (h, Raise e)
          | Ok shown =>
              let log :=
                [ VStr (repeat_text "=" 60);
                  VStr "[Node: parse_request] 사용자 요청 파싱 중...";
                  VStr ("  입력: " +:+ shown +:+ "...");
                  VStr ("  파싱 결과: " +:+ parsed_json) ] in
              let '(preferences, h1) :=
                alloc (OList [VStr "조용한 카페"; VStr "전시"]) h in
              let '(constraints, h2) :=
                alloc (OList [VStr "혼밥 가능"; VStr "이동 동선 최소화"]) h1 in
              match extended_log h2 fields log with
              | Raise e => (h2, Raise e)
              | Ok items =>
                  let '(execution_log, h3) := alloc (OList items) h2 in
                  (h3, Ok (<["duration" := VStr "1박 2일"]>
                          (<["travel_style" := VStr "혼자"]>
                          (<["preferences" := VRef preferences]>
                          (<["constraints" := VRef constraints]>
                          (<["execution_log" := VRef execution_log]> ∅))))))
              end
          end
      end
  | _ => (h, Raise TypeError)
  end.
End parse_request.

(** [s in v] for a text [s]: element of a list, key of a mapping, substring
    of a text. *)
Definition contains (h : Store) (s : string) (v : Val) : Result bool :=
  match v with
  | VStr t => Ok (is_substring s t)
  | VRef l =>
      match h !! l with
      | Some (OList items) => Ok (bool_decide (VStr s ∈ items))
      | Some (ODict fields) => Ok (bool_decide (is_Some (fields !! s)))
      | None => Raise TypeError
      end
  | _ => Raise TypeError
  end.

(** [analyze_preferences] *)
Definition analyze_preferences : Node := λ h state,
  match h !! state with
  | Some (ODict fields) =>
      match fields !! "preferences" with
      | None => (h, Raise KeyError)
      | Some preferences =>
          match contains h "조용한 카페" preferences,
                contains h "전시" preferences with
          | Raise e, _ => (h, Raise e)
          | Ok _, Raise e => (h, Raise e)
          | Ok quiet, Ok shows =>
              match fields !! "constraints" with
              | None => (h, Raise KeyError)
              | Some constraints =>
                  match contains h "이동 동선 최소화" constraints with
                  | Raise e => (h, Raise e)
                  | Ok minimize =>
                      let priority :=
                        if minimize : bool then "minimize_travel"
                        else "maximize_variety" in
                      let place_types :=
                        (if quiet : bool then [VStr "cafe"] else [])
                        ++ (if shows : bool then [VStr "exhibition"] else [])
                        ++ [VStr "restaurant"] in
                      let log :=
                        [ VStr (repeat_text "=" 60);
                          VStr "[Node: analyze_preferences] 선호도 분석 중..." ]
                        ++ (if quiet : bool
                            then [VStr "  → '조용한 카페' 선호 → cafe 유형 필요"]
                            else [])
                        ++ (if shows : bool
                            then [VStr "  → '전시' 선호 → exhibition 유형 필요"]
                            else [])
                        ++ [ VStr "  → 식사 장소 기본 추가 → restaurant 유형 필요";
                             VStr ("  → 제약조건 분석 결과 우선순위: " +:+ priority) ] in
                      let '(place_types_needed, h1) := alloc (OList place_types) h in
                      match extended_log h1 fields log with
                      | Raise e => (h1, Raise e)
                      | Ok items =>
                          let '(execution_log, h2) := alloc (OList items) h1 in
                          (h2, Ok (<["place_types_needed" := VRef place_types_needed]>
                                  (<["priority" := VStr priority]>
                                  (<["execution_log" := VRef execution_log]> ∅))))
                      end
                  end
              end
          end
      end
  | _ => (h, Raise TypeError)
  end.

(** [route_by_priority] *)
Definition route_by_priority : Router := λ h state,
  match h !! state with
  | Some (ODict fields) =>
      match fields !! "priority" with
      | Some v =>
          (h, Ok (if decide (v = VStr "minimize_travel") then "minimize"
                  else "variety"))
      | None => (h, Raise KeyError)
      end
  | _ => (h, Raise TypeError)
  end.

(** The tables of [build_travel_graph] (its mock branch), over the six
    node functions. *)
Definition build_travel_graph (parse_request analyze_preferences
    select_places_minimize_travel select_places_maximize_variety
    generate_schedule format_output : Node) : MockCompiledGraph :=
  MkGraph
    (<["parse_request" := parse_request]>
     (<["analyze_preferences" := analyze_preferences]>
     (<["select_places_minimize" := select_places_minimize_travel]>
     (<["select_places_variety" := select_places_maximize_variety]>
     (<["generate_schedule" := generate_schedule]>
     (<["format_output" := format_output]> ∅))))))
    (<["parse_request" := Some "analyze_preferences"]>
     (<["select_places_minimize" := Some "generate_schedule"]>
     (<["select_places_variety" := Some "generate_schedule"]>
     (<["generate_schedule" := Some "format_output"]>
     (<["format_output" := None]> ∅)))))
    (<["analyze_preferences" :=
        (route_by_priority,
         <["minimize" := Some "select_places_minimize"]>
         (<["variety" := Some "select_places_variety"]> ∅))]> ∅)
    (Some "parse_request").

(** ** Shape of a configuration *)

(** [b] is a successor that the tables of [g] list for [a]. *)
Definition edge (g : MockCompiledGraph) (a b : string) : Prop :=
  edges g !! a = Some (Some b) ∨
  ∃ router_func route_map label,
    conditional_edges g !! a = Some (router_func, route_map) ∧
    route_map !! label = Some (Some b).

(** No node name is reachable from itself. *)
Definition acyclic (g : MockCompiledGraph) : Prop :=
  ∀ a, ¬ tc (edge g) a a.

(** The entry point and every listed successor name a registered node. *)
Definition well_wired (g : MockCompiledGraph) : Prop :=
  (truthy (entry_point g) = true →
   is_Some (nodes g !! default "" (entry_point g))) ∧
  ∀ a b, edge g a b → truthy (Some b) = true → is_Some (nodes g !! b).

(** The names that the tables mention as a place to go: the entry point
    and every listed successor. *)
Definition listed (table : gmap string (option string)) : gset string :=
  list_to_set (omap (λ successor, successor) (map_to_list table).*2).

Definition names (g : MockCompiledGraph) : gset string :=
  list_to_set (option_list (entry_point g))
  ∪ listed (edges g)
  ∪ ⋃ ((λ entry, listed entry.2.2) <$> map_to_list (conditional_edges g)).

(** The [while current_node:] loop as a relation: from [current_node] and
    a store it ends in a store, having gone through the names, with the
    value [Ok ()] when [current_node] became false and with the exception
    when a call raised. *)
Inductive while (g : MockCompiledGraph) (state : loc)
  : option string → Store → Store → list string → Result () → Prop :=
  | while_end current_node h :
      truthy current_node = false →
      while g state current_node h h [] (Ok ())
  | while_raise name h h1 e :
      name ≠ "" →
      turn g name state h = (h1, Raise e) →
      while g state (Some name) h h1 [name] (Raise e)
  | while_turn name h h1 next h2 visited r :
      name ≠ "" →
      turn g name state h = (h1, Ok next) →
      while g state next h1 h2 visited r →
      while g state (Some name) h h2 (name :: visited) r.

(** A function that writes to no object of the store other than the
    working mapping; it may allocate. *)
Definition writes_only {A : Type} (f : Store → loc → Store * A) : Prop :=
  ∀ h state l o, l ≠ state → h !! l = Some o → (f h state).1 !! l = Some o.

Definition confined (g : MockCompiledGraph) : Prop :=
  (∀ k node, nodes g !! k = Some node → writes_only node) ∧
  (∀ k router_func route_map,
     conditional_edges g !! k = Some (router_func, route_map) →
     writes_only router_func).

(** The objects of [h0] other than the working mapping are as they were. *)
Definition untouched (h0 : Store) (state : loc) (h : Store) : Prop :=
  ∀ l x, l ≠ state → h0 !! l = Some x → h !! l = Some x.

(** A ranking of the node names of [build_travel_graph] along its edges. *)
Definition travel_rank (name : string) : nat :=
  if String.eqb name "parse_request" then 0
  else if String.eqb name "analyze_preferences" then 1
  else if String.eqb name "select_places_minimize" then 2
  else if String.eqb name "select_places_variety" then 2
  else if String.eqb name "generate_schedule" then 3
  else 4.

(** ** Sample configurations and stores *)

(** The conditional entry of the sample. *)
Definition route_table : gmap string (option string) :=
  <["minimize" := Some "select_places_minimize"]>
  (<["variety" := Some "select_places_variety"]> ∅).

(** The branch of the sample, with a fixed edge added to the node that has
    the conditional entry. *)
Definition branching : MockCompiledGraph :=
  MkGraph
    (<["analyze_preferences" := analyze_preferences]> ∅)
    (<["analyze_preferences" := Some "select_places_variety"]> ∅)
    (<["analyze_preferences" := (route_by_priority, route_table)]> ∅)
    (Some "analyze_preferences").

(** A table that lacks the label "variety". *)
Definition one_way : MockCompiledGraph :=
  MkGraph
    (<["analyze_preferences" := analyze_preferences]> ∅)
    ∅
    (<["analyze_preferences" :=
        (route_by_priority,
         <["minimize" := Some "select_places_minimize"]> ∅)]> ∅)
    (Some "analyze_preferences").

Definition request_fields (constraints : loc) : gmap string Val :=
  <["preferences" := VRef 1]>
  (<["constraints" := VRef constraints]>
  (<["execution_log" := VRef 4]> ∅)).

(** A store with two mappings, one asking to minimize travel (at 0) and
    one that does not (at 5), and the lists they refer to. *)
Definition request_store : Store :=
  <[0 := ODict (request_fields 2)]>
  (<[1 := OList [VStr "조용한 카페"; VStr "전시"]]>
  (<[2 := OList [VStr "혼밥 가능"; VStr "이동 동선 최소화"]]>
  (<[3 := OList [VStr "혼밥 가능"]]>
  (<[4 := OList []]>
  (<[5 := ODict (request_fields 3)]> ∅))))).

(** A node function that returns the empty mapping. *)
Definition skip : Node := λ h _, (h, Ok ∅).

(** The tables of the sample with its first two node functions; the other
    four are stubs. *)
Definition sample_graph : MockCompiledGraph :=
  build_travel_graph (parse_request (λ _ _, Raise TypeError))
    analyze_preferences skip skip skip skip.

(** The initial state of [main], as far as the first node reads it: the
    request at 0, its empty log at 1. *)
Definition sample_store : Store :=
  <[0 := ODict (<["raw_request" := VStr "부산 1박 2일 여행"]>
               (<["execution_log" := VRef 1]> ∅))]>
  (<[1 := OList []]> ∅).

(** A node function of another kind: it appends a line to the list that
    the "execution_log" field refers to, in place. *)
Definition append_in_place : Node := λ h state,
  match h !! state with
  | Some (ODict fields) =>
      match fields !! "execution_log" with
      | Some (VRef l) =>
          match h !! l with
          | Some (OList items) =>
              (<[l := OList (items ++ [VStr "visited"])]> h, Ok ∅)
          | _ => (h, Raise AttributeError)
          end
      | Some _ => (h, Raise AttributeError)
      | None => (h, Raise KeyError)
      end
  | _ => (h, Raise TypeError)
  end.

Definition scribbling : MockCompiledGraph :=
  MkGraph (<["note" := append_in_place]> ∅) ∅ ∅ (Some "note").

(** Tables without a cycle that lead from the one registered node to two
    names that are not registered. *)
Definition dangling : MockCompiledGraph :=
  MkGraph (<["first" := skip]> ∅)
    (<["first" := Some "second"]> (<["second" := Some "third"]> ∅))
    ∅ (Some "first").

Definition dangling_rank (name : string) : nat :=
  if String.eqb name "first" then 0
  else if String.eqb name "second" then 1
  else 2.

(** ** Further notions and sample data *)

Definition idle : MockCompiledGraph :=
  MkGraph (<["parse_request" := skip]> ∅) ∅ ∅ (Some "").

(** A node function without a "raw_request" to read. *)
Definition empty_store : Store := <[0 := ODict ∅]> ∅.

(** The lines that [parse_request] and [analyze_preferences] add to the
    log. *)
Definition parse_request_lines (shown : string) : list Val :=
  [ VStr (repeat_text "=" 60);
    VStr "[Node: parse_request] 사용자 요청 파싱 중...";
    VStr ("  입력: " +:+ shown +:+ "...");
    VStr ("  파싱 결과: " +:+ parsed_json) ].

Definition analyze_preferences_lines (quiet shows minimize : bool) : list Val :=
  [ VStr (repeat_text "=" 60);
    VStr "[Node: analyze_preferences] 선호도 분석 중..." ]
  ++ (if quiet then [VStr "  → '조용한 카페' 선호 → cafe 유형 필요"] else [])
  ++ (if shows then [VStr "  → '전시' 선호 → exhibition 유형 필요"] else [])
  ++ [ VStr "  → 식사 장소 기본 추가 → restaurant 유형 필요";
       VStr ("  → 제약조건 분석 결과 우선순위: "
             +:+ (if minimize then "minimize_travel" else "maximize_variety")) ].

Definition place_types (quiet shows : bool) : list Val :=
  (if quiet then [VStr "cafe"] else [])
  ++ (if shows then [VStr "exhibition"] else [])
  ++ [VStr "restaurant"].

(** [h'] holds every object of [h] unchanged. *)
Definition extends (h h' : Store) : Prop :=
  ∀ l x, h !! l = Some x → h' !! l = Some x.

Definition travel_path (branch : string) : list string :=
  [ "parse_request"; "analyze_preferences"; branch; "generate_schedule";
    "format_output" ].

Definition travel_successors (name : string) : list (option string) :=
  if String.eqb name "parse_request" then [Some "analyze_preferences"]
  else if String.eqb name "analyze_preferences"
       then [Some "select_places_minimize"; Some "select_places_variety"]
  else if String.eqb name "select_places_minimize"
       then [Some "generate_schedule"]
  else if String.eqb name "select_places_variety"
       then [Some "generate_schedule"]
  else if String.eqb name "generate_schedule" then [Some "format_output"]
  else [None].

(** A function that changes no object of the store; it may allocate. *)
Definition allocates_only {A : Type} (f : Store → loc → Store * A) : Prop :=
  ∀ h state, extends h (f h state).1.

Definition functional (g : MockCompiledGraph) : Prop :=
  (∀ k node, nodes g !! k = Some node → allocates_only node) ∧
  (∀ k router_func route_map,
     conditional_edges g !! k = Some (router_func, route_map) →
     allocates_only router_func).

(** From [h] to [h'] the mapping at [state] has kept its keys, and the
    other objects are as they were. *)
Definition grown (state : loc) (h h' : Store) : Prop :=
  (∀ l x, l ≠ state → h !! l = Some x → h' !! l = Some x) ∧
  ∀ fields, h !! state = Some (ODict fields) →
    ∃ fields', h' !! state = Some (ODict fields') ∧ dom fields ⊆ dom fields'.

End Graph.

(** * Properties of the message bus *)

Module BusProps.
Import Bus.

(** ** Insertion-ordered dictionaries *)

Section odict_facts.
Context {V : Type}.
Implicit Types (k : string) (v : V) (d : list (string * V)).

Lemma od_get_set_eq k v d : od_get k (od_set k v d) = Some v.
Proof.
induction d as [|[k' v'] r IH]; simpl.
- by rewrite String.eqb_refl.
- destruct (String.eqb k' k) eqn:E; simpl; by rewrite E.
Qed.

Lemma od_get_set_ne k k' v d : k ≠ k' → od_get k' (od_set k v d) = od_get k' d.
Proof.
intros Hne. induction d as [|[k0 v0] r IH]; simpl.
- destruct (String.eqb k k') eqn:E; [|done].
  by apply String.eqb_eq in E.
- destruct (String.eqb k0 k) eqn:E; simpl.
  + apply String.eqb_eq in E. subst k0.
    destruct (String.eqb k k') eqn:E'; [|done].
    by apply String.eqb_eq in E'.
  + by rewrite IH.
Qed.

Lemma od_keys_set_absent k v d :
od_get k d = None → od_set k v d = d ++ [(k, v)].
Proof.
induction d as [|[k' v'] r IH]; simpl; [done|].
destruct (String.eqb k' k); [done|]. intros H. by rewrite IH.
Qed.

Lemma od_keys_set_present k v d :
is_Some (od_get k d) → (od_set k v d).*1 = d.*1.
Proof.
induction d as [|[k' v'] r IH]; simpl.
- by intros [? ?].
- destruct (String.eqb k' k) eqn:E; simpl; [done|].
  intros H. f_equal. by apply IH.
Qed.

Lemma od_get_Some_elem k v d : od_get k d = Some v → (k, v) ∈ d.
Proof.
induction d as [|[k' v'] r IH]; simpl; [done|].
destruct (String.eqb k' k) eqn:E.
- apply String.eqb_eq in E. intros [= ->]. subst. apply list_elem_of_here.
- intros H. apply list_elem_of_further. by apply IH.
Qed.

Lemma od_set_elem k v d kv :
kv ∈ od_set k v d → kv = (k, v) ∨ kv ∈ d.
Proof.
induction d as [|[k' v'] r IH]; simpl.
- intros H. apply list_elem_of_singleton in H. by left.
- destruct (String.eqb k' k) eqn:E.
  + apply String.eqb_eq in E. subst k'.
    intros [->|H]%elem_of_cons; [by left|].
    right. by apply list_elem_of_further.
  + intros [->|H]%elem_of_cons.
    * right. apply list_elem_of_here.
    * destruct (IH H) as [->|?]; [by left|].
      right. by apply list_elem_of_further.
Qed.

End odict_facts.

(** ** Equality of messages *)

Lemma py_eq_refl (v : Value) : py_eq v v = true.
Proof.
  induction v as [|z|s|l IH|d IH] using Value_nested_ind; simpl.
  - done.
  - apply Z.eqb_refl.
  - apply String.eqb_refl.
  - induction IH as [|x r Hx _ IHr]; [done|]. by rewrite Hx, IHr.
  - assert (∀ kx, In kx d →
              existsb (λ '(k', y), String.eqb kx.1 k' && py_eq kx.2 y) d = true)
      as Hin.
    { intros [k x] Hkx. apply existsb_exists. exists (k, x). split; [done|].
      rewrite String.eqb_refl. simpl.
      rewrite Forall_forall in IH. apply (IH (k, x)).
      by apply list_elem_of_In. }
    apply andb_true_iff. split.
    + apply forallb_forall. intros [k x] Hkx. exact (Hin (k, x) Hkx).
    + apply forallb_forall. intros [k x] Hkx.
      apply existsb_exists. exists (k, x). split; [done|].
      rewrite String.eqb_refl. simpl.
      rewrite Forall_forall in IH. apply (IH (k, x)).
      by apply list_elem_of_In.
Qed.

Lemma Msg_eq_refl (msg : Msg) : Msg_eq msg msg = true.
Proof.
  unfold Msg_eq. rewrite !String.eqb_refl, py_eq_refl.
  by rewrite bool_decide_eq_true_2.
Qed.

Lemma Msg_eq_id (a b : Msg) : Msg_eq a b = true → id a = id b.
Proof.
  unfold Msg_eq. rewrite !andb_true_iff.
  intros [[_ Hid] _]. by apply String.eqb_eq.
Qed.

Lemma logged_elem (msg : Msg) (log : list Msg) :
  msg ∈ log → logged msg log = true.
Proof.
  intros Hin. apply existsb_exists. exists msg.
  split; [by apply list_elem_of_In|apply Msg_eq_refl].
Qed.

Lemma logged_app (msg : Msg) (log more : list Msg) :
  logged msg (log ++ more) = logged msg log || logged msg more.
Proof. apply existsb_app. Qed.

Lemma logged_id (msg : Msg) (log : list Msg) :
  logged msg log = true → id msg ∈ id <$> log.
Proof.
  intros (m & Hin & Heq)%existsb_exists.
  apply list_elem_of_fmap. exists m.
  split; [by apply Msg_eq_id|by apply list_elem_of_In].
Qed.

(** ** What [_process] and [receive] leave alone *)

Lemma process_frame (self : Agent) (msg : Msg) (st : Stamp) :
  let self' := (_process self msg st).1 in
  agent_name self' = agent_name self ∧ memory self' = memory self ∧
  cls self' = cls self.
Proof.
  unfold _process. destruct (cls self) eqn:Hc; simpl.
  - by rewrite Hc.
  - unfold CoordinatorAgent_process.
    repeat case_match; simpl; by rewrite ?Hc.
  - unfold PlaceExpertAgent_process. case_match; simpl; by rewrite Hc.
  - unfold ScheduleExpertAgent_process. case_match; simpl; by rewrite Hc.
  - destruct (f _ _ _ _ _); simpl. by rewrite Hc.
Qed.

Lemma receive_frame (self : Agent) (msg : Msg) (st : Stamp) :
  let self' := (receive self msg st).1 in
  agent_name self' = agent_name self ∧
  memory self' = memory self ++ [msg] ∧
  cls self' = cls self.
Proof.
  unfold receive.
  destruct (process_frame (remember msg self) msg st) as (Hn & Hm & Hc).
  simpl in *. by rewrite Hn, Hm, Hc.
Qed.

Lemma receive_memory self msg st self' r :
  receive self msg st = (self', r) → memory self' = memory self ++ [msg].
Proof.
  intros H. pose proof (receive_frame self msg st) as (_ & Hm & _).
  by rewrite H in Hm.
Qed.

(** ** Direct delivery *)

Lemma recipient_direct (msg : Msg) (who : string) :
  recipient msg = Direct who → to msg = Some who ∧ truthy (to msg) = true.
Proof.
  unfold recipient. destruct (to msg) as [s|]; [|done].
  destruct (truthy (Some s)) eqn:E; [|done]. by intros [= ->].
Qed.

Lemma recipient_broadcast (msg : Msg) :
  recipient msg = Broadcast → truthy (to msg) = false.
Proof.
  unfold recipient. destruct (to msg) as [s|]; [|done].
  by destruct (truthy (Some s)).
Qed.

Lemma send_direct uuid8 now (msg : Msg) (bus : MessageBus) (who : string)
    (agent : Agent) :
  recipient msg = Direct who →
  od_get who (agents bus) = Some agent →
  let log := if logged msg (messages bus) then messages bus
             else messages bus ++ [msg] in
  let out := receive agent msg (stamp uuid8 now (drawn bus)) in
  send uuid8 now msg bus =
    (MkBus (log ++ match out.2 with Ok (Some r) => [r] | _ => [] end)
       (od_set who out.1 (agents bus)) (S (drawn bus)),
     match out.2 with
     | Ok (Some r) => Ok [r]
     | Ok None => Ok []
     | Raise e => Raise e
     end).
Proof.
  intros [Hto Ht]%recipient_direct Hget. unfold send.
  rewrite Ht, Hto. simpl. rewrite Hget.
  destruct (receive agent msg _) as [a' [[r|]|e]]; simpl;
    by rewrite ?app_nil_r.
Qed.

Lemma send_absent uuid8 now (msg : Msg) (bus : MessageBus) (who : string) :
  recipient msg = Direct who →
  od_get who (agents bus) = None →
  send uuid8 now msg bus =
    (MkBus (if logged msg (messages bus) then messages bus
            else messages bus ++ [msg])
       (agents bus) (drawn bus),
     Ok []).
Proof.
  intros [Hto Ht]%recipient_direct Hget. unfold send.
  rewrite Ht, Hto. simpl. by rewrite Hget.
Qed.

(** C9 (unroutable address).  When [send] treats the message as addressed
    to [who] and no agent is registered under that name, the call returns
    the empty list without raising: no agent is called (the registry and
    the number of stamps drawn are as before) and only the log may have
    gained the message itself. *)
Theorem send_unroutable uuid8 now (msg : Msg) (bus : MessageBus) (who : string) :
  recipient msg = Direct who →
  od_get who (agents bus) = None →
  send uuid8 now msg bus =
    (MkBus (if logged msg (messages bus) then messages bus
            else messages bus ++ [msg])
       (agents bus) (drawn bus),
     Ok []).
Proof.
  intros Hrec Hget.
  destruct (recipient_direct msg who Hrec) as [Hto Htruthy].
  unfold send. rewrite Htruthy, Hto. simpl.
  rewrite Hget. reflexivity.
Qed.

Lemma send_unroutable_witness :
  send pretty pretty lost_letter travel_bus =
    (MkBus [lost_letter] (agents travel_bus) 0, Ok []).
Proof.
  exact (send_unroutable pretty pretty lost_letter travel_bus "Concierge"
           eq_refl eq_refl).
Defined.

(** ** Receipt is recorded before the response is computed *)

(** C5 (receipt survives a failed computation).  [receive] first appends
    the message to the agent's memory and then runs [_process] on the
    agent that already holds it; whatever [_process] does, the agent that
    comes back holds the message.  When [_process] raises, [send] lets the
    exception through and the registered agent keeps the receipt.  The
    instrumented [receive] does the same, and hands the exception on after
    reporting it to the tracer. *)
Theorem receive_records_first (self : Agent) (msg : Msg) (st : Stamp) :
  receive self msg st = _process (remember msg self) msg st ∧
  memory (remember msg self) = memory self ++ [msg] ∧
  memory (receive self msg st).1 = memory self ++ [msg] ∧
  (∀ e uuid8 now bus who,
     (receive self msg st).2 = Raise e →
     recipient msg = Direct who →
     od_get who (agents bus) = Some self →
     st = stamp uuid8 now (drawn bus) →
     (send uuid8 now msg bus).2 = Raise e ∧
     od_get who (agents (send uuid8 now msg bus).1)
       = Some (receive self msg st).1) ∧
  (∀ (traced : Otel.TracedAgent) (tracer : list Otel.Event),
     let out := Otel.receive traced msg st tracer in
     Otel.memory out.1.1 = Otel.memory traced ++ [msg] ∧
     ∃ started,
       let ran := Otel._process traced (Otel.memory traced ++ [msg]) msg st
                    (tracer ++ [started]) in
       (ran.2 = Ok None → out = (Otel.remember msg traced, ran.1 ++ [Otel.EndSpan], Ok None)) ∧
       ∀ e, ran.2 = Raise e →
         out = (Otel.remember msg traced,
                ran.1 ++ [Otel.SetStatusError e; Otel.RecordException e;
                          Otel.EndSpan],
                Raise e)).
Proof.
  split; [done|]. split; [done|].
  split; [by destruct (receive_frame self msg st) as (_ & ? & _)|].
  split.
  - intros e uuid8 now bus who Hr Hrec Hget ->.
    rewrite (send_direct _ _ _ _ _ _ Hrec Hget). simpl.
    rewrite Hr. split; [done|]. apply od_get_set_eq.
  - intros traced tracer. unfold Otel.receive. simpl.
    destruct (Otel._process traced _ msg st _) as [tr [[r|]|e]] eqn:E; simpl.
    + split; [done|]. eexists. rewrite E. simpl. split; [done|]. done.
    + split; [done|]. eexists. rewrite E. simpl. split; done.
    + split; [done|]. eexists. rewrite E. simpl. split; [done|].
      by intros ? [= <-].
Qed.

Lemma receive_records_first_witness :
  (send pretty pretty stray_note travel_bus).2 = Raise AttributeError ∧
  (memory <$> od_get "Coordinator"
     (agents (send pretty pretty stray_note travel_bus).1))
    = Some [stray_note].
Proof.
  destruct (receive_records_first new_CoordinatorAgent stray_note
              (stamp pretty pretty 0)) as (_ & _ & Hm & Hsend & _).
  destruct (Hsend AttributeError pretty pretty travel_bus "Coordinator"
              eq_refl eq_refl eq_refl eq_refl) as [Hr Hget].
  split; [exact Hr|].
  rewrite Hget. exact (f_equal Some Hm).
Defined.

(** ** Broadcast *)

Lemma deliver_all_visit uuid8 now (msg : Msg) (todo : list (string * Agent))
    (log : list Msg) (n : nat) (acc : list Msg) :
  let outs := visit uuid8 now msg (filter (λ ka, ka.1 ≠ name msg) todo) n in
  Forall (λ o, is_ok o.2 = true) outs →
  ∃ after,
    deliver_all uuid8 now msg todo log n acc =
      (after, log ++ omap response_of outs, n + length outs,
       acc ++ omap response_of outs, None) ∧
    Forall2 (delivered msg) todo after.
Proof.
  revert log n acc. induction todo as [|[key agent] rest IH]; intros log n acc.
  - simpl. intros _. exists []. by rewrite !app_nil_r, Nat.add_0_r.
  - simpl. destruct (decide (key = name msg)) as [->|Hne].
    + rewrite String.eqb_refl. simpl.
      rewrite filter_cons_False by (simpl; tauto).
      intros Hok. destruct (IH log n acc Hok) as (after & -> & HF).
      exists ((name msg, agent) :: after). split; [done|].
      constructor; [|done]. unfold delivered. simpl.
      by rewrite decide_True.
    + assert (String.eqb key (name msg) = false) as ->
        by by apply String.eqb_neq.
      simpl. rewrite filter_cons_True by done. simpl.
      intros Hok. apply Forall_cons in Hok as [Hhd Htl].
      pose proof (receive_frame agent msg (stamp uuid8 now n)) as (Hn & Hm & Hc).
      destruct (receive agent msg (stamp uuid8 now n)) as [agent' [[r|]|e]];
        simpl in *; [| |done].
      * destruct (IH (log ++ [r]) (S n) (acc ++ [r]) Htl) as (after & -> & HF).
        exists ((key, agent') :: after). split.
        { unfold response_of at 1 3. simpl.
          rewrite <-!app_assoc. simpl. do 3 f_equal. lia. }
        constructor; [|done]. unfold delivered. simpl.
        by rewrite decide_False.
      * destruct (IH log (S n) acc Htl) as (after & -> & HF).
        exists ((key, agent') :: after). split.
        { unfold response_of at 1 3. simpl. do 3 f_equal. lia. }
        constructor; [|done]. unfold delivered. simpl.
        by rewrite decide_False.
Qed.

Lemma send_broadcast uuid8 now (msg : Msg) (bus : MessageBus) :
  recipient msg = Broadcast →
  let outs := visit uuid8 now msg (recipients msg bus) (drawn bus) in
  Forall (λ o, is_ok o.2 = true) outs →
  (send uuid8 now msg bus).2 = Ok (omap response_of outs) ∧
  Forall2 (delivered msg) (agents bus) (agents (send uuid8 now msg bus).1) ∧
  messages (send uuid8 now msg bus).1 =
    (if logged msg (messages bus) then messages bus
     else messages bus ++ [msg]) ++ omap response_of outs.
Proof.
  intros Hb%recipient_broadcast outs Hok. unfold send. rewrite Hb.
  destruct (deliver_all_visit uuid8 now msg (agents bus)
              (if logged msg (messages bus) then messages bus
               else messages bus ++ [msg]) (drawn bus) [] Hok)
    as (after & -> & HF).
  simpl. done.
Qed.

(** C6 (broadcast), amended: the claim holds when no recipient's [receive]
    raises.  Then, for a message without a recipient, the agents called
    are the registered ones whose key differs from the sender's name, in
    registry order; every such agent gains the message exactly once at the
    end of its memory; an entry under the sender's name is left as it was;
    and the returned list holds the responses in the order of the
    calls. *)
Theorem broadcast_reaches_all_but_sender uuid8 now (msg : Msg) (bus : MessageBus) :
  recipient msg = Broadcast →
  let outs := visit uuid8 now msg (recipients msg bus) (drawn bus) in
  Forall (λ o, is_ok o.2 = true) outs →
  (send uuid8 now msg bus).2 = Ok (omap response_of outs) ∧
  Forall2 (delivered msg) (agents bus) (agents (send uuid8 now msg bus).1) ∧
  messages (send uuid8 now msg bus).1 =
    (if logged msg (messages bus) then messages bus
     else messages bus ++ [msg]) ++ omap response_of outs.
Proof.
  intros Hrec outs Hok.
  pose proof (recipient_broadcast msg Hrec) as Hfalsy.
  destruct (deliver_all_visit uuid8 now msg (agents bus)
              (if logged msg (messages bus) then messages bus
               else messages bus ++ [msg]) (drawn bus) [] Hok)
    as (after & Hloop & Hentries).
  unfold send. rewrite Hfalsy, Hloop. cbn [fst snd messages agents].
  split; [reflexivity|]. split; [exact Hentries|reflexivity].
Qed.

Lemma broadcast_reaches_all_but_sender_witness :
  ((send pretty pretty final_result travel_bus).2 = Ok [] ∧
   (λ ka, (ka.1, memory ka.2))
     <$> agents (send pretty pretty final_result travel_bus).1
     = [("Coordinator", []); ("PlaceExpert", [final_result]);
        ("ScheduleExpert", [final_result])]) ∧
  (∃ first second,
     (send pretty pretty open_call travel_bus).2 = Ok [first; second] ∧
     name first = "Coordinator" ∧ name second = "PlaceExpert") ∧
  (λ ka, (ka.1, memory ka.2))
    <$> agents (send pretty pretty open_call travel_bus).1
    = [("Coordinator", [open_call]); ("PlaceExpert", [open_call]);
       ("ScheduleExpert", [open_call])].
Proof.
  split; [|split].
  - destruct (broadcast_reaches_all_but_sender pretty pretty final_result
                travel_bus eq_refl) as (Hr & HF & _).
    + repeat constructor.
    + split; [exact Hr|]. reflexivity.
  - destruct (broadcast_reaches_all_but_sender pretty pretty open_call
                travel_bus eq_refl) as (Hr & _ & _).
    + repeat constructor.
    + rewrite Hr. eexists _, _. split; [reflexivity|]. split; reflexivity.
  - reflexivity.
Defined.

(** C6 as stated, for every broadcast: on a bus where an agent without
    [_process] stands between the two experts, the broadcast ends with the
    exception of that agent; no list is returned and the schedule expert,
    registered after it, has not received the message. *)
Lemma broadcast_stops_at_failure :
  recipient final_result = Broadcast ∧
  (send pretty pretty final_result broken_bus).2 = Raise NotImplementedError ∧
  (λ ka, (ka.1, memory ka.2))
    <$> agents (send pretty pretty final_result broken_bus).1
    = [("PlaceExpert", [final_result]); ("Intern", [final_result]);
       ("ScheduleExpert", [])] ∧
  ¬ (∀ msg bus,
       recipient msg = Broadcast →
       (∃ responses, (send pretty pretty msg bus).2 = Ok responses) ∧
       Forall2 (delivered msg) (agents bus)
         (agents (send pretty pretty msg bus).1)).
Proof.
  split; [reflexivity|]. split; [reflexivity|]. split; [reflexivity|].
  intros H. destruct (H final_result broken_bus eq_refl) as [[responses Hr] _].
  discriminate Hr.
Qed.

(** Registration order is iteration order: a new name goes to the end, a
    name that is registered again keeps its place. *)
Lemma register_new_name (agent : Agent) (bus : MessageBus) :
  od_get (agent_name agent) (agents bus) = None →
  agents (register agent bus) = agents bus ++ [(agent_name agent, agent)].
Proof. intros H. unfold register. simpl. by apply od_keys_set_absent. Qed.

Lemma register_same_name (agent : Agent) (bus : MessageBus) :
  is_Some (od_get (agent_name agent) (agents bus)) →
  (agents (register agent bus)).*1 = (agents bus).*1.
Proof. intros H. unfold register. simpl. by apply od_keys_set_present. Qed.

(** ** Messages that no guard accepts *)

Lemma process_fallthrough (v : Variant) (self : Agent) (msg : Msg) (st : Stamp) :
  cls self = variant_class v →
  recognizes v msg = false →
  _process self msg st = (self, Ok None).
Proof.
  intros Hc Hr. unfold _process. rewrite Hc.
  destruct v; simpl in *.
  - unfold CoordinatorAgent_process.
    apply orb_false_iff in Hr as [Hr H3].
    apply orb_false_iff in Hr as [H1 H2]. by rewrite H1, H2, H3.
  - unfold PlaceExpertAgent_process. by rewrite Hr.
  - unfold ScheduleExpertAgent_process. by rewrite Hr.
Qed.

(** C2 (no response is not an error), amended: "not recognized" means
    that none of the guards of the variant's [_process] holds.  Then
    [receive] records the message, raises nothing and returns no response;
    and when this is so for every agent that [send] calls for the message,
    [send] returns the empty list. *)
Theorem unrecognized_gets_no_response uuid8 now (msg : Msg) :
  (∀ v self st,
     cls self = variant_class v →
     recognizes v msg = false →
     receive self msg st = (remember msg self, Ok None)) ∧
  (∀ bus,
     Forall (λ a, ∃ v, cls a = variant_class v ∧ recognizes v msg = false)
       (addressees msg bus) →
     (send uuid8 now msg bus).2 = Ok []).
Proof.
  assert (∀ v self st, cls self = variant_class v → recognizes v msg = false →
            receive self msg st = (remember msg self, Ok None)) as Hrecv.
  { intros v self st Hc Hr. unfold receive.
    by apply (process_fallthrough v). }
  split; [exact Hrecv|].
  intros bus Hall. unfold addressees in Hall.
  destruct (recipient msg) as [who|] eqn:Hrec.
  - destruct (od_get who (agents bus)) as [agent|] eqn:Hget.
    + apply Forall_cons in Hall as [(v & Hc & Hr) _].
      rewrite (send_direct _ _ _ _ _ _ Hrec Hget). simpl.
      by rewrite (Hrecv v agent _ Hc Hr).
    + by rewrite (send_absent _ _ _ _ _ Hrec Hget).
  - assert (∀ who n, Forall (λ a, ∃ v, cls a = variant_class v ∧
                                   recognizes v msg = false) who.*2 →
              Forall (λ o, is_ok o.2 = true) (visit uuid8 now msg who n) ∧
              omap response_of (visit uuid8 now msg who n) = []) as Hvisit.
    { induction who as [|[k a] rest IH]; intros n HF; simpl; [done|].
      apply Forall_cons in HF as [(v & Hc & Hr) HF].
      destruct (IH (S n) HF) as [IH1 IH2].
      rewrite (Hrecv v a _ Hc Hr). split.
      - by constructor.
      - unfold response_of at 1. simpl. exact IH2. }
    destruct (Hvisit (recipients msg bus) (drawn bus) Hall) as [Hok Hnone].
    destruct (send_broadcast uuid8 now msg bus Hrec Hok)
      as (-> & _). by rewrite Hnone.
Qed.

Lemma unrecognized_gets_no_response_witness :
  receive new_CoordinatorAgent chatter (stamp pretty pretty 0)
    = (remember chatter new_CoordinatorAgent, Ok None) ∧
  (send pretty pretty chatter travel_bus).2 = Ok [] ∧
  (send pretty pretty final_result travel_bus).2 = Ok [].
Proof.
  split; [|split].
  - apply (proj1 (unrecognized_gets_no_response pretty pretty chatter)
             Coordinator); reflexivity.
  - apply (proj2 (unrecognized_gets_no_response pretty pretty chatter)).
    repeat constructor. by exists Coordinator.
  - apply (proj2 (unrecognized_gets_no_response pretty pretty final_result)).
    constructor; [by exists PlaceExpert|].
    constructor; [by exists ScheduleExpert|]. constructor.
Defined.

(** C2 as stated reads "not recognized" as "no case on the role and the
    payload's action matches".  The coordinator has one such case, the role
    "user"; beyond it, it dispatches on the sender: a message of the place
    expert is answered whatever its action is. *)
Lemma coordinator_dispatches_on_sender :
  role_action_case Coordinator odd_reply = false ∧
  (∃ response,
     (receive new_CoordinatorAgent odd_reply (stamp pretty pretty 0)).2
       = Ok (Some response) ∧
     to response = Some "ScheduleExpert") ∧
  ¬ (∀ v self msg st,
       cls self = variant_class v →
       role_action_case v msg = false →
       (receive self msg st).2 = Ok None).
Proof.
  split; [reflexivity|]. split; [by eexists|].
  intros H.
  specialize (H Coordinator new_CoordinatorAgent odd_reply
                (stamp pretty pretty 0) eq_refl eq_refl).
  discriminate H.
Qed.

(** ** What one call of [send] does to the log and to the memories *)

Lemma kept_refl (msg : Msg) (ka : string * Agent) : kept msg ka ka.
Proof. unfold kept. auto. Qed.

Lemma kept_receive (msg : Msg) (key : string) (agent : Agent) (st : Stamp) :
  kept msg (key, agent) (key, (receive agent msg st).1).
Proof.
  destruct (receive_frame agent msg st) as (_ & Hm & Hc).
  unfold kept. simpl. auto.
Qed.

Lemma od_set_Forall2 {V : Type} (R : string * V → string * V → Prop)
    (k : string) (v v' : V) (d : list (string * V)) :
  (∀ x, R x x) → od_get k d = Some v → R (k, v) (k, v') →
  Forall2 R d (od_set k v' d).
Proof.
  intros Hrefl Hget HR. induction d as [|[k0 v0] r IH]; simpl in *; [done|].
  destruct (String.eqb k0 k) eqn:E.
  - apply String.eqb_eq in E. subst k0. injection Hget as ->.
    constructor; [done|]. by apply Forall_Forall2_diag, Forall_forall.
  - constructor; [done|]. by apply IH.
Qed.

Lemma Forall2_elem_r {A B : Type} (R : A → B → Prop) (l : list A)
    (k : list B) (y : B) :
  Forall2 R l k → y ∈ k → ∃ x, x ∈ l ∧ R x y.
Proof.
  intros HF [i Hi]%list_elem_of_lookup.
  destruct (Forall2_lookup_r _ _ _ _ _ HF Hi) as (x & Hx & HR).
  exists x. split; [|done]. apply list_elem_of_lookup. eauto.
Qed.

Lemma deliver_all_shape uuid8 now (msg : Msg) (todo : list (string * Agent))
    (log : list Msg) (n : nat) (acc : list Msg) after log' n' acc' e :
  deliver_all uuid8 now msg todo log n acc = (after, log', n', acc', e) →
  ∃ rs, log' = log ++ rs ∧ acc' = acc ++ rs ∧ Forall2 (kept msg) todo after.
Proof.
  revert log n acc after log' n' acc' e.
  induction todo as [|[key agent] rest IH];
    intros log n acc after log' n' acc' e; simpl.
  - intros [= <- <- <- <- <-]. exists []. by rewrite !app_nil_r.
  - destruct (negb (String.eqb key (name msg))).
    + pose proof (kept_receive msg key agent (stamp uuid8 now n)) as Hk.
      destruct (receive agent msg (stamp uuid8 now n)) as [agent' [[r|]|ex]];
        simpl in Hk.
      * destruct (deliver_all uuid8 now msg rest (log ++ [r]) (S n) (acc ++ [r]))
          as [[[[rest' l'] m'] rs'] e'] eqn:E.
        intros [= <- <- <- <- <-].
        apply IH in E as (rs & -> & -> & HF).
        exists (r :: rs). rewrite <-!app_assoc. simpl.
        repeat split; try done. by constructor.
      * destruct (deliver_all uuid8 now msg rest log (S n) acc)
          as [[[[rest' l'] m'] rs'] e'] eqn:E.
        intros [= <- <- <- <- <-].
        apply IH in E as (rs & -> & -> & HF).
        exists rs. repeat split; try done. by constructor.
      * intros [= <- <- <- <- <-]. exists []. rewrite !app_nil_r.
        repeat split; try done. constructor; [done|].
        apply Forall_Forall2_diag, Forall_forall. intros. apply kept_refl.
    + destruct (deliver_all uuid8 now msg rest log n acc)
        as [[[[rest' l'] m'] rs'] e'] eqn:E.
      intros [= <- <- <- <- <-].
      apply IH in E as (rs & -> & -> & HF).
      exists rs. repeat split; try done.
      constructor; [apply kept_refl|done].
Qed.

Lemma send_shape uuid8 now (msg : Msg) (bus : MessageBus) :
  ∃ rs,
    messages (send uuid8 now msg bus).1 =
      (if logged msg (messages bus) then messages bus
       else messages bus ++ [msg]) ++ rs ∧
    (∀ out, (send uuid8 now msg bus).2 = Ok out → out = rs) ∧
    Forall2 (kept msg) (agents bus) (agents (send uuid8 now msg bus).1).
Proof.
  destruct (recipient msg) as [who|] eqn:Hrec.
  - destruct (od_get who (agents bus)) as [agent|] eqn:Hget.
    + rewrite (send_direct _ _ _ _ _ _ Hrec Hget). simpl.
      pose proof (kept_receive msg who agent (stamp uuid8 now (drawn bus))) as Hk.
      destruct (receive agent msg _) as [agent' [[r|]|ex]]; simpl in *.
      * exists [r]. repeat split; [by intros ? [= <-]|].
        eapply od_set_Forall2; eauto using kept_refl.
      * exists []. repeat split; [by intros ? [= <-]|].
        eapply od_set_Forall2; eauto using kept_refl.
      * exists []. repeat split; [done|].
        eapply od_set_Forall2; eauto using kept_refl.
    + rewrite (send_absent _ _ _ _ _ Hrec Hget). simpl.
      exists []. rewrite app_nil_r. repeat split; [by intros ? [= <-]|].
      apply Forall_Forall2_diag, Forall_forall. intros. apply kept_refl.
  - apply recipient_broadcast in Hrec. unfold send. rewrite Hrec.
    destruct (deliver_all uuid8 now msg (agents bus) _ (drawn bus) [])
      as [[[[after l'] m'] rs'] e'] eqn:E.
    apply deliver_all_shape in E as (rs & -> & -> & HF). simpl.
    exists rs. repeat split; [|done].
    destruct e'; [done|]. by intros ? [= <-].
Qed.

Lemma sent_is_logged (msg : Msg) (log : list Msg) :
  logged msg (if logged msg log then log else log ++ [msg]) = true.
Proof.
  destruct (logged msg log) eqn:E; [done|].
  rewrite logged_app. simpl. by rewrite Msg_eq_refl, orb_true_r.
Qed.

Lemma handed_refl (msg : Msg) (ka : string * Agent) : handed msg ka ka.
Proof. split; [done|]. by left. Qed.

Lemma deliver_all_handed uuid8 now (msg : Msg) (todo : list (string * Agent))
    (log : list Msg) (n : nat) (acc : list Msg) :
  recipient msg = Broadcast →
  Forall2 (handed msg) todo (deliver_all uuid8 now msg todo log n acc).1.1.1.1.
Proof.
  intros Hrec. revert log n acc.
  induction todo as [|[key agent] rest IH]; intros log n acc; simpl;
    [constructor|].
  destruct (String.eqb key (name msg)) eqn:Hkey; simpl.
  - specialize (IH log n acc).
    destruct (deliver_all uuid8 now msg rest _ _ _) as [[[[rest' l'] m'] rs'] e'].
    constructor; [apply handed_refl|done].
  - apply String.eqb_neq in Hkey.
    assert (handed msg (key, agent)
              (key, (receive agent msg (stamp uuid8 now n)).1)) as Hone.
    { split; [done|]. right. split; [unfold reaches; by rewrite Hrec|].
      by destruct (receive_frame agent msg (stamp uuid8 now n)) as (_ & ? & _). }
    destruct (receive agent msg (stamp uuid8 now n)) as [agent' [[r|]|e]].
    + specialize (IH (log ++ [r]) (S n) (acc ++ [r])).
      destruct (deliver_all uuid8 now msg rest _ _ _) as [[[[rest' l'] m'] rs'] e'].
      by constructor.
    + specialize (IH log (S n) acc).
      destruct (deliver_all uuid8 now msg rest _ _ _) as [[[[rest' l'] m'] rs'] e'].
      by constructor.
    + constructor; [done|].
      apply Forall_Forall2_diag, Forall_forall. intros. apply handed_refl.
Qed.

Lemma send_handed uuid8 now (msg : Msg) (bus : MessageBus) :
  Forall2 (handed msg) (agents bus) (agents (send uuid8 now msg bus).1).
Proof.
  destruct (recipient msg) as [who|] eqn:Hrec.
  - destruct (od_get who (agents bus)) as [agent|] eqn:Hget.
    + rewrite (send_direct _ _ _ _ _ _ Hrec Hget). simpl.
      eapply od_set_Forall2; eauto using handed_refl.
      split; [done|]. right. split; [unfold reaches; by rewrite Hrec|].
      by destruct (receive_frame agent msg (stamp uuid8 now (drawn bus)))
        as (_ & ? & _).
    + rewrite (send_absent _ _ _ _ _ Hrec Hget). simpl.
      apply Forall_Forall2_diag, Forall_forall. intros. apply handed_refl.
  - pose proof (deliver_all_handed uuid8 now msg (agents bus)
                  (if logged msg (messages bus) then messages bus
                   else messages bus ++ [msg]) (drawn bus) [] Hrec) as HF.
    apply recipient_broadcast in Hrec. unfold send. rewrite Hrec.
    by destruct (deliver_all uuid8 now msg (agents bus) _ _ _)
      as [[[[after l'] m'] rs'] e'].
Qed.

(** ** Histories and the log *)

(** One call of [send] for a message that stands in the log, or is put
    there, right after [done]. *)
Lemma send_after uuid8 now (msg : Msg) (bus : MessageBus)
    (done later : list Msg) :
  (if logged msg (messages bus) then messages bus else messages bus ++ [msg])
    = done ++ msg :: later →
  (∀ key agent, (key, agent) ∈ agents bus →
     memory agent `sublist_of` messages bus) →
  (∀ key agent, (key, agent) ∈ agents bus → reaches msg key →
     memory agent `sublist_of` done) →
  ∃ rs,
    messages (send uuid8 now msg bus).1 = done ++ msg :: later ++ rs ∧
    (∀ out, (send uuid8 now msg bus).2 = Ok out → out = rs) ∧
    ∀ key agent, (key, agent) ∈ agents (send uuid8 now msg bus).1 →
      memory agent `sublist_of` messages (send uuid8 now msg bus).1 ∧
      ((∀ key0 agent0, (key0, agent0) ∈ agents bus →
          memory agent0 `sublist_of` done) →
       memory agent `sublist_of` done ++ [msg]).
Proof.
  intros Hlog Hall Hrecv.
  destruct (send_shape uuid8 now msg bus) as (rs & Hmsgs & Hout & _).
  pose proof (send_handed uuid8 now msg bus) as HF.
  rewrite Hlog in Hmsgs. exists rs.
  split; [by rewrite Hmsgs, <-app_assoc|]. split; [done|].
  intros key agent Hin.
  destruct (Forall2_elem_r _ _ _ _ HF Hin) as ([k0 a0] & Hin0 & Hk & Hm).
  simpl in *. subst k0. rewrite Hmsgs.
  destruct Hm as [Hm|[Hreach Hm]]; rewrite Hm.
  - split.
    + apply sublist_inserts_r. rewrite <-Hlog.
      destruct (logged msg (messages bus)); [by eauto|].
      apply sublist_inserts_r. by eauto.
    + intros Hdone. apply sublist_inserts_r. by eauto.
  - assert (memory a0 ++ [msg] `sublist_of` done ++ [msg]) as Hsub.
    { apply sublist_app; [by eauto|done]. }
    split; [|done].
    rewrite <-app_assoc. simpl.
    change (msg :: later ++ rs) with ([msg] ++ (later ++ rs)).
    rewrite app_assoc. by apply sublist_inserts_r.
Qed.

Lemma send_queued uuid8 now (msg : Msg) (bus : MessageBus)
    (done queue : list Msg) :
  queued bus done (msg :: queue) →
  ∃ rs,
    queued (send uuid8 now msg bus).1 (done ++ [msg]) (queue ++ rs) ∧
    ∀ out, (send uuid8 now msg bus).2 = Ok out → out = rs.
Proof.
  intros [Hlog Hmem].
  destruct (send_after uuid8 now msg bus done queue) as (rs & Hmsgs & Hout & Hafter).
  - rewrite logged_elem; [done|]. rewrite Hlog.
    apply elem_of_app. right. by left.
  - intros key agent Hin. rewrite Hlog. apply sublist_inserts_r. by eauto.
  - by eauto.
  - exists rs. split; [|done]. split.
    + by rewrite Hmsgs, <-app_assoc.
    + intros key agent Hin. by apply (Hafter key agent Hin).
Qed.

Lemma queued_skip (msg : Msg) (bus : MessageBus) (done queue : list Msg) :
  queued bus done (msg :: queue) → queued bus (done ++ [msg]) queue.
Proof.
  intros [Hlog Hmem]. split; [by rewrite Hlog, <-app_assoc|].
  intros key agent Hin. apply sublist_inserts_r. by eauto.
Qed.

Lemma send_round_queued uuid8 now (responses : list Msg) :
  ∀ (bus : MessageBus) (done later : list Msg),
    queued bus done (responses ++ later) →
    ∃ done' queue',
      queued (send_round uuid8 now responses bus).1 done' queue' ∧
      ∀ next, (send_round uuid8 now responses bus).2 = Ok next →
        done' = done ++ responses ∧ queue' = later ++ next.
Proof.
  induction responses as [|r rest IH]; intros bus done later Hq; simpl.
  - exists done, later. split; [done|].
    intros next [= <-]. by rewrite !app_nil_r.
  - destruct (truthy (to r)).
    + destruct (send_queued uuid8 now r bus done (rest ++ later) Hq)
        as (rs & Hq1 & Hout).
      destruct (send uuid8 now r bus) as [bus1 [new_responses|e]];
        cbn [fst snd] in *.
      * rewrite (Hout _ eq_refl) in *. rewrite <-app_assoc in Hq1.
        destruct (IH bus1 (done ++ [r]) (later ++ rs) Hq1)
          as (done' & queue' & Hq2 & Hnext).
        destruct (send_round uuid8 now rest bus1) as [bus2 [next|e]];
          cbn [fst snd] in *.
        -- exists done', queue'. split; [done|]. intros ? [= <-].
           destruct (Hnext next eq_refl) as [-> ->].
           by rewrite <-!app_assoc.
        -- by exists done', queue'.
      * by exists (done ++ [r]), ((rest ++ later) ++ rs).
    + apply queued_skip in Hq.
      destruct (IH bus (done ++ [r]) later Hq) as (done' & queue' & Hq2 & Hnext).
      exists done', queue'. split; [done|]. intros next Hr.
      destruct (Hnext next Hr) as [-> ->]. by rewrite <-app_assoc.
Qed.

Lemma drain_queued uuid8 now (fuel : nat) :
  ∀ (responses : list Msg) (bus bus' : MessageBus) (done : list Msg)
    (r : Result ()),
    queued bus done responses →
    drain uuid8 now fuel responses bus = Some (bus', r) →
    ∃ done' queue', queued bus' done' queue'.
Proof.
  induction fuel as [|fuel IH]; intros responses bus bus' done r Hq.
  - destruct responses; simpl; [|done]. intros [= <- <-]. by eauto.
  - destruct responses as [|r0 rest].
    { intros [= <- <-]. by eauto. }
    change (drain uuid8 now (S fuel) (r0 :: rest) bus)
      with (match send_round uuid8 now (r0 :: rest) bus with
            | (bus', Raise e) => Some (bus', Raise e)
            | (bus', Ok next) => drain uuid8 now fuel next bus'
            end).
    rewrite <-(app_nil_r (r0 :: rest)) in Hq.
    destruct (send_round_queued uuid8 now (r0 :: rest) bus done [] Hq)
      as (done' & queue' & Hq1 & Hnext).
    destruct (send_round uuid8 now (r0 :: rest) bus) as [bus1 [next|e]];
      cbn [fst snd] in *.
    + destruct (Hnext next eq_refl) as [-> ->]. simpl in Hq1.
      by apply (IH next bus1 bus' (done ++ r0 :: rest) r).
    + intros [= <- <-]. by eauto.
Qed.

Lemma queued_within (bus : MessageBus) (done queue : list Msg) :
  queued bus done queue →
  ∀ key agent, (key, agent) ∈ agents bus →
    memory agent `sublist_of` messages bus.
Proof.
  intros [Hlog Hmem] key agent Hin. rewrite Hlog.
  apply sublist_inserts_r. by eauto.
Qed.

(** C4 (log containment), amended.  After any sequence of registrations of
    new agents and of calls of [send], every message in the memory of a
    registered agent is in the log, in the sense of [in].  The memory is
    moreover a subsequence of the log, in order, when the caller sends in
    the order of the log: each message is new to the log, or it is a
    logged message that comes after everything its recipients hold.  The
    loop of [run] is such a caller, whatever the agents do: after a run
    that started with memories within the log and with a request that is
    new to the log, every memory is a subsequence of the log, also when
    the run ended with an exception. *)
Theorem history_within_log uuid8 now :
  (∀ bus, reachable uuid8 now fresh_agent any_message bus →
     ∀ key agent msg,
       (key, agent) ∈ agents bus → msg ∈ memory agent →
       logged msg (messages bus) = true) ∧
  (∀ bus, reachable uuid8 now fresh_agent in_order bus →
     ∀ key agent,
       (key, agent) ∈ agents bus → memory agent `sublist_of` messages bus) ∧
  (∀ fuel user_request bus bus' r,
     (∀ key agent, (key, agent) ∈ agents bus →
        memory agent `sublist_of` messages bus) →
     logged (Msg_ (stamp uuid8 now (drawn bus)) "User" "user"
               (Some "Coordinator") (VStr user_request)) (messages bus)
       = false →
     run uuid8 now fuel user_request bus = Some (bus', r) →
     ∀ key agent,
       (key, agent) ∈ agents bus' → memory agent `sublist_of` messages bus').
Proof.
  split; [|split].
  - induction 1 as [|bus agent0 _ IH Hfresh|bus _ IH|bus msg0 _ IH _];
      intros key agent msg Hin Hmem; simpl in *.
    + by apply elem_of_nil in Hin.
    + apply od_set_elem in Hin as [[= -> ->]|Hin]; [|by eauto].
      rewrite Hfresh in Hmem. by apply elem_of_nil in Hmem.
    + by eauto.
    + destruct (send_shape uuid8 now msg0 bus) as (rs & -> & _ & HF).
      destruct (Forall2_elem_r _ _ _ _ HF Hin) as ([k0 a0] & Hin0 & Hk).
      destruct Hk as (Hkey & _ & Hm). simpl in *. subst k0.
      rewrite logged_app. apply orb_true_iff. left.
      assert (msg ∈ memory a0 →
              logged msg (if logged msg0 (messages bus) then messages bus
                          else messages bus ++ [msg0]) = true) as Hold.
      { intros Hmem0. destruct (logged msg0 (messages bus)); [by eauto|].
        rewrite logged_app. apply orb_true_iff. left. by eauto. }
      destruct Hm as [Hm|Hm]; rewrite Hm in Hmem; [by auto|].
      apply elem_of_app in Hmem as [Hmem|Hmem%list_elem_of_singleton];
        [by auto|].
      subst msg. apply sent_is_logged.
  - induction 1 as [|bus agent0 _ IH Hfresh|bus _ IH|bus msg0 _ IH Hsent];
      intros key agent Hin; simpl in *.
    + by apply elem_of_nil in Hin.
    + apply od_set_elem in Hin as [[= -> ->]|Hin]; [|by eauto].
      rewrite Hfresh. apply sublist_nil_l.
    + by eauto.
    + destruct Hsent as [Hnew|(earlier & later & Hlog & Hrecv)].
      * destruct (send_after uuid8 now msg0 bus (messages bus) [])
          as (rs & _ & _ & Hafter); [by rewrite Hnew|done|by eauto|].
        by apply (Hafter key agent Hin).
      * destruct (send_after uuid8 now msg0 bus earlier later)
          as (rs & _ & _ & Hafter); [|done|done|].
        { rewrite logged_elem; [done|]. rewrite Hlog.
          apply elem_of_app. right. by left. }
        by apply (Hafter key agent Hin).
  - intros fuel user_request bus bus' r Hmem Hnew. unfold run, send_new.
    set (msg := Msg_ _ _ _ _ _) in *.
    set (bus0 := MkBus (messages bus) (agents bus) (S (drawn bus))).
    destruct (send_after uuid8 now msg bus0 (messages bus) [])
      as (rs & Hmsgs & Hout & Hafter); [by simpl; rewrite Hnew|done|by eauto|].
    assert (queued (send uuid8 now msg bus0).1 (messages bus ++ [msg]) rs) as Hq.
    { split; [by rewrite Hmsgs, <-app_assoc|].
      intros key agent Hin. by apply (Hafter key agent Hin). }
    destruct (send uuid8 now msg bus0) as [bus1 [responses|e]];
      cbn [fst snd] in *.
    + rewrite (Hout _ eq_refl). intros Hdrain.
      destruct (drain_queued _ _ _ _ _ _ _ _ Hq Hdrain) as (done' & queue' & Hq').
      by eapply queued_within.
    + intros [= <- <-]. by eapply queued_within.
Qed.

Lemma travel_bus_reachable allowed :
  reachable pretty pretty fresh_agent allowed travel_bus.
Proof.
  unfold travel_bus. repeat (apply reach_register; [|reflexivity]).
  apply reach_new.
Qed.

Lemma second_round_in_order :
  reachable pretty pretty fresh_agent in_order second_round.
Proof.
  unfold second_round. apply reach_send.
  - unfold first_round. apply reach_send; [|by left].
    apply (reach_draw _ _ _ _ travel_bus). apply travel_bus_reachable.
  - right. exists [user_msg], []. split; [reflexivity|].
    intros key agent Hin Hreach.
    change (agents first_round)
      with [("Coordinator",
             (receive new_CoordinatorAgent user_msg (stamp pretty pretty 1)).1);
            ("PlaceExpert", new_PlaceExpertAgent);
            ("ScheduleExpert", new_ScheduleExpertAgent)] in Hin.
    repeat (apply elem_of_cons in Hin as [[= -> ->]|Hin]);
      [done|apply sublist_nil_l|apply sublist_nil_l|by apply elem_of_nil in Hin].
Qed.

Lemma history_within_log_witness :
  logged chatter (messages twice_told) = true ∧
  [first_request] `sublist_of` messages second_round ∧
  (∀ bus r, run pretty pretty 5 "부산 1박 2일 여행" travel_bus = Some (bus, r) →
     ∀ key agent, (key, agent) ∈ agents bus →
       memory agent `sublist_of` messages bus).
Proof.
  split; [|split].
  - apply (proj1 (history_within_log pretty pretty) twice_told)
      with (key := "Coordinator")
           (agent := remember chatter (remember chatter new_CoordinatorAgent)).
    + unfold twice_told. apply reach_send; [|exact I].
      apply reach_send; [|exact I]. apply travel_bus_reachable.
    + apply list_elem_of_here.
    + apply list_elem_of_here.
  - apply (proj1 (proj2 (history_within_log pretty pretty)) second_round)
      with (key := "PlaceExpert")
           (agent := remember first_request new_PlaceExpertAgent).
    + apply second_round_in_order.
    + apply list_elem_of_further, list_elem_of_here.
  - intros bus r.
    apply (proj2 (proj2 (history_within_log pretty pretty)) 5
             "부산 1박 2일 여행" travel_bus bus r).
    + intros key agent Hin.
      repeat (apply elem_of_cons in Hin as [[= -> ->]|Hin]);
        [apply sublist_nil_l..|by apply elem_of_nil in Hin].
    + reflexivity.
Defined.

(** C4 as stated: the memory of an agent that was sent one message twice
    holds it twice, the log holds it once. *)
Lemma history_not_subsequence :
  ¬ (∀ bus, reachable pretty pretty fresh_agent any_message bus →
       ∀ key agent,
         (key, agent) ∈ agents bus → memory agent `sublist_of` messages bus).
Proof.
  intros H.
  assert (reachable pretty pretty fresh_agent any_message twice_told) as Hreach.
  { unfold twice_told. apply reach_send; [|exact I].
    apply reach_send; [|exact I]. apply travel_bus_reachable. }
  specialize (H twice_told Hreach "Coordinator"
                (remember chatter (remember chatter new_CoordinatorAgent))).
  apply sublist_length in H; [|apply list_elem_of_here].
  vm_compute in H. lia.
Qed.

(** ** Ids in the log *)

Lemma stamping_process (self : Agent) (msg : Msg) (st : Stamp) self' response :
  stamping (cls self) →
  _process self msg st = (self', Ok (Some response)) →
  id response = st.1.
Proof.
  unfold _process. destruct (cls self) as [| | | |f] eqn:Hc; simpl; intros Hs.
  - done.
  - unfold CoordinatorAgent_process.
    repeat case_match; simpl; try done.
    + by intros [= _ <-].
    + destruct (py_get _ _ _); simpl; [|done]. by intros [= _ <-].
    + destruct (py_get _ _ _); simpl; [|done]. by intros [= _ <-].
  - unfold PlaceExpertAgent_process. case_match; [|done].
    destruct (py_get _ _ _) as [req|]; simpl; [|done].
    destruct (py_get req _ _) as [prefs|]; simpl; [|done].
    destruct (py_contains "조용한 카페" prefs); simpl; [|done].
    destruct (py_contains "전시" prefs); simpl; [|done].
    by intros [= _ <-].
  - unfold ScheduleExpertAgent_process. case_match; [|done].
    destruct (py_get _ _ _) as [places|]; simpl; [|done].
    destruct (py_len places); simpl; [|done].
    by intros [= _ <-].
  - destruct (f _ _ _ _ _) as [s r] eqn:E. intros [= _ ->].
    eapply Hs. by rewrite E.
Qed.

Lemma stamping_receive (self : Agent) (msg : Msg) (st : Stamp) self' response :
  stamping (cls self) →
  receive self msg st = (self', Ok (Some response)) →
  id response = st.1.
Proof. intros Hs. unfold receive. by apply stamping_process. Qed.

Section ids.
Variable uuid8 : nat → string.
Variable now : nat → string.
Hypothesis uuid8_inj : Inj (=) (=) uuid8.

Lemma well_stamped_mono (log : list Msg) (n n' : nat) :
  well_stamped uuid8 log n → (n ≤ n')%nat → well_stamped uuid8 log n'.
Proof.
  intros [Hnd HF] Hle. split; [done|].
  eapply Forall_impl; [exact HF|]. intros m (k & Hk & Hid).
  exists k. split; [lia|done].
Qed.

Lemma well_stamped_snoc log n r :
  well_stamped uuid8 log n → id r = uuid8 n → well_stamped uuid8 (log ++ [r]) (S n).
Proof.
  intros [Hnd HF] Hid. split.
  - rewrite fmap_app. apply NoDup_app. split; [done|]. split.
    + intros x Hx Hx'. apply list_elem_of_singleton in Hx'. subst x.
      apply list_elem_of_fmap in Hx as (m & Hm & Hin).
      rewrite Forall_forall in HF. destruct (HF m Hin) as (k & Hk & Hmk).
      rewrite Hid, Hmk in Hm. apply uuid8_inj in Hm. lia.
    + apply NoDup_singleton.
  - apply Forall_app. split.
    + eapply Forall_impl; [exact HF|]. intros m (k & Hk & Hmk).
      exists k. split; [lia|done].
    + constructor; [|done]. exists n. split; [lia|done].
Qed.

Lemma deliver_all_stamped (msg : Msg) (todo : list (string * Agent))
    (log : list Msg) (n : nat) (acc : list Msg) after log' n' acc' e :
  all_stamping todo → well_stamped uuid8 log n →
  deliver_all uuid8 now msg todo log n acc = (after, log', n', acc', e) →
  well_stamped uuid8 log' n' ∧ all_stamping after.
Proof.
  revert log n acc after log' n' acc' e.
  induction todo as [|[key agent] rest IH];
    intros log n acc after log' n' acc' e Hst Hws; simpl.
  - by intros [= <- <- <- <- <-].
  - apply Forall_cons in Hst as [Hs Hst]. simpl in Hs.
    destruct (negb (String.eqb key (name msg))).
    + pose proof (receive_frame agent msg (stamp uuid8 now n)) as (_ & _ & Hc).
      pose proof (stamping_receive agent msg (stamp uuid8 now n)) as Hid.
      destruct (receive agent msg (stamp uuid8 now n)) as [agent' [[r|]|ex]];
        simpl in Hc.
      * destruct (deliver_all uuid8 now msg rest (log ++ [r]) (S n) (acc ++ [r]))
          as [[[[rest' l'] m'] rs'] e'] eqn:E.
        intros [= <- <- <- <- <-].
        apply IH in E as [Hws' Hst']; [|done|].
        -- split; [done|]. constructor; [|done]. simpl. by rewrite Hc.
        -- apply well_stamped_snoc; [done|]. by apply (Hid agent' r).
      * destruct (deliver_all uuid8 now msg rest log (S n) acc)
          as [[[[rest' l'] m'] rs'] e'] eqn:E.
        intros [= <- <- <- <- <-].
        apply IH in E as [Hws' Hst']; [|done|].
        -- split; [done|]. constructor; [|done]. simpl. by rewrite Hc.
        -- eapply well_stamped_mono; [done|lia].
      * intros [= <- <- <- <- <-]. split.
        -- eapply well_stamped_mono; [done|lia].
        -- constructor; [|done]. simpl. by rewrite Hc.
    + destruct (deliver_all uuid8 now msg rest log n acc)
        as [[[[rest' l'] m'] rs'] e'] eqn:E.
      intros [= <- <- <- <- <-].
      apply IH in E as [Hws' Hst']; [|done|done].
      split; [done|]. by constructor.
Qed.

Lemma od_set_Forall {V : Type} (P : string * V → Prop) (k : string) (v : V)
    (d : list (string * V)) :
  Forall P d → P (k, v) → Forall P (od_set k v d).
Proof.
  intros HF HP. apply Forall_forall. intros kv Hin.
  apply od_set_elem in Hin as [->|Hin]; [done|].
  rewrite Forall_forall in HF. by apply HF.
Qed.

Lemma send_stamped (msg : Msg) (bus : MessageBus) :
  all_stamping (agents bus) →
  well_stamped uuid8 (messages bus) (drawn bus) →
  constructed_or_logged uuid8 bus msg →
  well_stamped uuid8 (messages (send uuid8 now msg bus).1)
               (drawn (send uuid8 now msg bus).1) ∧
  all_stamping (agents (send uuid8 now msg bus).1).
Proof.
  intros Hst Hws Hmsg.
  assert (well_stamped uuid8 (if logged msg (messages bus) then messages bus
                        else messages bus ++ [msg]) (drawn bus)) as Hws0.
  { destruct (logged msg (messages bus)) eqn:Hin; [done|].
    destruct Hmsg as [?|(Hnew & k & Hk & Hid)]; [congruence|].
    destruct Hws as [Hnd HF]. split.
    - rewrite fmap_app. apply NoDup_app. split; [done|]. split.
      + intros x Hx Hx'. apply list_elem_of_singleton in Hx'. by subst x.
      + apply NoDup_singleton.
    - apply Forall_app. split; [done|]. constructor; [|done]. eauto. }
  destruct (recipient msg) as [who|] eqn:Hrec.
  - destruct (od_get who (agents bus)) as [agent|] eqn:Hget.
    + rewrite (send_direct _ _ _ _ _ _ Hrec Hget). simpl.
      assert (stamping (cls agent)) as Hs.
      { apply od_get_Some_elem in Hget. unfold all_stamping in Hst.
        rewrite Forall_forall in Hst. by apply (Hst (who, agent)). }
      pose proof (receive_frame agent msg (stamp uuid8 now (drawn bus)))
        as (_ & _ & Hc).
      pose proof (stamping_receive agent msg (stamp uuid8 now (drawn bus))) as Hid.
      destruct (receive agent msg _) as [agent' [[r|]|ex]]; simpl in *.
      * split.
        -- apply well_stamped_snoc; [done|]. by apply (Hid agent' r).
        -- apply od_set_Forall; [done|]. simpl. by rewrite Hc.
      * rewrite app_nil_r. split.
        -- eapply well_stamped_mono; [done|lia].
        -- apply od_set_Forall; [done|]. simpl. by rewrite Hc.
      * rewrite app_nil_r. split.
        -- eapply well_stamped_mono; [done|lia].
        -- apply od_set_Forall; [done|]. simpl. by rewrite Hc.
    + rewrite (send_absent _ _ _ _ _ Hrec Hget). simpl. done.
  - apply recipient_broadcast in Hrec. unfold send. rewrite Hrec.
    destruct (deliver_all uuid8 now msg (agents bus) _ (drawn bus) [])
      as [[[[after l'] m'] rs'] e'] eqn:E.
    apply deliver_all_stamped in E; [|done|done]. simpl. done.
Qed.

Lemma reachable_stamped (bus : MessageBus) :
  reachable uuid8 now (λ agent, stamping (cls agent))
    (constructed_or_logged uuid8) bus →
  well_stamped uuid8 (messages bus) (drawn bus) ∧ all_stamping (agents bus).
Proof.
  induction 1 as [|bus agent _ [IHw IHs] Hadm|bus _ [IHw IHs]
                  |bus msg _ [IHw IHs] Hok]; simpl.
  - split; [|constructor]. split; [constructor|constructor].
  - split; [done|]. by apply od_set_Forall.
  - split; [|done]. eapply well_stamped_mono; [done|lia].
  - by apply send_stamped.
Qed.
End ids.

(** C3 (the log), amended.  A call of [send] only appends to the log: the
    message itself unless the log holds a message that is equal to it
    ([==] on all six fields), then the responses, which are also what the
    call returns.  When the ids that are drawn never repeat, every
    response is a message constructed during the call, and the caller
    sends only messages that are in the log or that it has constructed and
    whose id is not in the log, then no two entries of the log share an
    id. *)
Theorem log_append_only_ids_unique uuid8 now :
  (∀ msg bus, ∃ rs,
     messages (send uuid8 now msg bus).1 =
       (if logged msg (messages bus) then messages bus
        else messages bus ++ [msg]) ++ rs ∧
     ∀ out, (send uuid8 now msg bus).2 = Ok out → out = rs) ∧
  (Inj (=) (=) uuid8 →
   ∀ bus,
     reachable uuid8 now (λ agent, stamping (cls agent))
       (constructed_or_logged uuid8) bus →
     NoDup (id <$> messages bus)).
Proof.
  split.
  - intros msg bus. destruct (send_shape uuid8 now msg bus) as (rs & H1 & H2 & _).
    by exists rs.
  - intros Hinj bus Hreach.
    by destruct (reachable_stamped uuid8 now Hinj bus Hreach) as [[? _] _].
Qed.

Lemma log_append_only_ids_unique_witness :
  NoDup (id <$> messages first_round) ∧ length (messages first_round) = 2.
Proof.
  split; [|reflexivity].
  apply (proj2 (log_append_only_ids_unique pretty pretty) pretty_nat_inj).
  unfold first_round. apply reach_send.
  - apply (reach_draw _ _ _ _ travel_bus).
    unfold travel_bus. repeat (apply reach_register; [|exact I]).
    apply reach_new.
  - right. split.
    + simpl. apply not_elem_of_nil.
    + exists 0. split; [simpl; lia|reflexivity].
Defined.

(** The test of [send] is [==]: a message whose payload has the same items
    in another order is equal to the logged one and is not appended. *)
Example reordered_payload_logged_once :
  booking ≠ booking_reordered ∧
  messages (send pretty pretty booking_reordered
              (send pretty pretty booking travel_bus).1).1
    = [booking].
Proof. split; [discriminate|reflexivity]. Qed.

(** C3 as stated: [send] compares whole messages, so two messages that
    share an id and differ elsewhere are both appended. *)
Lemma same_id_logged_twice :
  id first_draft = id lost_letter ∧
  messages (send pretty pretty first_draft
              (send pretty pretty lost_letter travel_bus).1).1
    = [lost_letter; first_draft] ∧
  ¬ (∀ bus,
       reachable pretty pretty (λ _, True) any_message bus →
       NoDup (id <$> messages bus)).
Proof.
  split; [reflexivity|]. split; [reflexivity|].
  intros H.
  specialize (H (send pretty pretty first_draft
                   (send pretty pretty lost_letter travel_bus).1).1).
  assert (¬ NoDup (id <$> [lost_letter; first_draft])) as Hdup.
  { intros Hnd. apply NoDup_cons in Hnd as [Hnot _]. apply Hnot. by left. }
  apply Hdup. apply H.
  apply reach_send; [|exact I]. apply reach_send; [|exact I].
  unfold travel_bus. repeat (apply reach_register; [|exact I]).
  apply reach_new.
Qed.



(** ** The run of the sample *)

(** [TravelPlanningSystem.run] on the bus of the sample: the six messages
    of the documented flow, by sender and recipient, and what the agents
    have received. *)
Example sample_flow :
  let '(bus, r) := send_new pretty pretty "User" "user" (Some "Coordinator")
                     (VStr "부산 1박 2일 여행") travel_bus in
  match r with
  | Ok responses =>
      match drain pretty pretty 8 responses bus with
      | Some (bus, Ok _) =>
          (λ m, (name m, to m)) <$> messages bus
            = [ ("User", Some "Coordinator");
                ("Coordinator", Some "PlaceExpert");
                ("PlaceExpert", Some "Coordinator");
                ("Coordinator", Some "ScheduleExpert");
                ("ScheduleExpert", Some "Coordinator");
                ("Coordinator", None) ] ∧
          (λ ka, (ka.1, state ka.2, id <$> memory ka.2)) <$> agents bus
            = [ ("Coordinator", "finalizing", ["0"; "2"; "4"]);
                ("PlaceExpert", "", ["1"]);
                ("ScheduleExpert", "", ["3"]) ]
      | _ => False
      end
  | Raise _ => False
  end.
Proof. vm_compute. done. Qed.

End BusProps.

(** * Properties of the graph engine *)

Module GraphProps.
Import Graph.

(** ** One turn *)

Lemma loop_unfold (g : MockCompiledGraph) (fuel : nat) (name : string)
    (state : loc) (h : Store) :
  name ≠ "" →
  loop g (S fuel) (Some name) state h =
    match turn g name state h with
    | (h, Raise e) => (h, [name], Some (Raise e))
    | (h, Ok next) =>
        let '(h, visited, r) := loop g fuel next state h in
        (h, name :: visited, r)
    end.
Proof.
  intros Hne. simpl.
  assert (String.eqb name "" = false) as -> by by apply String.eqb_neq.
  done.
Qed.

Lemma loop_stops (g : MockCompiledGraph) (fuel : nat) (next : option string)
    (state : loc) (h : Store) :
  truthy next = false → loop g fuel next state h = (h, [], Some (Ok ())).
Proof. intros H. destruct fuel; simpl; by rewrite H. Qed.

Lemma turn_conditional (g : MockCompiledGraph) (name : string) (state : loc)
    (h h1 h2 : Store) router_func route_map (label : string) :
  run_node g name state h = (h1, Ok ()) →
  conditional_edges g !! name = Some (router_func, route_map) →
  router_func h1 state = (h2, Ok label) →
  turn g name state h = (h2, Ok (route_get route_map label)).
Proof.
  intros Hrun Hcond Hroute. unfold turn, next_node.
  by rewrite Hrun, Hcond, Hroute.
Qed.

(** C7 (conditional precedence).  At a node that is not the empty name,
    whose node function does not raise, with a conditional entry whose
    routing function returns a label that the table maps to [Y], and with a
    fixed edge to [X] as well: the turn yields [Y] as next node, and when
    [Y] is a name the loop goes through [Y] right after the node. *)
Theorem conditional_edge_wins (g : MockCompiledGraph) (current_node : string)
    (state : loc) (h h1 h2 : Store) router_func route_map
    (label : string) (X : option string) (Y : string) (fuel : nat) :
  current_node ≠ "" →
  run_node g current_node state h = (h1, Ok ()) →
  conditional_edges g !! current_node = Some (router_func, route_map) →
  router_func h1 state = (h2, Ok label) →
  route_map !! label = Some (Some Y) →
  edges g !! current_node = Some X →
  turn g current_node state h = (h2, Ok (Some Y)) ∧
  (Y ≠ "" →
   ∃ rest, (loop g (S (S fuel)) (Some current_node) state h).1.2
             = current_node :: Y :: rest).
Proof.
  intros Hne Hrun Hcond Hroute Hmap _.
  assert (turn g current_node state h = (h2, Ok (Some Y))) as Hturn.
  { rewrite (turn_conditional _ _ _ _ _ _ _ _ _ Hrun Hcond Hroute).
    unfold route_get. by rewrite Hmap. }
  split; [done|]. intros HY.
  rewrite (loop_unfold _ _ _ _ _ Hne), Hturn.
  rewrite (loop_unfold _ _ _ _ _ HY).
  destruct (turn g Y state h2) as [h3 [next|e]].
  - destruct (loop g fuel next state h3) as [[h4 visited] r].
    by exists visited.
  - by exists [].
Qed.

(** C1 (unmapped label), amended.  When the routing function returns a
    label that the table does not hold, [route_map.get] yields [None]: the
    loop ends after this node, without raising, and the mapping stays as
    the node left it. *)
Theorem unmapped_label_ends_run (g : MockCompiledGraph) (current_node : string)
    (state : loc) (h h1 h2 : Store) router_func route_map
    (label : string) (fuel : nat) :
  current_node ≠ "" →
  run_node g current_node state h = (h1, Ok ()) →
  conditional_edges g !! current_node = Some (router_func, route_map) →
  router_func h1 state = (h2, Ok label) →
  route_map !! label = None →
  loop g (S fuel) (Some current_node) state h
    = (h2, [current_node], Some (Ok ())).
Proof.
  intros Hne Hrun Hcond Hroute Hmap.
  rewrite (loop_unfold _ _ _ _ _ Hne).
  rewrite (turn_conditional _ _ _ _ _ _ _ _ _ Hrun Hcond Hroute).
  unfold route_get. rewrite Hmap. by rewrite loop_stops.
Qed.

Lemma conditional_edge_wins_witness :
  (loop branching 2 (Some "analyze_preferences") 0 request_store).1.2
    = ["analyze_preferences"; "select_places_minimize"].
Proof.
  destruct (conditional_edge_wins branching "analyze_preferences" 0
              request_store
              (run_node branching "analyze_preferences" 0 request_store).1
              (run_node branching "analyze_preferences" 0 request_store).1
              route_by_priority route_table "minimize"
              (Some "select_places_variety") "select_places_minimize" 0)
    as [_ Hloop].
  - done.
  - vm_compute. reflexivity.
  - reflexivity.
  - vm_compute. reflexivity.
  - reflexivity.
  - reflexivity.
  - destruct Hloop as [rest Hrest]; [done|].
    vm_compute. reflexivity.
Defined.

Lemma unmapped_label_ends_run_witness :
  (loop one_way 1 (Some "analyze_preferences") 5 request_store).1.2
    = ["analyze_preferences"] ∧
  (loop one_way 1 (Some "analyze_preferences") 5 request_store).2
    = Some (Ok ()).
Proof.
  rewrite (unmapped_label_ends_run one_way "analyze_preferences" 5
             request_store
             (run_node one_way "analyze_preferences" 5 request_store).1
             (run_node one_way "analyze_preferences" 5 request_store).1
             route_by_priority
             (<["minimize" := Some "select_places_minimize"]> ∅)
             "variety" 0).
  - done.
  - done.
  - vm_compute. reflexivity.
  - reflexivity.
  - vm_compute. reflexivity.
  - reflexivity.
Defined.

(** C1 as stated: [invoke] returns where the claim has it raise. *)
Lemma unmapped_label_does_not_raise :
  (∃ state, (invoke one_way 3 5 request_store).2 = Some (Ok state)) ∧
  ¬ (∀ g current_node state h h1 h2 router_func route_map (label : string) fuel,
       current_node ≠ "" →
       run_node g current_node state h = (h1, Ok ()) →
       conditional_edges g !! current_node = Some (router_func, route_map) →
       router_func h1 state = (h2, Ok label) →
       route_map !! label = None →
       ∃ e, (loop g (S fuel) (Some current_node) state h).2 = Some (Raise e)).
Proof.
  split.
  - eexists. vm_compute. reflexivity.
  - intros H.
    destruct (H one_way "analyze_preferences" 5 request_store
                (run_node one_way "analyze_preferences" 5 request_store).1
                (run_node one_way "analyze_preferences" 5 request_store).1
                route_by_priority
                (<["minimize" := Some "select_places_minimize"]> ∅)
                "variety" 0) as [e He].
    + done.
    + vm_compute. reflexivity.
    + reflexivity.
    + vm_compute. reflexivity.
    + reflexivity.
    + vm_compute in He. discriminate He.
Qed.

(** ** Termination on acyclic tables *)

Lemma turn_edge (g : MockCompiledGraph) (name : string) (state : loc)
    (h h' : Store) (b : string) :
  turn g name state h = (h', Ok (Some b)) → edge g name b.
Proof.
  unfold turn, next_node.
  destruct (run_node g name state h) as [h1 [[]|e]]; [|done].
  destruct (conditional_edges g !! name) as [[router_func route_map]|] eqn:Hc.
  - destruct (router_func h1 state) as [h2 [label|e]]; [|done].
    intros [= _ Hget]. right. exists router_func, route_map, label.
    split; [done|]. unfold route_get in Hget.
    destruct (route_map !! label) as [o|]; [|done]. by subst o.
  - destruct (edges g !! name) as [o|] eqn:He; [|done].
    intros [= _ ->]. by left.
Qed.

Lemma truthy_name (next : option string) :
  truthy next = true → ∃ name, next = Some name ∧ name ≠ "".
Proof.
  destruct next as [s|]; [|done]. simpl.
  intros H. exists s. split; [done|].
  intros ->. by rewrite String.eqb_refl in H.
Qed.

Lemma seen_one_more (N V : gset string) (name : string) :
  name ∈ N → name ∉ V → (size (N ∖ (V ∪ {[name]})) < size (N ∖ V))%nat.
Proof.
  intros HN HV. apply subset_size. split.
  - intros x. rewrite !elem_of_difference, elem_of_union. tauto.
  - intros Hsub. specialize (Hsub name).
    rewrite !elem_of_difference, elem_of_union, elem_of_singleton in Hsub.
    tauto.
Qed.

(** The loop from a name that every name seen so far leads to, on tables
    whose names lie in [N]. *)
Lemma loop_terminates (g : MockCompiledGraph) (state : loc) (fuel : nat)
    (N : gset string) :
  acyclic g →
  (∀ a b, edge g a b → truthy (Some b) = true → b ∈ N) →
  ∀ (next : option string) (h : Store) (V : gset string),
    (∀ name, next = Some name → name ≠ "" → name ∈ N) →
    (∀ name v, next = Some name → v ∈ V → tc (edge g) v name) →
    (size (N ∖ V) < fuel)%nat →
    let out := loop g fuel next state h in
    is_Some out.2 ∧
    (length out.1.2 ≤ size (N ∖ V))%nat ∧
    NoDup out.1.2 ∧
    (∀ v, v ∈ out.1.2 → v ∉ V).
Proof.
  intros Hacyc Hclosed. induction fuel as [|fuel IH];
    intros next h V Hnext Hpath Hsize; [lia|].
  destruct (truthy next) eqn:Ht.
  - apply truthy_name in Ht as (name & -> & Hne).
    assert (name ∈ N) as HN by eauto.
    assert (name ∉ V) as HV.
    { intros Hin. apply (Hacyc name). by apply (Hpath name name). }
    pose proof (seen_one_more _ _ _ HN HV) as Hless.
    rewrite (loop_unfold _ _ _ _ _ Hne).
    pose proof (turn_edge g name state h) as Hedge.
    destruct (turn g name state h) as [h1 [next|e]]; simpl in *.
    + destruct (IH next h1 (V ∪ {[name]})) as (Hs & Hlen & Hnd & Hnew).
      * intros b -> Hb. apply (Hclosed name b); [by eapply Hedge|].
        simpl. by apply negb_true_iff, String.eqb_neq.
      * intros b v -> [Hv| ->%elem_of_singleton]%elem_of_union.
        -- eapply tc_r; [by eapply Hpath|by eapply Hedge].
        -- apply tc_once. by eapply Hedge.
      * lia.
      * destruct (loop g fuel next state h1) as [[h2 visited] r]; simpl in *.
        split; [done|]. split; [lia|]. split.
        -- constructor; [|done]. intros Hin. apply Hnew in Hin.
           apply Hin, elem_of_union. right. by apply elem_of_singleton.
        -- intros v [->|Hin]%elem_of_cons; [done|].
           apply Hnew in Hin. intros Hv. apply Hin, elem_of_union. by left.
    + split; [done|]. split; [lia|]. split; [apply NoDup_singleton|].
      by intros v ->%list_elem_of_singleton.
  - rewrite loop_stops by done. simpl.
    split; [done|]. split; [lia|]. split; [constructor|].
    by intros v ?%elem_of_nil.
Qed.

(** Once the loop has ended, more fuel changes nothing. *)
Lemma loop_more_fuel (g : MockCompiledGraph) (state : loc) (fuel : nat) :
  ∀ (next : option string) (h : Store),
    is_Some (loop g fuel next state h).2 →
    loop g (S fuel) next state h = loop g fuel next state h.
Proof.
  induction fuel as [|fuel IH]; intros next h Hend.
  - destruct (truthy next) eqn:Ht.
    + simpl in Hend. rewrite Ht in Hend. by destruct Hend.
    + by rewrite !loop_stops.
  - destruct (truthy next) eqn:Ht; [|by rewrite !loop_stops].
    apply truthy_name in Ht as (name & -> & Hne).
    rewrite (loop_unfold g (S fuel) name state h Hne).
    rewrite (loop_unfold g fuel name state h Hne) in Hend |- *.
    destruct (turn g name state h) as [h1 [next|e]]; [|done].
    rewrite IH; [done|].
    by destruct (loop g fuel next state h1) as [[h2 visited] r].
Qed.

Lemma loop_enough_fuel (g : MockCompiledGraph) (state : loc) (fuel more : nat)
    (next : option string) (h : Store) :
  is_Some (loop g fuel next state h).2 →
  loop g (fuel + more) next state h = loop g fuel next state h.
Proof.
  intros Hend. induction more as [|more IH].
  - by rewrite Nat.add_0_r.
  - rewrite Nat.add_succ_r, loop_more_fuel; [done|]. by rewrite IH.
Qed.

Lemma invoke_on_mapping (g : MockCompiledGraph) (fuel : nat)
    (initial_state : loc) (h : Store) (fields : gmap string Val) :
  h !! initial_state = Some (ODict fields) →
  let state := fresh (dom h) in
  let out := loop g fuel (entry_point g) state (<[state := ODict fields]> h) in
  invoke g fuel initial_state h =
    (out.1.1, out.1.2,
     match out.2 with
     | Some (Ok _) => Some (Ok state)
     | Some (Raise e) => Some (Raise e)
     | None => None
     end).
Proof.
  intros Hdict. unfold invoke, alloc. rewrite Hdict. cbv zeta.
  by destruct (loop g fuel (entry_point g) _ _) as [[h' visited] r].
Qed.

(** The names that the loop goes through satisfy every property that the
    first of them has and that the listed successors inherit. *)
Lemma loop_names (g : MockCompiledGraph) (state : loc) (P : string → Prop)
    (fuel : nat) :
  (∀ a b, P a → edge g a b → truthy (Some b) = true → P b) →
  ∀ (next : option string) (h : Store),
    (∀ name, next = Some name → name ≠ "" → P name) →
    ∀ v, v ∈ (loop g fuel next state h).1.2 → P v.
Proof.
  intros Hstep. induction fuel as [|fuel IH]; intros next h Hnext v.
  - simpl. destruct (truthy next); by intros ?%elem_of_nil.
  - destruct (truthy next) eqn:Ht;
      [|rewrite loop_stops by done; by intros ?%elem_of_nil].
    apply truthy_name in Ht as (name & -> & Hne).
    rewrite (loop_unfold _ _ _ _ _ Hne).
    pose proof (turn_edge g name state h) as Hedge.
    destruct (turn g name state h) as [h1 [next|e]]; simpl.
    + specialize (IH next h1).
      destruct (loop g fuel next state h1) as [[h2 visited] r]; simpl in *.
      intros [->|Hin]%elem_of_cons; [by eauto|].
      apply IH; [|done]. intros b -> Hb.
      apply (Hstep name b); [by eauto|by eapply Hedge|].
      simpl. by apply negb_true_iff, String.eqb_neq.
    + intros ->%list_elem_of_singleton. by eauto.
Qed.

(** What the loop with fuel computes is a run of the [while] loop. *)
Lemma loop_while (g : MockCompiledGraph) (state : loc) (fuel : nat) :
  ∀ (next : option string) (h h' : Store) (visited : list string)
    (r : Result ()),
    loop g fuel next state h = (h', visited, Some r) →
    while g state next h h' visited r.
Proof.
  induction fuel as [|fuel IH]; intros next h h' visited r.
  - simpl. destruct (truthy next) eqn:Ht; [done|].
    intros [= <- <- <-]. by constructor.
  - destruct (truthy next) eqn:Ht.
    + apply truthy_name in Ht as (name & -> & Hne).
      rewrite (loop_unfold _ _ _ _ _ Hne).
      destruct (turn g name state h) as [h1 [next|e]] eqn:Hturn.
      * destruct (loop g fuel next state h1) as [[h2 rest] r'] eqn:Hloop.
        intros [= <- <- ->]. eapply while_turn; [done|done|]. by apply IH.
      * intros [= <- <- <-]. by constructor.
    + rewrite loop_stops by done. intros [= <- <- <-]. by constructor.
Qed.

(** How a run of the loop ends. *)
Lemma while_last (g : MockCompiledGraph) (state : loc)
    (current_node : option string) (h h' : Store) (visited : list string)
    (r : Result ()) :
  while g state current_node h h' visited r →
  match r with
  | Ok _ =>
      (visited = [] ∧ h' = h ∧ truthy current_node = false) ∨
      ∃ before last h0 next,
        visited = before ++ [last] ∧
        turn g last state h0 = (h', Ok next) ∧ truthy next = false
  | Raise e =>
      ∃ before last h0,
        visited = before ++ [last] ∧ turn g last state h0 = (h', Raise e)
  end.
Proof.
  induction 1 as [current h Ht|name h h1 e Hne Hturn
                  |name h h1 next h2 visited r Hne Hturn Hrest IH].
  - by left.
  - by exists [], name, h.
  - destruct r as [[]|e].
    + right. destruct IH as [(-> & -> & Ht)|(before & last & h0 & nx & -> & Hl & Ht)].
      * by exists [], name, h, next.
      * by exists (name :: before), last, h0, nx.
    + destruct IH as (before & last & h0 & -> & Hl).
      by exists (name :: before), last, h0.
Qed.

Lemma listed_elem (table : gmap string (option string)) (a b : string) :
  table !! a = Some (Some b) → b ∈ listed table.
Proof.
  intros Hab. unfold listed. apply elem_of_list_to_set, list_elem_of_omap.
  exists (Some b). split; [|done].
  apply list_elem_of_fmap. exists (a, Some b). split; [done|].
  by apply elem_of_map_to_list.
Qed.

Lemma edge_names (g : MockCompiledGraph) (a b : string) :
  edge g a b → b ∈ names g.
Proof.
  unfold names.
  intros [He|(router_func & route_map & label & Hc & Hl)].
  - apply elem_of_union. left. apply elem_of_union. right.
    by eapply listed_elem.
  - apply elem_of_union. right. apply elem_of_union_list.
    exists (listed route_map). split; [|by eapply listed_elem].
    apply list_elem_of_fmap. exists (a, (router_func, route_map)).
    split; [done|]. by apply elem_of_map_to_list.
Qed.

Lemma entry_names (g : MockCompiledGraph) (name : string) :
  entry_point g = Some name → name ∈ names g.
Proof.
  intros He. unfold names. rewrite He.
  apply elem_of_union. left. apply elem_of_union. left.
  apply elem_of_list_to_set. simpl. by left.
Qed.

Lemma NoDup_within (l : list string) (X : gset string) :
  NoDup l → (∀ x, x ∈ l → x ∈ X) → (length l ≤ size X)%nat.
Proof.
  intros Hnd Hsub.
  rewrite <-(size_list_to_set (C := gset string) l Hnd).
  apply subseteq_size. intros x Hx. apply Hsub.
  by apply elem_of_list_to_set in Hx.
Qed.

(** C8 (graph termination), amended.  On tables without a cycle, [invoke]
    on a mapping ends: the [while] loop has a run from the entry point,
    and [invoke] computes it with fuel for one test of the loop condition
    more than the tables mention names, and with any more.  The run goes
    through no name twice and through at most as many names as the tables
    mention, which is at most [|nodes|] when the entry point and the
    listed successors all name registered nodes.  It ends in one of two
    ways: the turn at the last name yields no successor, and [invoke]
    returns the working mapping as that turn left it; or the node
    function or the routing function of the last name raises, and
    [invoke] ends with that exception. *)
Theorem acyclic_run_terminates (g : MockCompiledGraph) (initial_state : loc)
    (h : Store) (fields : gmap string Val) :
  acyclic g →
  h !! initial_state = Some (ODict fields) →
  let state := fresh (dom h) in
  ∃ h' visited r,
    while g state (entry_point g) (<[state := ODict fields]> h) h' visited r ∧
    (∀ more,
       invoke g (S (size (names g)) + more) initial_state h
       = (h', visited,
          Some match r with Ok _ => Ok state | Raise e => Raise e end)) ∧
    NoDup visited ∧
    (length visited ≤ size (names g))%nat ∧
    (well_wired g → (length visited ≤ size (nodes g))%nat) ∧
    match r with
    | Ok _ =>
        (visited = [] ∧ truthy (entry_point g) = false) ∨
        ∃ before last h0 next,
          visited = before ++ [last] ∧
          turn g last state h0 = (h', Ok next) ∧ truthy next = false
    | Raise e =>
        ∃ before last h0,
          visited = before ++ [last] ∧ turn g last state h0 = (h', Raise e)
    end.
Proof.
  intros Hacyc Hdict. cbv zeta.
  set (state := fresh (dom h)). set (h0 := <[state := ODict fields]> h).
  destruct (loop_terminates g state (S (size (names g))) (names g) Hacyc
              (λ a b Hab _, edge_names g a b Hab) (entry_point g) h0 ∅)
    as (Hs & Hlen & Hnd & _).
  { intros name Hname _. by apply entry_names. }
  { intros name v _ Hv. by apply elem_of_empty in Hv. }
  { rewrite difference_empty_L. lia. }
  rewrite difference_empty_L in Hlen.
  pose proof (loop_names g state (λ v, is_Some (nodes g !! v))
                (S (size (names g)))) as Hreg.
  assert (∀ more, loop g (S (size (names g)) + more) (entry_point g) state h0
                  = loop g (S (size (names g))) (entry_point g) state h0)
    as Hmore by (intros more; by apply loop_enough_fuel).
  destruct (loop g (S (size (names g))) (entry_point g) state h0)
    as [[h' visited] [r|]] eqn:Hloop; cbn [fst snd] in *;
    [|by destruct Hs].
  pose proof (loop_while _ _ _ _ _ _ _ _ Hloop) as Hrun.
  exists h', visited, r. split; [done|]. split; [|split; [done|split; [done|split]]].
  - intros more. rewrite (invoke_on_mapping _ _ _ _ _ Hdict). cbv zeta.
    fold state h0. rewrite Hmore. cbn [fst snd]. by destruct r as [[]|e].
  - intros [Hentry Hwired].
    rewrite <-size_dom. apply NoDup_within; [done|].
    intros v Hv. apply elem_of_dom. apply (Hreg (λ a b _, Hwired a b) (entry_point g) h0).
    + intros name Hname Hne. rewrite Hname in Hentry. apply Hentry.
      simpl. by apply negb_true_iff, String.eqb_neq.
    + by rewrite Hloop.
  - pose proof (while_last _ _ _ _ _ _ _ Hrun) as Hlast.
    destruct r as [[]|e]; [|done].
    destruct Hlast as [(-> & _ & Ht)|Hlast]; [by left|by right].
Qed.

(** ** The tables of the sample *)

Lemma acyclic_by_rank (g : MockCompiledGraph) (rank : string → nat) :
  (∀ a b, edge g a b → (rank a < rank b)%nat) → acyclic g.
Proof.
  intros Hrank a Hcycle.
  assert (∀ x y, tc (edge g) x y → (rank x < rank y)%nat) as Htc.
  { induction 1 as [x y Hxy|x y z Hxy _ IH]; [by apply Hrank|].
    specialize (Hrank x y Hxy). lia. }
  specialize (Htc a a Hcycle). lia.
Qed.

Ltac unravel H :=
  repeat (apply lookup_insert_Some in H as [[<- H]|[_ H]]);
  try (by rewrite lookup_empty in H).

Lemma travel_edges (n1 n2 n3 n4 n5 n6 : Node) (a b : string) :
  edge (build_travel_graph n1 n2 n3 n4 n5 n6) a b →
  (a, b) ∈ [ ("parse_request", "analyze_preferences");
             ("select_places_minimize", "generate_schedule");
             ("select_places_variety", "generate_schedule");
             ("generate_schedule", "format_output");
             ("analyze_preferences", "select_places_minimize");
             ("analyze_preferences", "select_places_variety") ].
Proof.
  intros [He|(router_func & route_map & label & Hc & Hl)]; simpl in *.
  - unravel He; try discriminate He; injection He as <-;
      repeat first [apply list_elem_of_here | apply list_elem_of_further].
  - unravel Hc. injection Hc as _ <-.
    unravel Hl; injection Hl as <-;
      repeat first [apply list_elem_of_here | apply list_elem_of_further].
Qed.

Lemma travel_graph_acyclic (n1 n2 n3 n4 n5 n6 : Node) :
  acyclic (build_travel_graph n1 n2 n3 n4 n5 n6).
Proof.
  apply (acyclic_by_rank _ travel_rank). intros a b Hab%travel_edges.
  repeat (apply elem_of_cons in Hab as [[= -> ->]|Hab];
          [vm_compute; lia|]).
  by apply elem_of_nil in Hab.
Qed.

Lemma travel_graph_well_wired (n1 n2 n3 n4 n5 n6 : Node) :
  well_wired (build_travel_graph n1 n2 n3 n4 n5 n6).
Proof.
  split.
  - intros _. by eexists.
  - intros a b Hab%travel_edges _.
    repeat (apply elem_of_cons in Hab as [[= -> ->]|Hab]; [by eexists|]).
    by apply elem_of_nil in Hab.
Qed.

Lemma acyclic_run_terminates_witness :
  ∃ h',
    invoke sample_graph 7 0 sample_store
    = (h', ["parse_request"; "analyze_preferences"; "select_places_minimize";
            "generate_schedule"; "format_output"], Some (Ok 2)) ∧
    (∃ h0 next,
       turn sample_graph "format_output" 2 h0 = (h', Ok next) ∧
       truthy next = false) ∧
    ∃ final,
      h' !! 2 = Some (ODict final) ∧
      final !! "priority" = Some (VStr "minimize_travel") ∧
      final !! "raw_request" = Some (VStr "부산 1박 2일 여행").
Proof.
  destruct (acyclic_run_terminates sample_graph 0 sample_store
              (<["raw_request" := VStr "부산 1박 2일 여행"]>
               (<["execution_log" := VRef 1]> ∅))
              (travel_graph_acyclic _ _ _ _ _ _) eq_refl)
    as (h' & visited & r & _ & Hinvoke & _ & _ & _ & Hlast).
  specialize (Hinvoke 0).
  assert (S (size (names sample_graph)) + 0 = 7) as Hfuel
    by (vm_compute; reflexivity).
  rewrite Hfuel in Hinvoke. clear Hfuel.
  assert ((invoke sample_graph 7 0 sample_store).1.2
          = ["parse_request"; "analyze_preferences"; "select_places_minimize";
             "generate_schedule"; "format_output"]) as Hvisited
    by (vm_compute; reflexivity).
  assert ((invoke sample_graph 7 0 sample_store).2 = Some (Ok 2)) as Hresult
    by (vm_compute; reflexivity).
  assert (∃ final,
            (invoke sample_graph 7 0 sample_store).1.1 !! 2
              = Some (ODict final) ∧
            final !! "priority" = Some (VStr "minimize_travel") ∧
            final !! "raw_request" = Some (VStr "부산 1박 2일 여행")) as Hfinal.
  { vm_compute. eexists. split; [reflexivity|]. split; reflexivity. }
  rewrite Hinvoke in Hvisited, Hresult, Hfinal.
  cbn [fst snd] in Hvisited, Hresult, Hfinal.
  subst visited. exists h'. split; [|split; [|exact Hfinal]].
  - rewrite Hinvoke, Hresult. reflexivity.
  - clear Hinvoke Hfinal.
    destruct r as [[]|e]; [|discriminate Hresult].
    destruct Hlast as [[Hnil _]|(before & name & h0 & next & Hv & Hturn & Ht)];
      [discriminate Hnil|].
    assert (name = "format_output") as Hname.
    { apply (f_equal last) in Hv. rewrite last_snoc in Hv.
      simpl in Hv. congruence. }
    rewrite Hname in Hturn. exists h0, next. split; [exact Hturn|exact Ht].
Defined.

(** C8 as stated, with [|steps|] as the bound and a return for every
    acyclic configuration.  The tables of [dangling] have no cycle and one
    registered node, and the run goes through three names; the tables of
    the sample have no cycle, and on a mapping without "raw_request" the
    run ends with the [KeyError] of its first node. *)
Lemma acyclic_run_may_exceed_steps :
  acyclic dangling ∧ size (nodes dangling) = 1 ∧
  invoke dangling 4 0 empty_store
    = (<[1 := ODict ∅]> empty_store, ["first"; "second"; "third"],
       Some (Ok 1)) ∧
  acyclic sample_graph ∧
  (invoke sample_graph 7 0 empty_store).2 = Some (Raise KeyError) ∧
  ¬ (∀ g fuel initial_state h,
       acyclic g →
       (length (invoke g fuel initial_state h).1.2 - 1 ≤ size (nodes g))%nat) ∧
  ¬ (∀ g initial_state h fields,
       acyclic g →
       h !! initial_state = Some (ODict fields) →
       ∃ fuel state, (invoke g fuel initial_state h).2 = Some (Ok state)).
Proof.
  assert (acyclic dangling) as Hacyc.
  { apply (acyclic_by_rank _ dangling_rank).
    intros a b [He|(router_func & route_map & label & Hc & _)]; simpl in *.
    - unravel He; injection He as <-; vm_compute; lia.
    - by rewrite lookup_empty in Hc. }
  split; [done|]. split; [reflexivity|]. split; [by vm_compute|].
  split; [apply travel_graph_acyclic|]. split; [by vm_compute|]. split.
  - intros H. specialize (H dangling 4 0 empty_store Hacyc).
    vm_compute in H. lia.
  - intros H.
    assert (empty_store !! 0 = Some (ODict ∅)) as Hdict by reflexivity.
    destruct (H sample_graph 0 empty_store ∅ (travel_graph_acyclic _ _ _ _ _ _)
                Hdict) as (fuel & state & Hr).
    rewrite (invoke_on_mapping _ _ _ _ ∅ Hdict) in Hr. cbv zeta in Hr.
    destruct fuel as [|fuel]; [discriminate Hr|].
    change (entry_point sample_graph) with (Some "parse_request") in Hr.
    rewrite loop_unfold in Hr by discriminate.
    assert (∃ h1, turn sample_graph "parse_request" (fresh (dom empty_store))
                    (<[fresh (dom empty_store) := ODict ∅]> empty_store)
                  = (h1, Raise KeyError)) as [h1 Hturn]
      by (eexists; vm_compute; reflexivity).
    rewrite Hturn in Hr. discriminate Hr.
Qed.

(** The run of the sample goes through five nodes and returns the working
    copy, the object at location 2. *)
Example sample_run :
  (invoke sample_graph 7 0 sample_store).1.2
    = ["parse_request"; "analyze_preferences"; "select_places_minimize";
       "generate_schedule"; "format_output"]
  ∧ (invoke sample_graph 7 0 sample_store).2 = Some (Ok 2).
Proof. vm_compute. done. Qed.

(** ** The caller's mapping *)

Lemma alloc_keeps (o : Obj) (h : Store) (l : loc) (x : Obj) :
  h !! l = Some x → (alloc o h).2 !! l = Some x.
Proof.
  intros Hl. unfold alloc. simpl. rewrite lookup_insert_ne; [done|].
  intros <-. pose proof (is_fresh (dom h)) as Hfresh.
  apply Hfresh, elem_of_dom. by eexists.
Qed.

Lemma alloc_fresh (o : Obj) (h : Store) : h !! (alloc o h).1 = None.
Proof.
  unfold alloc. simpl. apply not_elem_of_dom. apply is_fresh.
Qed.

Lemma update_keeps (state : loc) (result : gmap string Val) (h : Store)
    (l : loc) (x : Obj) :
  l ≠ state → h !! l = Some x → update state result h !! l = Some x.
Proof.
  intros Hne Hl. unfold update.
  destruct (h !! state) as [[items|fields]|]; try done.
  by rewrite lookup_insert_ne.
Qed.

Lemma turn_keeps (g : MockCompiledGraph) (name : string) (state : loc)
    (h0 h : Store) :
  confined g → untouched h0 state h →
  untouched h0 state (turn g name state h).1.
Proof.
  intros [Hnodes Hrouters] Hun. unfold turn.
  assert (untouched h0 state (run_node g name state h).1) as Hrun.
  { unfold run_node. destruct (nodes g !! name) as [node|] eqn:Hn; [|done].
    pose proof (Hnodes name node Hn h state) as Hw.
    destruct (node h state) as [h1 [result|e]]; simpl in *.
    - intros l x Hne Hl. apply update_keeps; [done|]. eauto.
    - intros l x Hne Hl. eauto. }
  destruct (run_node g name state h) as [h1 [[]|e]]; simpl in *; [|done].
  unfold next_node.
  destruct (conditional_edges g !! name) as [[router_func route_map]|] eqn:Hc.
  - pose proof (Hrouters name router_func route_map Hc h1 state) as Hw.
    destruct (router_func h1 state) as [h2 [label|e]]; simpl in *;
      intros l x Hne Hl; eauto.
  - by destruct (edges g !! name).
Qed.

Lemma loop_keeps (g : MockCompiledGraph) (fuel : nat) (next : option string)
    (state : loc) (h0 h : Store) :
  confined g → untouched h0 state h →
  untouched h0 state (loop g fuel next state h).1.1.
Proof.
  intros Hconf. revert next h.
  induction fuel as [|fuel IH]; intros next h Hun; simpl.
  - by destruct (truthy next).
  - destruct (truthy next); [|done].
    pose proof (turn_keeps g (default "" next) state h0 h Hconf Hun) as Hturn.
    destruct (turn g (default "" next) state h) as [h1 [next'|e]];
      simpl in *; [|done].
    specialize (IH next' h1 Hturn).
    by destruct (loop g fuel next' state h1) as [[h2 visited] r].
Qed.

(** C10 (the input is not mutated), amended: the claim holds for the
    configurations whose node and routing functions write to no object
    other than the working mapping they are given.  [invoke] works on a
    new mapping, a copy of the caller's; for such a configuration every
    object that existed before the call, the caller's mapping and the
    lists its fields refer to among them, is the same after the call
    (however the call ends, and after any number of turns); and the
    mapping returned is an object that did not exist before. *)
Theorem invoke_leaves_input_alone (g : MockCompiledGraph) (fuel : nat)
    (initial_state : loc) (h : Store) :
  confined g →
  let out := invoke g fuel initial_state h in
  (∀ l x, h !! l = Some x → out.1.1 !! l = Some x) ∧
  (∀ state, out.2 = Some (Ok state) → h !! state = None).
Proof.
  intros Hconf. cbv zeta.
  destruct (h !! initial_state) as [[items|fields]|] eqn:Hdict;
    try (unfold invoke; rewrite Hdict; simpl; split; [done|done]).
  rewrite (invoke_on_mapping _ _ _ _ _ Hdict). cbv zeta. cbn [fst snd].
  assert (h !! fresh (dom h) = None) as Hfresh
    by apply (alloc_fresh (ODict fields) h).
  split.
  - intros l x Hl.
    apply (loop_keeps g fuel (entry_point g) (fresh (dom h)) h); [done| |congruence|done].
    intros l' x' Hne Hl'. by rewrite lookup_insert_ne.
  - intros state.
    destruct (loop g fuel (entry_point g) _ _) as [[h' visited] [[[]|e]|]];
      simpl; [|done|done].
    by intros [= <-].
Qed.

(** The nodes of the sample only read and allocate. *)
Lemma parse_request_writes_only format_slice50 :
  writes_only (parse_request format_slice50).
Proof.
  intros h state l x _ Hl. unfold parse_request.
  destruct (h !! state) as [[items|fields]|]; try done.
  destruct (fields !! "raw_request") as [raw|]; [|done].
  destruct (slice50 format_slice50 h raw) as [shown|e]; [|done].
  destruct (alloc _ h) as [preferences h1] eqn:E1.
  destruct (alloc _ h1) as [constraints h2] eqn:E2.
  assert (h2 !! l = Some x) as Hl2.
  { pose proof (alloc_keeps (OList [VStr "조용한 카페"; VStr "전시"]) h l x Hl) as H1.
    rewrite E1 in H1. simpl in H1.
    pose proof (alloc_keeps (OList [VStr "혼밥 가능"; VStr "이동 동선 최소화"])
                  h1 l x H1) as H2.
    by rewrite E2 in H2. }
  destruct (extended_log h2 fields _) as [items|e]; [|done].
  destruct (alloc (OList items) h2) as [execution_log h3] eqn:E3.
  pose proof (alloc_keeps (OList items) h2 l x Hl2) as H3.
  by rewrite E3 in H3.
Qed.

Lemma analyze_preferences_writes_only : writes_only analyze_preferences.
Proof.
  intros h state l x _ Hl. unfold analyze_preferences.
  destruct (h !! state) as [[items|fields]|]; try done.
  destruct (fields !! "preferences") as [preferences|]; [|done].
  destruct (contains h "조용한 카페" preferences) as [quiet|e]; [|done].
  destruct (contains h "전시" preferences) as [shows|e]; [|done].
  destruct (fields !! "constraints") as [constraints|]; [|done].
  destruct (contains h "이동 동선 최소화" constraints) as [minimize|e]; [|done].
  cbv zeta.
  destruct (alloc _ h) as [place_types_needed h1] eqn:E1.
  assert (h1 !! l = Some x) as Hl1.
  { pose proof (alloc_keeps
                  (OList ((if quiet then [VStr "cafe"] else [])
                          ++ (if shows then [VStr "exhibition"] else [])
                          ++ [VStr "restaurant"])) h l x Hl) as H1.
    by rewrite E1 in H1. }
  destruct (extended_log h1 fields _) as [items|e]; [|done].
  destruct (alloc (OList items) h1) as [execution_log h2] eqn:E2.
  pose proof (alloc_keeps (OList items) h1 l x Hl1) as H2.
  by rewrite E2 in H2.
Qed.

Lemma route_by_priority_writes_only : writes_only route_by_priority.
Proof.
  intros h state l x _ Hl. unfold route_by_priority.
  destruct (h !! state) as [[items|fields]|]; try done.
  by destruct (fields !! "priority").
Qed.

Lemma skip_writes_only : writes_only skip.
Proof. by intros h state l x _ Hl. Qed.

Lemma travel_graph_confined (n1 n2 n3 n4 n5 n6 : Node) :
  writes_only n1 → writes_only n2 → writes_only n3 →
  writes_only n4 → writes_only n5 → writes_only n6 →
  confined (build_travel_graph n1 n2 n3 n4 n5 n6).
Proof.
  intros H1 H2 H3 H4 H5 H6. split.
  - intros k node Hk. simpl in Hk. unravel Hk; by subst node.
  - intros k router_func route_map Hk. simpl in Hk. unravel Hk.
    injection Hk as <- _. apply route_by_priority_writes_only.
Qed.

Lemma invoke_leaves_input_alone_witness :
  (invoke sample_graph 7 0 sample_store).1.1 !! 0 = sample_store !! 0 ∧
  (invoke sample_graph 7 0 sample_store).1.1 !! 1 = Some (OList []).
Proof.
  destruct (invoke_leaves_input_alone sample_graph 7 0 sample_store)
    as [Hkeep _].
  - apply travel_graph_confined;
      auto using parse_request_writes_only, analyze_preferences_writes_only,
                 skip_writes_only.
  - split; apply Hkeep; reflexivity.
Defined.



(** C10 as stated, for every configuration.  The copy that [invoke] makes
    is shallow: the working mapping refers to the same lists as the
    caller's.  The node function of [scribbling] appends a line to the
    list under "execution_log" in place; after the run the caller's
    mapping still refers to that list, and the list holds the line. *)
Lemma shared_list_is_reachable :
  (∃ fields,
     sample_store !! 0 = Some (ODict fields) ∧
     fields !! "execution_log" = Some (VRef 1)) ∧
  sample_store !! 1 = Some (OList []) ∧
  (invoke scribbling 2 0 sample_store).2 = Some (Ok 2) ∧
  (invoke scribbling 2 0 sample_store).1.1 !! 0 = sample_store !! 0 ∧
  (invoke scribbling 2 0 sample_store).1.1 !! 1
    = Some (OList [VStr "visited"]) ∧
  ¬ (∀ g fuel initial_state h fields field l,
       h !! initial_state = Some (ODict fields) →
       fields !! field = Some (VRef l) →
       (invoke g fuel initial_state h).1.1 !! l = h !! l).
Proof.
  split; [eexists; split; reflexivity|].
  split; [reflexivity|]. split; [by vm_compute|].
  split; [by vm_compute|]. split; [by vm_compute|].
  intros H.
  assert (sample_store !! 0
          = Some (ODict (<["raw_request" := VStr "부산 1박 2일 여행"]>
                         (<["execution_log" := VRef 1]> ∅)))) as Hdict
    by reflexivity.
  specialize (H scribbling 2 0 sample_store _ "execution_log" 1 Hdict eq_refl).
  vm_compute in H. discriminate H.
Qed.

End GraphProps.

(** * Further properties of the message bus *)

Module BusExtras.
Import Bus BusProps.

(** ** The registry *)

(** Registering stores the agent under its name, replacing an agent that
    was registered under that name; the entries under other names, the log
    and the stamps are as before. *)
Theorem register_then_lookup (agent : Agent) (bus : MessageBus) :
  od_get (agent_name agent) (agents (register agent bus)) = Some agent ∧
  (∀ other, other ≠ agent_name agent →
     od_get other (agents (register agent bus)) = od_get other (agents bus)) ∧
  messages (register agent bus) = messages bus ∧
  drawn (register agent bus) = drawn bus.
Proof.
  unfold register. simpl. split; [apply od_get_set_eq|].
  split; [|done]. intros other Hne. apply od_get_set_ne. congruence.
Qed.

Lemma od_set_keys {V : Type} (k : string) (v : V) (d : list (string * V)) :
  NoDup d.*1 → NoDup (od_set k v d).*1 ∧
  ∀ k', k' ∈ (od_set k v d).*1 → k' = k ∨ k' ∈ d.*1.
Proof.
  induction d as [|[k0 v0] r IH]; simpl.
  - intros _. split; [apply NoDup_singleton|].
    intros k' ->%list_elem_of_singleton. by left.
  - intros [Hnot Hnd]%NoDup_cons.
    destruct (String.eqb k0 k) eqn:E; simpl.
    + split; [by apply NoDup_cons|]. intros k' Hk'. by right.
    + destruct (IH Hnd) as [IHnd IHin]. split.
      * apply NoDup_cons. split; [|done]. intros Hin.
        apply IHin in Hin as [->|Hin]; [|done].
        by rewrite String.eqb_refl in E.
      * intros k' [->|Hk']%elem_of_cons; [right; by left|].
        apply IHin in Hk' as [->|Hk']; [by left|]. right. by right.
Qed.

Lemma touched_refl uuid8 now msg ka : touched uuid8 now msg ka ka.
Proof. split; [done|]. by left. Qed.

Lemma deliver_all_touched uuid8 now (msg : Msg) (todo : list (string * Agent))
    (log : list Msg) (n : nat) (acc : list Msg) :
  Forall2 (touched uuid8 now msg) todo
    (deliver_all uuid8 now msg todo log n acc).1.1.1.1.
Proof.
  revert log n acc. induction todo as [|[key agent] rest IH];
    intros log n acc; simpl; [constructor|].
  destruct (negb (String.eqb key (name msg))).
  - assert (touched uuid8 now msg (key, agent)
              (key, (receive agent msg (stamp uuid8 now n)).1)) as Hone.
    { split; [done|]. right. by exists n. }
    destruct (receive agent msg (stamp uuid8 now n)) as [agent' [[r|]|e]].
    + specialize (IH (log ++ [r]) (S n) (acc ++ [r])).
      destruct (deliver_all uuid8 now msg rest _ _ _) as [[[[rest' l'] m'] rs'] e'].
      by constructor.
    + specialize (IH log (S n) acc).
      destruct (deliver_all uuid8 now msg rest _ _ _) as [[[[rest' l'] m'] rs'] e'].
      by constructor.
    + constructor; [done|].
      apply Forall_Forall2_diag, Forall_forall. intros. apply touched_refl.
  - specialize (IH log n acc).
    destruct (deliver_all uuid8 now msg rest _ _ _) as [[[[rest' l'] m'] rs'] e'].
    constructor; [apply touched_refl|done].
Qed.

Lemma send_touched uuid8 now (msg : Msg) (bus : MessageBus) :
  Forall2 (touched uuid8 now msg) (agents bus)
    (agents (send uuid8 now msg bus).1).
Proof.
  destruct (recipient msg) as [who|] eqn:Hrec.
  - destruct (od_get who (agents bus)) as [agent|] eqn:Hget.
    + rewrite (send_direct _ _ _ _ _ _ Hrec Hget). simpl.
      eapply od_set_Forall2; eauto using touched_refl.
      split; [done|]. right. by exists (drawn bus).
    + rewrite (send_absent _ _ _ _ _ Hrec Hget). simpl.
      apply Forall_Forall2_diag, Forall_forall. intros. apply touched_refl.
  - apply recipient_broadcast in Hrec.
    pose proof (deliver_all_touched uuid8 now msg (agents bus)
                  (if logged msg (messages bus) then messages bus
                   else messages bus ++ [msg]) (drawn bus) []) as HF.
    unfold send. rewrite Hrec.
    by destruct (deliver_all uuid8 now msg (agents bus) _ _ _)
      as [[[[after l'] m'] rs'] e'].
Qed.

(** However agents are registered and messages are sent, the names in the
    registry are pairwise different and every agent is stored under its
    own name. *)
Theorem registry_well_keyed uuid8 now eligible allowed (bus : MessageBus) :
  reachable uuid8 now eligible allowed bus →
  NoDup (agents bus).*1 ∧
  Forall (λ ka, ka.1 = agent_name ka.2) (agents bus).
Proof.
  induction 1 as [|bus agent _ [IHnd IHk] _|bus _ IH|bus msg _ [IHnd IHk] _];
    simpl.
  - split; constructor.
  - split; [by apply od_set_keys|]. by apply od_set_Forall.
  - done.
  - pose proof (send_touched uuid8 now msg bus) as HF.
    assert ((agents (send uuid8 now msg bus).1).*1 = (agents bus).*1) as Hkeys.
    { clear IHnd IHk. induction HF as [|b a bs as' [Hk _] _ IH]; [done|].
      rewrite !fmap_cons. by f_equal. }
    split; [by rewrite Hkeys|].
    apply Forall_forall. intros ka' Hin.
    destruct (Forall2_elem_r _ _ _ _ HF Hin) as (ka & Hin0 & Hk & Hcase).
    rewrite Forall_forall in IHk. specialize (IHk ka Hin0).
    rewrite Hk. destruct Hcase as [->|[n ->]]; [done|].
    by destruct (receive_frame ka.2 msg (stamp uuid8 now n)) as (-> & _).
Qed.

Lemma registry_well_keyed_witness :
  (agents twice_told).*1 = ["Coordinator"; "PlaceExpert"; "ScheduleExpert"] ∧
  NoDup (agents twice_told).*1.
Proof.
  split; [reflexivity|].
  apply (registry_well_keyed pretty pretty fresh_agent any_message twice_told).
  unfold twice_told. apply reach_send; [|exact I].
  apply reach_send; [|exact I]. apply travel_bus_reachable.
Defined.

(** ** Direct delivery *)

(** A message addressed to a registered name is handed to that agent only:
    its entry becomes what [receive] returns, every other entry is as
    before, and at most one response comes back. *)
Theorem direct_send_calls_one uuid8 now (msg : Msg) (bus : MessageBus)
    (who : string) (agent : Agent) :
  recipient msg = Direct who →
  od_get who (agents bus) = Some agent →
  let out := receive agent msg (stamp uuid8 now (drawn bus)) in
  od_get who (agents (send uuid8 now msg bus).1) = Some out.1 ∧
  (∀ other, other ≠ who →
     od_get other (agents (send uuid8 now msg bus).1)
       = od_get other (agents bus)) ∧
  (∀ responses, (send uuid8 now msg bus).2 = Ok responses →
     responses = option_list (response_of out)) ∧
  (∀ e, (send uuid8 now msg bus).2 = Raise e ↔ out.2 = Raise e).
Proof.
  intros Hrec Hget out.
  rewrite (send_direct _ _ _ _ _ _ Hrec Hget). simpl. fold out.
  split; [apply od_get_set_eq|]. split.
  - intros other Hne. apply od_get_set_ne. congruence.
  - unfold response_of. destruct out.2 as [[r|]|e0]; simpl; split;
      try (by intros ? [= <-]); try done; split; congruence.
Qed.

Lemma direct_send_calls_one_witness :
  od_get "PlaceExpert" (agents (send pretty pretty chatter travel_bus).1)
    = Some new_PlaceExpertAgent.
Proof.
  destruct (direct_send_calls_one pretty pretty chatter travel_bus
              "Coordinator" new_CoordinatorAgent eq_refl eq_refl)
    as (_ & Hothers & _).
  rewrite Hothers; [reflexivity|discriminate].
Defined.

(** ** A broadcast that fails *)

Lemma deliver_all_until_raise uuid8 now (msg : Msg)
    (before after : list (string * Agent)) (key : string) (agent : Agent)
    (log : list Msg) (n : nat) (acc : list Msg) (e : Exn) :
  key ≠ name msg →
  let outs := visit uuid8 now msg (filter (λ ka, ka.1 ≠ name msg) before) n in
  let failed := receive agent msg (stamp uuid8 now (n + length outs)) in
  Forall (λ o, is_ok o.2 = true) outs →
  failed.2 = Raise e →
  ∃ before',
    deliver_all uuid8 now msg (before ++ (key, agent) :: after) log n acc =
      (before' ++ (key, failed.1) :: after,
       log ++ omap response_of outs, S (n + length outs),
       acc ++ omap response_of outs, Some e) ∧
    Forall2 (delivered msg) before before'.
Proof.
  intros Hkey. revert log n acc.
  induction before as [|[k a] rest IH]; intros log n acc; cbv zeta.
  - simpl. rewrite Nat.add_0_r, !app_nil_r. intros _ Hfail.
    assert (String.eqb key (name msg) = false) as ->
      by by apply String.eqb_neq.
    simpl. destruct (receive agent msg (stamp uuid8 now n)) as [agent' r].
    simpl in Hfail. subst r. by exists [].
  - simpl. destruct (decide (k = name msg)) as [->|Hne].
    + rewrite String.eqb_refl. simpl.
      rewrite filter_cons_False by (simpl; tauto).
      intros Hok Hfail.
      destruct (IH log n acc Hok Hfail) as (before' & -> & HF).
      exists ((name msg, a) :: before'). split; [done|].
      constructor; [|done]. unfold delivered. simpl. by rewrite decide_True.
    + assert (String.eqb k (name msg) = false) as ->
        by by apply String.eqb_neq.
      simpl. rewrite filter_cons_True by done. simpl.
      set (L := length (visit uuid8 now msg
                  (filter (λ ka, ka.1 ≠ name msg) rest) (S n))).
      replace (n + S L) with (S n + L) by lia.
      intros Hok Hfail. apply Forall_cons in Hok as [Hhd Htl].
      pose proof (receive_frame a msg (stamp uuid8 now n)) as (Hn & Hm & Hc).
      destruct (receive a msg (stamp uuid8 now n)) as [a' [[r|]|e0]];
        cbn [fst snd] in *; [| |done].
      * destruct (IH (log ++ [r]) (S n) (acc ++ [r]) Htl Hfail)
          as (before' & -> & HF). fold L.
        exists ((k, a') :: before'). split.
        { unfold response_of at 1 3. cbn [fst snd omap].
          by rewrite <-!app_assoc. }
        constructor; [|done]. unfold delivered. simpl.
        by rewrite decide_False.
      * destruct (IH log (S n) acc Htl Hfail) as (before' & -> & HF). fold L.
        exists ((k, a') :: before'). split; [done|].
        constructor; [|done]. unfold delivered. simpl.
        by rewrite decide_False.
Qed.

(** A broadcast stops at the first recipient whose [receive] raises.  The
    call ends with that exception; the recipients before it have received
    the message, and their responses are in the log although the call
    returns none of them; the failing agent has recorded the message; the
    agents after it have not been called. *)
Theorem broadcast_fails_fast uuid8 now (msg : Msg) (bus : MessageBus)
    (before after : list (string * Agent)) (key : string) (agent : Agent)
    (e : Exn) :
  recipient msg = Broadcast →
  agents bus = before ++ (key, agent) :: after →
  key ≠ name msg →
  let outs := visit uuid8 now msg (filter (λ ka, ka.1 ≠ name msg) before)
                (drawn bus) in
  let failed := receive agent msg
                  (stamp uuid8 now (drawn bus + length outs)) in
  Forall (λ o, is_ok o.2 = true) outs →
  failed.2 = Raise e →
  (send uuid8 now msg bus).2 = Raise e ∧
  messages (send uuid8 now msg bus).1 =
    (if logged msg (messages bus) then messages bus
     else messages bus ++ [msg]) ++ omap response_of outs ∧
  ∃ before',
    agents (send uuid8 now msg bus).1 = before' ++ (key, failed.1) :: after ∧
    Forall2 (delivered msg) before before' ∧
    memory failed.1 = memory agent ++ [msg].
Proof.
  intros Hrec Hagents Hkey outs failed Hok Hfail.
  apply recipient_broadcast in Hrec.
  destruct (deliver_all_until_raise uuid8 now msg before after key agent
              (if logged msg (messages bus) then messages bus
               else messages bus ++ [msg]) (drawn bus) [] e Hkey Hok Hfail)
    as (before' & Hloop & HF).
  unfold send. rewrite Hrec, Hagents, Hloop. simpl.
  split; [done|]. split; [done|]. exists before'.
  split; [done|]. split; [done|].
  by destruct (receive_frame agent msg
                 (stamp uuid8 now (drawn bus + length outs))) as (_ & ? & _).
Qed.

Lemma broadcast_fails_fast_witness :
  (send pretty pretty final_result broken_bus).2 = Raise NotImplementedError ∧
  (λ ka, (ka.1, length (memory ka.2)))
    <$> agents (send pretty pretty final_result broken_bus).1
    = [("PlaceExpert", 1); ("Intern", 1); ("ScheduleExpert", 0)].
Proof.
  destruct (broadcast_fails_fast pretty pretty final_result broken_bus
              [("PlaceExpert", new_PlaceExpertAgent)]
              [("ScheduleExpert", new_ScheduleExpertAgent)]
              "Intern" (new_agent BaseAgent "Intern" "") NotImplementedError)
    as (Hr & _ & before' & Hagents & _).
  - reflexivity.
  - reflexivity.
  - discriminate.
  - repeat constructor.
  - reflexivity.
  - split; [exact Hr|]. reflexivity.
Defined.

(** ** The three agents *)

(** The coordinator raises in one situation only: a message that is not
    from the user, whose sender is one of the two experts, and whose
    payload is not a mapping.  The exception is then [AttributeError]. *)
Theorem coordinator_raises_iff (self : Agent) (msg : Msg) (st : Stamp) (e : Exn) :
  cls self = CoordinatorAgent →
  (receive self msg st).2 = Raise e ↔
    e = AttributeError ∧ role msg ≠ "user" ∧
    (name msg = "PlaceExpert" ∨ name msg = "ScheduleExpert") ∧
    is_dict (content msg) = false.
Proof.
  intros Hc. unfold receive, _process. simpl. rewrite Hc.
  unfold CoordinatorAgent_process.
  destruct (String.eqb (role msg) "user") eqn:Hrole; simpl.
  - apply String.eqb_eq in Hrole. split; [done|]. by intros (_ & ? & _).
  - apply String.eqb_neq in Hrole.
    destruct (String.eqb (name msg) "PlaceExpert") eqn:Hp; simpl.
    + apply String.eqb_eq in Hp.
      destruct (content msg) as [| | | |d]; simpl; split;
        try (intros [= <-]; by auto); try done;
        try (by intros (-> & _)); by intros (_ & _ & _ & ?).
    + apply String.eqb_neq in Hp.
      destruct (String.eqb (name msg) "ScheduleExpert") eqn:Hs; simpl.
      * apply String.eqb_eq in Hs.
        destruct (content msg) as [| | | |d]; simpl; split;
          try (intros [= <-]; by auto); try done;
          try (by intros (-> & _)); by intros (_ & _ & _ & ?).
      * apply String.eqb_neq in Hs. split; [done|].
        by intros (_ & _ & [?|?] & _).
Qed.

Lemma coordinator_raises_iff_witness :
  (receive new_CoordinatorAgent stray_note (stamp pretty pretty 0)).2
    = Raise AttributeError.
Proof.
  apply (coordinator_raises_iff new_CoordinatorAgent stray_note
           (stamp pretty pretty 0) AttributeError eq_refl).
  split; [reflexivity|]. split; [discriminate|]. split; [by left|reflexivity].
Defined.

(** Whatever the place expert is asked, what it recommends is addressed to
    the coordinator and consists of places of its catalogue, in catalogue
    order and none twice, the restaurant always among them. *)
Theorem place_expert_recommends (self : Agent) (msg : Msg) (st : Stamp)
    (response : Msg) :
  cls self = PlaceExpertAgent →
  (receive self msg st).2 = Ok (Some response) →
  to response = Some "Coordinator" ∧
  action_is "places_response" (content response) = true ∧
  ∃ places,
    places_of (content response) = Some places ∧
    places `sublist_of` catalogue ∧
    PLACES_restaurant `suffix_of` places.
Proof.
  intros Hc. unfold receive, _process. simpl. rewrite Hc.
  unfold PlaceExpertAgent_process. case_match; [|done]. simpl.
  destruct (py_get (content msg) "requirements" (VDict [])) as [req|];
    simpl; [|done].
  destruct (py_get req "preferences" (VList [])) as [prefs|]; simpl; [|done].
  destruct (py_contains "조용한 카페" prefs) as [quiet|]; simpl; [|done].
  destruct (py_contains "전시" prefs) as [shows|]; simpl; [|done].
  intros [= <-]. split; [done|]. split; [done|].
  eexists. split; [reflexivity|]. unfold catalogue. split.
  - destruct quiet, shows; simpl;
      repeat first [done | apply sublist_skip | apply sublist_cons].
  - destruct quiet, shows.
    + by exists (PLACES_cafe ++ PLACES_exhibition).
    + by exists PLACES_cafe.
    + by exists PLACES_exhibition.
    + by exists [].
Qed.

Lemma place_expert_recommends_witness :
  ∃ response,
    (receive new_PlaceExpertAgent bare_request (stamp pretty pretty 0)).2
      = Ok (Some response) ∧
    places_of (content response) = Some PLACES_restaurant.
Proof.
  eexists. split; [reflexivity|].
  destruct (place_expert_recommends new_PlaceExpertAgent bare_request
              (stamp pretty pretty 0) _ eq_refl eq_refl)
    as (_ & _ & places & Hplaces & _).
  reflexivity.
Defined.

(** The schedule expert answers a request with the number of places it was
    given and with one and the same schedule, whatever the places are.  It
    raises in one situation only: the "places" entry of a request has no
    length, and the exception is then [TypeError]. *)
Theorem schedule_expert_counts (self : Agent) (msg : Msg) (st : Stamp) :
  cls self = ScheduleExpertAgent →
  recognizes ScheduleExpert msg = true →
  ∃ places,
    py_get (content msg) "places" (VList []) = Ok places ∧
    match py_len places with
    | Ok total =>
        ∃ response,
          (receive self msg st).2 = Ok (Some response) ∧
          to response = Some "Coordinator" ∧
          py_get (content response) "total_places" VNone
            = Ok (VInt (Z.of_nat total)) ∧
          py_get (content response) "schedule" VNone = Ok schedule
    | Raise e => e = TypeError ∧ (receive self msg st).2 = Raise TypeError
    end.
Proof.
  intros Hc Hrec. unfold receive, _process. simpl. rewrite Hc.
  unfold ScheduleExpertAgent_process. simpl in Hrec. rewrite Hrec.
  apply andb_true_iff in Hrec as [Hdict _].
  destruct (content msg) as [| | | |d]; try done. simpl.
  eexists. split; [reflexivity|].
  destruct (py_len _) as [total|e] eqn:Hlen; simpl.
  - eexists. repeat split; reflexivity.
  - assert (e = TypeError) as ->; [|done]. revert Hlen.
    destruct (from_option _ _ _); simpl; congruence.
Qed.

Lemma schedule_expert_counts_witness :
  (receive new_ScheduleExpertAgent odd_request (stamp pretty pretty 0)).2
    = Raise TypeError.
Proof.
  destruct (schedule_expert_counts new_ScheduleExpertAgent odd_request
              (stamp pretty pretty 0) eq_refl eq_refl)
    as (places & Hplaces & Hout).
  injection Hplaces as <-. exact (proj2 Hout).
Defined.

(** Every response of one of the three agents is signed: it bears the
    agent's own name as sender, the role "assistant", and the id and the
    timestamp that were drawn for the call. *)
Theorem responses_are_signed (v : Variant) (self : Agent) (msg : Msg)
    (st : Stamp) (response : Msg) :
  cls self = variant_class v →
  (receive self msg st).2 = Ok (Some response) →
  name response = agent_name self ∧ role response = "assistant" ∧
  id response = st.1 ∧ timestamp response = st.2.
Proof.
  intros Hc. unfold receive, _process. simpl. rewrite Hc. destruct v; simpl.
  - unfold CoordinatorAgent_process. repeat case_match; simpl; try done.
    + by intros [= <-].
    + destruct (py_get _ _ _); simpl; [|done]. by intros [= <-].
    + destruct (py_get _ _ _); simpl; [|done]. by intros [= <-].
  - unfold PlaceExpertAgent_process. case_match; [|done]. simpl.
    destruct (py_get _ _ _) as [req|]; simpl; [|done].
    destruct (py_get req _ _) as [prefs|]; simpl; [|done].
    destruct (py_contains "조용한 카페" prefs); simpl; [|done].
    destruct (py_contains "전시" prefs); simpl; [|done].
    by intros [= <-].
  - unfold ScheduleExpertAgent_process. case_match; [|done]. simpl.
    destruct (py_get _ _ _) as [places|]; simpl; [|done].
    destruct (py_len places); simpl; [|done].
    by intros [= <-].
Qed.

Lemma responses_are_signed_witness :
  ∃ response,
    (receive new_PlaceExpertAgent bare_request (stamp pretty pretty 7)).2
      = Ok (Some response) ∧
    name response = "PlaceExpert" ∧ id response = "7".
Proof.
  eexists. split; [reflexivity|].
  destruct (responses_are_signed PlaceExpert new_PlaceExpertAgent bare_request
              (stamp pretty pretty 7) _ eq_refl eq_refl) as (Hn & _ & Hid & _).
  split; [exact Hn|exact Hid].
Defined.

(** ** The run of the sample, for any request *)

Lemma send_answered uuid8 now (msg : Msg) (bus : MessageBus) (who : string)
    (agent agent' : Agent) (response : Msg) :
  recipient msg = Direct who →
  od_get who (agents bus) = Some agent →
  receive agent msg (stamp uuid8 now (drawn bus))
    = (agent', Ok (Some response)) →
  msg ∈ messages bus →
  send uuid8 now msg bus =
    (MkBus (messages bus ++ [response]) (od_set who agent' (agents bus))
       (S (drawn bus)),
     Ok [response]).
Proof.
  intros Hrec Hget Hout Hin.
  rewrite (send_direct _ _ _ _ _ _ Hrec Hget). cbv zeta. rewrite Hout. simpl.
  by rewrite (logged_elem _ _ Hin).
Qed.

Lemma send_new_answered uuid8 now (msg : Msg) (bus : MessageBus)
    (who : string) (agent agent' : Agent) (response : Msg) :
  recipient msg = Direct who →
  od_get who (agents bus) = Some agent →
  receive agent msg (stamp uuid8 now (drawn bus))
    = (agent', Ok (Some response)) →
  logged msg (messages bus) = false →
  send uuid8 now msg bus =
    (MkBus ((messages bus ++ [msg]) ++ [response])
       (od_set who agent' (agents bus)) (S (drawn bus)),
     Ok [response]).
Proof.
  intros Hrec Hget Hout Hnew.
  rewrite (send_direct _ _ _ _ _ _ Hrec Hget). cbv zeta. rewrite Hout. simpl.
  by rewrite Hnew.
Qed.

Lemma drain_round uuid8 now (fuel : nat) (response : Msg)
    (bus bus' : MessageBus) (next : list Msg) :
  truthy (to response) = true →
  send uuid8 now response bus = (bus', Ok next) →
  drain uuid8 now (S fuel) [response] bus = drain uuid8 now fuel next bus'.
Proof.
  intros Ht Hsend. simpl. rewrite Ht, Hsend. by rewrite app_nil_r.
Qed.

Lemma drain_broadcast uuid8 now (fuel : nat) (response : Msg)
    (bus : MessageBus) :
  truthy (to response) = false →
  drain uuid8 now (S fuel) [response] bus = Some (bus, Ok ()).
Proof. intros Ht. simpl. rewrite Ht. by destruct fuel. Qed.

Ltac logged :=
  repeat first [apply list_elem_of_here | apply list_elem_of_further].

Ltac answered :=
  eapply send_answered; [reflexivity|reflexivity|reflexivity|logged].

(** Whatever the request says and whatever ids and timestamps are drawn,
    the run on the bus of the sample ends after five rounds without an
    exception.  The log then holds the six messages of the documented
    flow, the last of them the coordinator's broadcast of the schedule
    expert's schedule, which is what [_format_final_output] formats; the
    coordinator has received three messages and is "finalizing", each
    expert has received one. *)
Theorem run_completes uuid8 now (user_request : string) :
  ∃ bus final,
    run uuid8 now 5 user_request travel_bus = Some (bus, Ok ()) ∧
    (λ m, (name m, to m)) <$> messages bus
      = [ ("User", Some "Coordinator");
          ("Coordinator", Some "PlaceExpert");
          ("PlaceExpert", Some "Coordinator");
          ("Coordinator", Some "ScheduleExpert");
          ("ScheduleExpert", Some "Coordinator");
          ("Coordinator", None) ] ∧
    (λ ka, (ka.1, state ka.2, length (memory ka.2))) <$> agents bus
      = [ ("Coordinator", "finalizing", 3);
          ("PlaceExpert", "", 1);
          ("ScheduleExpert", "", 1) ] ∧
    last (messages bus) = Some final ∧
    action_is "final_result" (content final) = true ∧
    py_get (content final) "schedule" VNone = Ok schedule ∧
    ∀ _format_schedule,
      _format_final_output _format_schedule bus = _format_schedule schedule.
Proof.
  eexists. eexists. split.
  - unfold run, send_new.
    erewrite send_new_answered;
      [|reflexivity|reflexivity|reflexivity|reflexivity].
    erewrite drain_round; [|reflexivity|answered].
    erewrite drain_round; [|reflexivity|answered].
    erewrite drain_round; [|reflexivity|answered].
    erewrite drain_round; [|reflexivity|answered].
    erewrite drain_broadcast; [|reflexivity]. reflexivity.
  - split; [reflexivity|]. split; [reflexivity|].
    split; [reflexivity|]. split; [reflexivity|].
    split; [reflexivity|]. intros f. reflexivity.
Qed.

(** With less fuel than five rounds the loop of [run] has not ended. *)
Example run_needs_five_rounds :
  run pretty pretty 4 "부산 1박 2일 여행" travel_bus = None.
Proof. vm_compute. reflexivity. Qed.

(** The loop of [run] sends the addressed responses only: a response
    without recipient, such as the final broadcast, is never sent again. *)
Theorem run_skips_broadcasts uuid8 now (responses : list Msg)
    (bus : MessageBus) :
  send_round uuid8 now responses bus
    = send_round uuid8 now (filter (λ r, truthy (to r) = true) responses) bus.
Proof.
  revert bus. induction responses as [|r rest IH]; intros bus; [done|].
  simpl. destruct (truthy (to r)) eqn:Ht.
  - rewrite filter_cons_True by done. simpl. rewrite Ht.
    destruct (send uuid8 now r bus) as [bus' [new_responses|e]]; [|done].
    by rewrite IH.
  - rewrite filter_cons_False by (rewrite Ht; discriminate). apply IH.
Qed.

(** ** The final output *)

Lemma last_result_none _format_schedule (l : list Msg) :
  Forall (λ m, is_final_result m = false) l →
  last_result _format_schedule l = Ok "일정 생성 실패".
Proof.
  induction 1 as [|m l Hm _ IH]; [done|]. simpl.
  unfold is_final_result in Hm.
  destruct (String.eqb (name m) "Coordinator" && is_dict (content m));
    simpl in Hm; [|done]. by rewrite Hm.
Qed.

(** [_format_final_output] formats the schedule of the last message in the
    log that the coordinator has sent with a mapping whose action is
    "final_result", whatever comes before it; a missing "schedule" entry
    counts as the empty mapping.  When the log holds no such message, the
    result is the text "일정 생성 실패" and nothing is raised. *)
Theorem final_output_is_last_result _format_schedule (bus : MessageBus) :
  (Forall (λ m, is_final_result m = false) (messages bus) →
   _format_final_output _format_schedule bus = Ok "일정 생성 실패") ∧
  (∀ before final after,
     messages bus = before ++ final :: after →
     is_final_result final = true →
     Forall (λ m, is_final_result m = false) after →
     ∃ found,
       py_get (content final) "schedule" (VDict []) = Ok found ∧
       _format_final_output _format_schedule bus
         = _format_schedule found).
Proof.
  unfold _format_final_output. split.
  - intros Hnone. apply last_result_none. by apply Forall_reverse.
  - intros before final after -> Hfinal Hafter.
    rewrite reverse_app, reverse_cons, <-app_assoc.
    apply Forall_reverse in Hafter. revert Hafter.
    generalize (reverse after). intros l Hl.
    induction Hl as [|m l Hm _ IH].
    + simpl. unfold is_final_result in Hfinal.
      apply andb_true_iff in Hfinal as [Hfinal Haction].
      rewrite Hfinal, Haction.
      apply andb_true_iff in Hfinal as [_ Hdict].
      destruct (content final) as [| | | |d]; try done. simpl.
      eexists. split; [reflexivity|]. done.
    + simpl. unfold is_final_result in Hm.
      destruct (String.eqb (name m) "Coordinator" && is_dict (content m));
        simpl in Hm; [|done]. by rewrite Hm.
Qed.

Lemma final_output_is_last_result_witness :
  _format_final_output (λ _, Ok "a schedule") first_round
    = Ok "일정 생성 실패".
Proof.
  apply (proj1 (final_output_is_last_result (λ _, Ok "a schedule") first_round)).
  repeat constructor.
Defined.



End BusExtras.

(** * Further properties of the graph engine *)

Module GraphExtras.
Import Graph GraphProps.

(** ** Distances *)

Lemma pair_get_elem (a b : string) (d : nat) (table : list (string * string * nat)) :
  pair_get (a, b) table = Some d → (a, b, d) ∈ table.
Proof.
  induction table as [|[[a0 b0] d0] rest IH]; simpl; [done|].
  destruct (String.eqb a0 a) eqn:Ea; simpl.
  - destruct (String.eqb b0 b) eqn:Eb.
    + apply String.eqb_eq in Ea, Eb. intros [= ->]. subst. by left.
    + intros H. right. by apply IH.
  - intros H. right. by apply IH.
Qed.

Lemma listed_one_way (a b : string) (d : nat) :
  pair_get (a, b) AREA_DISTANCES = Some d →
  pair_get (b, a) AREA_DISTANCES = None ∧ a ≠ b ∧ (3 ≤ d ≤ 25)%nat.
Proof.
  intros Hin%pair_get_elem. unfold AREA_DISTANCES in Hin.
  repeat (apply elem_of_cons in Hin as [[= -> -> ->]|Hin];
          [split; [reflexivity|split; [discriminate|lia]]|]).
  by apply elem_of_nil in Hin.
Qed.

(** The travel time between two areas does not depend on their order; it
    is 0 for one and the same area and between 3 and 25 minutes
    otherwise, 20 minutes when the table lists the pair in neither
    order. *)
Theorem get_distance_symmetric (area1 area2 : string) :
  get_distance area1 area2 = get_distance area2 area1 ∧
  (get_distance area1 area2 = 0 ↔ area1 = area2) ∧
  (get_distance area1 area2 ≤ 25)%nat ∧
  (area1 ≠ area2 →
   pair_get (area1, area2) AREA_DISTANCES = None →
   pair_get (area2, area1) AREA_DISTANCES = None →
   get_distance area1 area2 = 20).
Proof.
  unfold get_distance.
  destruct (String.eqb area1 area2) eqn:E.
  - apply String.eqb_eq in E. subst area2. rewrite String.eqb_refl.
    split; [done|]. split; [done|]. split; [lia|]. done.
  - apply String.eqb_neq in E.
    assert (String.eqb area2 area1 = false) as -> by by apply String.eqb_neq.
    destruct (pair_get (area1, area2) AREA_DISTANCES) as [d|] eqn:H12.
    + destruct (listed_one_way _ _ _ H12) as (H21 & _ & Hd).
      rewrite H21. rewrite bool_decide_eq_true_2 by by eexists.
      rewrite bool_decide_eq_false_2 by by intros [? ?].
      rewrite H12. simpl.
      split; [done|]. split; [split; [lia|done]|]. split; [lia|done].
    + rewrite bool_decide_eq_false_2 by by intros [? ?].
      destruct (pair_get (area2, area1) AREA_DISTANCES) as [d|] eqn:H21.
      * destruct (listed_one_way _ _ _ H21) as (_ & _ & Hd).
        rewrite bool_decide_eq_true_2 by by eexists.
        rewrite H21. simpl.
        split; [done|]. split; [split; [lia|done]|]. split; [lia|done].
      * rewrite bool_decide_eq_false_2 by by intros [? ?].
        rewrite H12. simpl.
        split; [done|]. split; [split; [lia|done]|]. split; [lia|done].
Qed.

(** ** Edge cases of the loop *)

(** With an entry point that is [None] or the empty text no node runs:
    [invoke] returns a new mapping with the fields of the caller's, and
    the store is otherwise as before, whatever the fuel. *)
Theorem invoke_without_entry (g : MockCompiledGraph) (fuel : nat)
    (initial_state : loc) (h : Store) (fields : gmap string Val) :
  truthy (entry_point g) = false →
  h !! initial_state = Some (ODict fields) →
  invoke g fuel initial_state h
    = (<[fresh (dom h) := ODict fields]> h, [], Some (Ok (fresh (dom h)))) ∧
  fresh (dom h) ≠ initial_state.
Proof.
  intros Hentry Hdict. split.
  - rewrite (invoke_on_mapping _ _ _ _ _ Hdict). cbv zeta.
    by rewrite loop_stops.
  - intros Heq. pose proof (is_fresh (dom h)) as Hfresh.
    apply Hfresh. rewrite Heq. apply elem_of_dom. by eexists.
Qed.

Lemma invoke_without_entry_witness :
  (invoke idle 0 0 sample_store).2 = Some (Ok 2) ∧
  (invoke idle 0 0 sample_store).1.1 !! 2 = sample_store !! 0.
Proof.
  destruct (invoke_without_entry idle 0 0 sample_store
              (<["raw_request" := VStr "부산 1박 2일 여행"]>
               (<["execution_log" := VRef 1]> ∅)) eq_refl eq_refl)
    as [Hrun _].
  rewrite Hrun. split; reflexivity.
Defined.

(** When a run ends with an exception, the exception is the one that the
    node function or the routing function of the last name raised, no
    further name was gone through, and the store is as that call left
    it. *)
Theorem exception_ends_run (g : MockCompiledGraph) (state : loc) (fuel : nat)
    (next : option string) (h h' : Store) (visited : list string) (e : Exn) :
  loop g fuel next state h = (h', visited, Some (Raise e)) →
  ∃ name before h0,
    visited = before ++ [name] ∧
    turn g name state h0 = (h', Raise e).
Proof.
  revert next h visited. induction fuel as [|fuel IH];
    intros next h visited; simpl.
  - by destruct (truthy next).
  - destruct (truthy next); [|done].
    destruct (turn g (default "" next) state h) as [h1 [next'|e0]] eqn:Hturn.
    + destruct (loop g fuel next' state h1) as [[h2 visited'] r] eqn:Hloop.
      intros [= -> <- ->].
      destruct (IH _ _ _ Hloop) as (name & before & h0 & -> & Hraise).
      by exists name, (default "" next :: before), h0.
    + intros [= <- <- <-]. by exists (default "" next), [], h.
Qed.

Lemma exception_ends_run_witness :
  ∃ h0, turn sample_graph "parse_request" 1 h0
          = ((invoke sample_graph 7 0 empty_store).1.1, Raise KeyError).
Proof.
  destruct (exception_ends_run sample_graph 1 7 (Some "parse_request")
              (<[1 := ODict ∅]> empty_store)
              (invoke sample_graph 7 0 empty_store).1.1
              ["parse_request"] KeyError)
    as (name & before & h0 & Hvisited & Hturn).
  - vm_compute. reflexivity.
  - symmetry in Hvisited.
    apply app_singleton in Hvisited as [[_ [= ->]]|[_ ?]]; [|done].
    by exists h0.
Defined.

(** ** The first two nodes of the sample *)

Lemma extends_refl (h : Store) : extends h h.
Proof. by intros l x. Qed.

Lemma extends_trans (h1 h2 h3 : Store) :
  extends h1 h2 → extends h2 h3 → extends h1 h3.
Proof. intros H12 H23 l x Hl. by apply H23, H12. Qed.

Lemma extends_alloc (o : Obj) (h : Store) : extends h (alloc o h).2.
Proof. intros l x. apply alloc_keeps. Qed.

Lemma alloc_lookup (o : Obj) (h : Store) :
  (alloc o h).2 !! (alloc o h).1 = Some o.
Proof. unfold alloc. simpl. apply lookup_insert_eq. Qed.

Lemma extended_log_extends (h h' : Store) (fields : gmap string Val)
    (earlier log : list Val) :
  extends h h' →
  extended_log h fields [] = Ok earlier →
  extended_log h' fields log = Ok (earlier ++ log).
Proof.
  intros Hext. unfold extended_log.
  destruct (fields !! "execution_log") as [[| | | |l]|]; try done.
  - destruct (h !! l) as [[items|?]|] eqn:Hl; try done.
    rewrite (Hext _ _ Hl). intros [= <-]. by rewrite app_nil_r.
  - by intros [= <-].
Qed.

Lemma parse_request_ok format_slice50 (h : Store) (state : loc)
    (fields : gmap string Val) (raw : Val) (shown : string)
    (earlier : list Val) :
  h !! state = Some (ODict fields) →
  fields !! "raw_request" = Some raw →
  slice50 format_slice50 h raw = Ok shown →
  extended_log h fields [] = Ok earlier →
  ∃ h' preferences constraints execution_log,
    parse_request format_slice50 h state =
      (h', Ok (<["duration" := VStr "1박 2일"]>
               (<["travel_style" := VStr "혼자"]>
               (<["preferences" := VRef preferences]>
               (<["constraints" := VRef constraints]>
               (<["execution_log" := VRef execution_log]> ∅)))))) ∧
    extends h h' ∧
    h !! preferences = None ∧ h !! constraints = None ∧
    h !! execution_log = None ∧
    h' !! preferences = Some (OList [VStr "조용한 카페"; VStr "전시"]) ∧
    h' !! constraints
      = Some (OList [VStr "혼밥 가능"; VStr "이동 동선 최소화"]) ∧
    h' !! execution_log
      = Some (OList (earlier ++ parse_request_lines shown)).
Proof.
  intros Hstate Hraw Hshown Hlog. unfold parse_request.
  rewrite Hstate, Hraw, Hshown.
  set (o1 := OList [VStr "조용한 카페"; VStr "전시"]).
  set (o2 := OList [VStr "혼밥 가능"; VStr "이동 동선 최소화"]).
  pose proof (extends_alloc o1 h) as He1.
  pose proof (alloc_lookup o1 h) as Hl1.
  pose proof (alloc_fresh o1 h) as Hf1.
  destruct (alloc o1 h) as [p h1]. cbn [fst snd] in *.
  pose proof (extends_alloc o2 h1) as He2.
  pose proof (alloc_lookup o2 h1) as Hl2.
  pose proof (alloc_fresh o2 h1) as Hf2.
  destruct (alloc o2 h1) as [c h2]. cbn [fst snd] in *.
  rewrite (extended_log_extends h h2 fields earlier _
             (extends_trans _ _ _ He1 He2) Hlog).
  set (o3 := OList (earlier ++ _)).
  pose proof (extends_alloc o3 h2) as He3.
  pose proof (alloc_lookup o3 h2) as Hl3.
  pose proof (alloc_fresh o3 h2) as Hf3.
  destruct (alloc o3 h2) as [l h3]. cbn [fst snd] in *.
  exists h3, p, c, l. split; [done|].
  split; [by eauto using extends_trans|].
  split; [done|].
  split. { destruct (h !! c) eqn:E; [|done]. apply He1 in E. congruence. }
  split. { destruct (h !! l) eqn:E; [|done].
           apply He1, He2 in E. congruence. }
  split; [by apply He3, He2|]. split; [by apply He3|done].
Qed.

(** On a mapping with a text request, [parse_request] returns the four
    fixed fields of its mock parse, whatever the text is, and a log that
    keeps the earlier lines and adds four; the only trace of the request
    is its first 50 characters in the third line.  The three lists it
    returns are new objects, and no object of the store is changed.
    Without a "raw_request" field it raises [KeyError]; when the
    "execution_log" field holds a text, a number or [None] it raises
    [TypeError]. *)
Theorem parse_request_appends format_slice50 (h : Store) (state : loc)
    (fields : gmap string Val) :
  h !! state = Some (ODict fields) →
  (∀ raw earlier,
     fields !! "raw_request" = Some (VStr raw) →
     extended_log h fields [] = Ok earlier →
     ∃ h' preferences constraints execution_log,
       parse_request format_slice50 h state =
         (h', Ok (<["duration" := VStr "1박 2일"]>
                  (<["travel_style" := VStr "혼자"]>
                  (<["preferences" := VRef preferences]>
                  (<["constraints" := VRef constraints]>
                  (<["execution_log" := VRef execution_log]> ∅)))))) ∧
       extends h h' ∧
       h !! preferences = None ∧ h !! constraints = None ∧
       h !! execution_log = None ∧
       h' !! preferences = Some (OList [VStr "조용한 카페"; VStr "전시"]) ∧
       h' !! constraints
         = Some (OList [VStr "혼밥 가능"; VStr "이동 동선 최소화"]) ∧
       h' !! execution_log
         = Some (OList (earlier
                        ++ parse_request_lines (take_points 50 raw)))) ∧
  (fields !! "raw_request" = None →
   parse_request format_slice50 h state = (h, Raise KeyError)) ∧
  (∀ raw v,
     fields !! "raw_request" = Some (VStr raw) →
     fields !! "execution_log" = Some v →
     (∀ l, v ≠ VRef l) →
     (parse_request format_slice50 h state).2 = Raise TypeError).
Proof.
  intros Hstate. split; [|split].
  - intros raw earlier Hraw Hlog.
    by apply (parse_request_ok _ _ _ fields (VStr raw)).
  - intros Hraw. unfold parse_request. by rewrite Hstate, Hraw.
  - intros raw v Hraw Hlog Hscalar.
    unfold parse_request. rewrite Hstate, Hraw. cbn [slice50].
    destruct (alloc _ h) as [p h1].
    destruct (alloc _ h1) as [c h2].
    unfold extended_log. rewrite Hlog.
    destruct v as [| | | |l]; try done. by destruct (Hscalar l).
Qed.

Lemma parse_request_appends_witness :
  ∃ h' execution_log,
    (parse_request (λ _ _, Raise TypeError) sample_store 0).1 = h' ∧
    h' !! execution_log
      = Some (OList (parse_request_lines "부산 1박 2일 여행")).
Proof.
  assert (sample_store !! 0
          = Some (ODict (<["raw_request" := VStr "부산 1박 2일 여행"]>
                         (<["execution_log" := VRef 1]> ∅)))) as Hstate
    by reflexivity.
  destruct (proj1 (parse_request_appends (λ _ _, Raise TypeError)
                     sample_store 0 _ Hstate)
              "부산 1박 2일 여행" [] eq_refl eq_refl)
    as (h' & p & c & l & Hrun & _ & _ & _ & _ & _ & _ & Hlog).
  exists h', l. split; [by rewrite Hrun|exact Hlog].
Defined.

(** ** The runs of the sample's tables *)

Lemma loop_cases (g : MockCompiledGraph) (fuel : nat) (name : string)
    (state : loc) (h h' : Store) (visited : list string)
    (r : option (Result ())) :
  name ≠ "" →
  loop g (S fuel) (Some name) state h = (h', visited, r) →
  (∃ e, turn g name state h = (h', Raise e) ∧
        visited = [name] ∧ r = Some (Raise e)) ∨
  (∃ h1 next rest,
     turn g name state h = (h1, Ok next) ∧
     loop g fuel next state h1 = (h', rest, r) ∧
     visited = name :: rest).
Proof.
  intros Hne. rewrite (loop_unfold _ _ _ _ _ Hne).
  destruct (turn g name state h) as [h1 [next|e]].
  - destruct (loop g fuel next state h1) as [[h2 rest] r'] eqn:Hloop.
    intros [= <- <- <-]. right. by exists h1, next, rest.
  - intros [= <- <- <-]. left. by exists e.
Qed.

Lemma travel_turn (n1 n2 n3 n4 n5 n6 : Node) (name : string) (state : loc)
    (h h' : Store) (next : option string) :
  turn (build_travel_graph n1 n2 n3 n4 n5 n6) name state h = (h', Ok next) →
  next ∈ travel_successors name.
Proof.
  intros Hturn. destruct next as [b|].
  - apply turn_edge, travel_edges in Hturn.
    repeat (apply elem_of_cons in Hturn as [[= -> ->]|Hturn];
            [vm_compute;
             repeat first [apply list_elem_of_here | apply list_elem_of_further]|]).
    by apply elem_of_nil in Hturn.
  - unfold turn, next_node in Hturn.
    destruct (run_node _ name state h) as [h1 [[]|e]]; [|done].
    unfold travel_successors.
    repeat (destruct (String.eqb name _) eqn:E;
            [apply String.eqb_eq in E; subst name|clear E]);
      try done; [|apply list_elem_of_here].
    simpl in Hturn. rewrite lookup_insert_eq in Hturn.
    unfold route_by_priority in Hturn.
    destruct (h1 !! state) as [[?|fields]|]; try done.
    destruct (fields !! "priority"); [|done].
    by destruct (decide _).
Qed.

Ltac settle :=
  first [ exists "select_places_minimize";
          split; [apply list_elem_of_here|];
          split; [by eexists|];
          split; [intros; first [done | congruence]|];
          split; [intros; first [lia | done]
                 |intros; first [lia | by eexists]]
        | exists "select_places_variety";
          split; [apply list_elem_of_further, list_elem_of_here|];
          split; [by eexists|];
          split; [intros; first [done | congruence]|];
          split; [intros; first [lia | done]
                 |intros; first [lia | by eexists]] ].

Ltac walk H :=
  match type of H with
  | loop _ ?fuel (Some _) _ _ = _ =>
      destruct fuel as [|fuel];
      [ simpl in H; injection H as <- <- <-; settle
      | let e := fresh "e" in
        let h1 := fresh "h" in
        let next := fresh "next" in
        let rest := fresh "rest" in
        let Ht := fresh "Ht" in
        apply loop_cases in H
          as [(e & Ht & -> & ->)|(h1 & next & rest & Ht & H & ->)];
        [ settle
        | apply travel_turn in Ht; vm_compute in Ht;
          repeat (apply elem_of_cons in Ht as [->|Ht]);
          [walk H .. | by apply elem_of_nil in Ht]
        | done ] ]
  | loop _ _ None _ _ = _ =>
      rewrite loop_stops in H by done; injection H as <- <- <-; settle
  end.

Lemma travel_loop (n1 n2 n3 n4 n5 n6 : Node) (fuel : nat) (state : loc)
    (h h' : Store) (visited : list string) (r : option (Result ())) :
  loop (build_travel_graph n1 n2 n3 n4 n5 n6) fuel (Some "parse_request")
    state h = (h', visited, r) →
  ∃ branch,
    branch ∈ ["select_places_minimize"; "select_places_variety"] ∧
    visited `prefix_of` travel_path branch ∧
    (r = Some (Ok ()) → visited = travel_path branch) ∧
    (r = None → (fuel < 5)%nat) ∧
    ((5 ≤ fuel)%nat → is_Some r).
Proof. intros H. walk H. Qed.

(** On a mapping, a run of the sample's tables, whatever its six node
    functions do, goes through a prefix of one of two paths: the five
    names with "select_places_minimize" or with "select_places_variety"
    in the middle.  A run that returns went through all five; fuel for
    five turns always gives an outcome. *)
Theorem travel_graph_paths (n1 n2 n3 n4 n5 n6 : Node) (fuel : nat)
    (initial_state : loc) (h : Store) :
  let out :=
    invoke (build_travel_graph n1 n2 n3 n4 n5 n6) fuel initial_state h in
  ∃ branch,
    branch ∈ ["select_places_minimize"; "select_places_variety"] ∧
    out.1.2 `prefix_of` travel_path branch ∧
    (∀ state, out.2 = Some (Ok state) → out.1.2 = travel_path branch) ∧
    ((5 ≤ fuel)%nat → is_Some out.2).
Proof.
  cbv zeta. destruct (h !! initial_state) as [[items|fields]|] eqn:Hdict.
  - unfold invoke. rewrite Hdict. exists "select_places_minimize".
    split; [apply list_elem_of_here|]. split; [by eexists|].
    split; [done|]. by eexists.
  - rewrite (invoke_on_mapping _ _ _ _ _ Hdict). cbv zeta.
    destruct (loop _ fuel _ _ _) as [[h' visited] r] eqn:Hloop.
    apply travel_loop in Hloop as (branch & Hin & Hpre & Hok & _ & Hsome).
    exists branch. cbn [fst snd]. split; [done|]. split; [done|]. split.
    + intros state Hr. apply Hok. by destruct r as [[[]|e]|].
    + intros Hfuel. destruct (Hsome Hfuel) as [[[]|e] ->]; by eexists.
  - unfold invoke. rewrite Hdict. exists "select_places_minimize".
    split; [apply list_elem_of_here|]. split; [by eexists|].
    split; [done|]. by eexists.
Qed.

(** ** The second node and the branch it selects *)

Lemma analyze_preferences_ok (h : Store) (state : loc)
    (fields : gmap string Val) (preferences constraints : Val)
    (quiet shows minimize : bool) (earlier : list Val) :
  h !! state = Some (ODict fields) →
  fields !! "preferences" = Some preferences →
  contains h "조용한 카페" preferences = Ok quiet →
  contains h "전시" preferences = Ok shows →
  fields !! "constraints" = Some constraints →
  contains h "이동 동선 최소화" constraints = Ok minimize →
  extended_log h fields [] = Ok earlier →
  ∃ h' place_types_needed execution_log,
    analyze_preferences h state =
      (h', Ok (<["place_types_needed" := VRef place_types_needed]>
               (<["priority" := VStr (if minimize then "minimize_travel"
                                      else "maximize_variety")]>
               (<["execution_log" := VRef execution_log]> ∅)))) ∧
    extends h h' ∧
    h !! place_types_needed = None ∧ h !! execution_log = None ∧
    h' !! place_types_needed = Some (OList (place_types quiet shows)) ∧
    h' !! execution_log
      = Some (OList (earlier
                     ++ analyze_preferences_lines quiet shows minimize)).
Proof.
  intros Hstate Hp Hquiet Hshows Hc Hmin Hlog. unfold analyze_preferences.
  rewrite Hstate, Hp, Hquiet, Hshows, Hc, Hmin. cbv zeta.
  set (o1 := OList _).
  pose proof (extends_alloc o1 h) as He1.
  pose proof (alloc_lookup o1 h) as Hl1.
  pose proof (alloc_fresh o1 h) as Hf1.
  destruct (alloc o1 h) as [t h1]. cbn [fst snd] in *.
  rewrite (extended_log_extends h h1 fields earlier _ He1 Hlog).
  set (o2 := OList (earlier ++ _)).
  pose proof (extends_alloc o2 h1) as He2.
  pose proof (alloc_lookup o2 h1) as Hl2.
  pose proof (alloc_fresh o2 h1) as Hf2.
  destruct (alloc o2 h1) as [l h2]. cbn [fst snd] in *.
  exists h2, t, l. split; [done|].
  split; [by eauto using extends_trans|].
  split; [done|].
  split. { destruct (h !! l) eqn:E; [|done]. apply He1 in E. congruence. }
  split; [by apply He2|done].
Qed.

(** With lists under "preferences" and "constraints" and a list, or
    nothing, under "execution_log", [analyze_preferences] returns
    "minimize_travel" as priority exactly when the constraints hold the
    text "이동 동선 최소화", and "maximize_variety" otherwise; the place
    types it needs are "cafe" and "exhibition" for the preferences that
    ask for them, in this order, and always end with "restaurant"; the
    log keeps the earlier lines.  What it returns are new lists, and no
    object of the store is changed. *)
Theorem analyze_preferences_decides (h : Store) (state : loc)
    (fields : gmap string Val) (p c : loc) (prefs cons earlier : list Val) :
  h !! state = Some (ODict fields) →
  fields !! "preferences" = Some (VRef p) →
  h !! p = Some (OList prefs) →
  fields !! "constraints" = Some (VRef c) →
  h !! c = Some (OList cons) →
  extended_log h fields [] = Ok earlier →
  let quiet := bool_decide (VStr "조용한 카페" ∈ prefs) in
  let shows := bool_decide (VStr "전시" ∈ prefs) in
  let minimize := bool_decide (VStr "이동 동선 최소화" ∈ cons) in
  ∃ h' place_types_needed execution_log,
    analyze_preferences h state =
      (h', Ok (<["place_types_needed" := VRef place_types_needed]>
               (<["priority" := VStr (if minimize then "minimize_travel"
                                      else "maximize_variety")]>
               (<["execution_log" := VRef execution_log]> ∅)))) ∧
    extends h h' ∧
    h !! place_types_needed = None ∧ h !! execution_log = None ∧
    h' !! place_types_needed = Some (OList (place_types quiet shows)) ∧
    h' !! execution_log
      = Some (OList (earlier
                     ++ analyze_preferences_lines quiet shows minimize)).
Proof.
  intros Hstate Hp Hprefs Hc Hcons Hlog. cbv zeta.
  apply (analyze_preferences_ok h state fields (VRef p) (VRef c));
    try done; unfold contains; by rewrite ?Hprefs, ?Hcons.
Qed.

Lemma analyze_preferences_decides_witness :
  ∃ h' place_types_needed execution_log,
    analyze_preferences request_store 5 =
      (h', Ok (<["place_types_needed" := VRef place_types_needed]>
               (<["priority" := VStr "maximize_variety"]>
               (<["execution_log" := VRef execution_log]> ∅)))) ∧
    h' !! place_types_needed
      = Some (OList [VStr "cafe"; VStr "exhibition"; VStr "restaurant"]).
Proof.
  destruct (analyze_preferences_decides request_store 5 (request_fields 3)
              1 3 [VStr "조용한 카페"; VStr "전시"] [VStr "혼밥 가능"] []
              eq_refl eq_refl eq_refl eq_refl eq_refl eq_refl)
    as (h' & t & l & Hrun & _ & _ & _ & Htypes & _).
  exists h', t, l. split; [exact Hrun|exact Htypes].
Defined.

(** ** The branch *)

Lemma turn_parse_request format_slice50 (n2 n3 n4 n5 n6 : Node)
    (state : loc) (h : Store) (fields : gmap string Val) (raw : string)
    (earlier : list Val) :
  h !! state = Some (ODict fields) →
  fields !! "raw_request" = Some (VStr raw) →
  extended_log h fields [] = Ok earlier →
  ∃ h' fields' p c l,
    turn (build_travel_graph (parse_request format_slice50) n2 n3 n4 n5 n6)
      "parse_request" state h = (h', Ok (Some "analyze_preferences")) ∧
    h' !! state = Some (ODict fields') ∧
    fields' !! "preferences" = Some (VRef p) ∧
    h' !! p = Some (OList [VStr "조용한 카페"; VStr "전시"]) ∧
    fields' !! "constraints" = Some (VRef c) ∧
    h' !! c = Some (OList [VStr "혼밥 가능"; VStr "이동 동선 최소화"]) ∧
    fields' !! "execution_log" = Some (VRef l) ∧
    h' !! l = Some (OList (earlier
                           ++ parse_request_lines (take_points 50 raw))).
Proof.
  intros Hstate Hraw Hlog.
  destruct (parse_request_ok format_slice50 h state fields (VStr raw)
              (take_points 50 raw) earlier Hstate Hraw eq_refl Hlog)
    as (h1 & p & c & l & Hrun & Hext & Hp & Hc & Hl & Hp' & Hc' & Hl').
  set (result := <["duration" := _]> _) in Hrun.
  exists (<[state := ODict (result ∪ fields)]> h1), (result ∪ fields), p, c, l.
  split.
  { unfold turn, run_node, next_node. simpl.
    rewrite lookup_insert_eq, Hrun. unfold update.
    rewrite (Hext _ _ Hstate).
    rewrite lookup_insert_ne by done. rewrite lookup_empty.
    by rewrite lookup_insert_eq. }
  split; [apply lookup_insert_eq|].
  assert (∀ x, h !! x = None → state ≠ x) as Hne.
  { intros x Hx ->. congruence. }
  split; [by apply lookup_union_Some_l|].
  split; [by rewrite lookup_insert_ne by by apply Hne|].
  split; [by apply lookup_union_Some_l|].
  split; [by rewrite lookup_insert_ne by by apply Hne|].
  split; [by apply lookup_union_Some_l|].
  by rewrite lookup_insert_ne by by apply Hne.
Qed.

Lemma turn_analyze_preferences (n1 n3 n4 n5 n6 : Node) (state : loc)
    (h : Store) (fields : gmap string Val) (p c : loc)
    (prefs cons earlier : list Val) :
  h !! state = Some (ODict fields) →
  fields !! "preferences" = Some (VRef p) →
  h !! p = Some (OList prefs) →
  fields !! "constraints" = Some (VRef c) →
  h !! c = Some (OList cons) →
  extended_log h fields [] = Ok earlier →
  ∃ h',
    turn (build_travel_graph n1 analyze_preferences n3 n4 n5 n6)
      "analyze_preferences" state h
    = (h', Ok (Some (if bool_decide (VStr "이동 동선 최소화" ∈ cons)
                     then "select_places_minimize"
                     else "select_places_variety"))).
Proof.
  intros Hstate Hp Hprefs Hc Hcons Hlog.
  destruct (analyze_preferences_ok h state fields (VRef p) (VRef c)
              (bool_decide (VStr "조용한 카페" ∈ prefs))
              (bool_decide (VStr "전시" ∈ prefs))
              (bool_decide (VStr "이동 동선 최소화" ∈ cons)) earlier)
    as (h1 & t & l & Hrun & Hext & _); try done;
    try (unfold contains; by rewrite ?Hprefs, ?Hcons).
  set (result := <["place_types_needed" := _]> _) in Hrun.
  exists (<[state := ODict (result ∪ fields)]> h1).
  unfold turn, run_node, next_node. simpl.
  rewrite lookup_insert_ne by done. rewrite lookup_insert_eq, Hrun.
  unfold update. rewrite (Hext _ _ Hstate).
  rewrite lookup_insert_eq. unfold route_by_priority.
  rewrite lookup_insert_eq.
  assert ((result ∪ fields) !! "priority"
          = Some (VStr (if bool_decide (VStr "이동 동선 최소화" ∈ cons)
                        then "minimize_travel" else "maximize_variety")))
    as -> by by apply lookup_union_Some_l.
  by destruct (bool_decide _).
Qed.

(** After [analyze_preferences] has run on a mapping with lists under
    "preferences" and "constraints", the sample's tables continue at
    "select_places_minimize" when the constraints hold the text
    "이동 동선 최소화" and at "select_places_variety" when they do not,
    whatever the other node functions are. *)
Theorem branch_follows_constraints (n1 n3 n4 n5 n6 : Node) (state : loc)
    (h : Store) (fields : gmap string Val) (p c : loc)
    (prefs cons earlier : list Val) :
  h !! state = Some (ODict fields) →
  fields !! "preferences" = Some (VRef p) →
  h !! p = Some (OList prefs) →
  fields !! "constraints" = Some (VRef c) →
  h !! c = Some (OList cons) →
  extended_log h fields [] = Ok earlier →
  (turn (build_travel_graph n1 analyze_preferences n3 n4 n5 n6)
     "analyze_preferences" state h).2
  = Ok (Some (if bool_decide (VStr "이동 동선 최소화" ∈ cons)
              then "select_places_minimize"
              else "select_places_variety")).
Proof.
  intros Hstate Hp Hprefs Hc Hcons Hlog.
  destruct (turn_analyze_preferences n1 n3 n4 n5 n6 state h fields p c
              prefs cons earlier) as [h' ->]; done.
Qed.

Lemma branch_follows_constraints_witness :
  (turn sample_graph "analyze_preferences" 0 request_store).2
    = Ok (Some "select_places_minimize") ∧
  (turn sample_graph "analyze_preferences" 5 request_store).2
    = Ok (Some "select_places_variety").
Proof.
  split.
  - exact (branch_follows_constraints _ skip skip skip skip 0 request_store
             (request_fields 2) 1 2 [VStr "조용한 카페"; VStr "전시"]
             [VStr "혼밥 가능"; VStr "이동 동선 최소화"] []
             eq_refl eq_refl eq_refl eq_refl eq_refl eq_refl).
  - exact (branch_follows_constraints _ skip skip skip skip 5 request_store
             (request_fields 3) 1 3 [VStr "조용한 카페"; VStr "전시"]
             [VStr "혼밥 가능"] []
             eq_refl eq_refl eq_refl eq_refl eq_refl eq_refl).
Defined.

Lemma request_loop format_slice50 (n3 n4 n5 n6 : Node) (fuel : nat)
    (state : loc) (h h' : Store) (fields : gmap string Val) (raw : string)
    (earlier : list Val) (visited : list string) (r : option (Result ())) :
  h !! state = Some (ODict fields) →
  fields !! "raw_request" = Some (VStr raw) →
  extended_log h fields [] = Ok earlier →
  loop (build_travel_graph (parse_request format_slice50)
          analyze_preferences n3 n4 n5 n6)
    (3 + fuel) (Some "parse_request") state h = (h', visited, r) →
  ∃ rest,
    visited = "parse_request" :: "analyze_preferences"
              :: "select_places_minimize" :: rest ∧
    rest `prefix_of` ["generate_schedule"; "format_output"].
Proof.
  intros Hstate Hraw Hlog Hloop.
  pose proof (travel_loop _ _ _ _ _ _ _ _ _ _ _ _ Hloop)
    as (branch & _ & [k Hk] & _).
  destruct (turn_parse_request format_slice50 analyze_preferences
              n3 n4 n5 n6 state h fields raw earlier Hstate Hraw Hlog)
    as (h1 & fields1 & p & c & l & Ht1 & Hstate1 & Hp & Hprefs & Hc & Hcons
        & Hl & Hitems).
  destruct (turn_analyze_preferences (parse_request format_slice50)
              n3 n4 n5 n6 state h1 fields1 p c _ _
              (earlier ++ parse_request_lines (take_points 50 raw) ++ [])
              Hstate1 Hp Hprefs Hc Hcons)
    as [h2 Ht2].
  { unfold extended_log. rewrite Hl, Hitems. by rewrite app_nil_r. }
  rewrite bool_decide_eq_true_2 in Ht2
    by apply list_elem_of_further, list_elem_of_here.
  change (3 + fuel) with (S (S (S fuel))) in Hloop.
  apply loop_cases in Hloop
    as [(e & Ht & _)|(h1' & next & rest1 & Ht & Hloop & ->)]; [congruence| |done].
  rewrite Ht1 in Ht. injection Ht as <- <-.
  apply loop_cases in Hloop
    as [(e & Ht & _)|(h2' & next & rest2 & Ht & Hloop & ->)]; [congruence| |done].
  rewrite Ht2 in Ht. injection Ht as <- <-.
  apply loop_cases in Hloop
    as [(e & _ & -> & _)|(h3 & next & rest3 & _ & _ & ->)]; [| |done].
  - exists []. split; [done|]. by eexists.
  - exists rest3. split; [done|].
    unfold travel_path in Hk. injection Hk as _ ->. by exists k.
Qed.

(** Whatever the text of the request is, a run of the sample's tables
    with its own [parse_request] and [analyze_preferences] goes from
    "analyze_preferences" to "select_places_minimize": the constraints
    that [parse_request] returns always hold "이동 동선 최소화".  The node
    "select_places_variety" is never gone through. *)
Theorem request_takes_minimize format_slice50 (n3 n4 n5 n6 : Node)
    (fuel : nat) (initial_state : loc) (h : Store)
    (fields : gmap string Val) (raw : string) (earlier : list Val) :
  h !! initial_state = Some (ODict fields) →
  fields !! "raw_request" = Some (VStr raw) →
  extended_log h fields [] = Ok earlier →
  (3 ≤ fuel)%nat →
  let out :=
    invoke (build_travel_graph (parse_request format_slice50)
              analyze_preferences n3 n4 n5 n6) fuel initial_state h in
  (∃ rest, out.1.2 = "parse_request" :: "analyze_preferences"
                     :: "select_places_minimize" :: rest) ∧
  "select_places_variety" ∉ out.1.2.
Proof.
  intros Hdict Hraw Hlog Hfuel. cbv zeta.
  rewrite (invoke_on_mapping _ _ _ _ _ Hdict). cbv zeta.
  destruct (loop _ fuel _ _ _) as [[h' visited] r] eqn:Hloop.
  cbn [fst snd].
  replace fuel with (3 + (fuel - 3)) in Hloop by lia.
  apply (request_loop _ _ _ _ _ _ _ _ _ fields raw (earlier ++ [])) in Hloop
    as (rest & -> & [k Hk]).
  - split; [by exists rest|].
    intros Hin.
    repeat (apply elem_of_cons in Hin as [Hin|Hin]; [done|]).
    assert ("select_places_variety" ∈ rest ++ k) as Hin'
      by (apply elem_of_app; by left).
    rewrite <- Hk in Hin'.
    repeat (apply elem_of_cons in Hin' as [Hin'|Hin']; [done|]).
    by apply elem_of_nil in Hin'.
  - apply lookup_insert_eq.
  - done.
  - apply (extended_log_extends h); [|done].
    apply (extends_alloc (ODict fields) h).
Qed.

Lemma request_takes_minimize_witness :
  (∃ rest, (invoke sample_graph 7 0 sample_store).1.2
           = "parse_request" :: "analyze_preferences"
             :: "select_places_minimize" :: rest) ∧
  "select_places_variety" ∉ (invoke sample_graph 7 0 sample_store).1.2.
Proof.
  apply (request_takes_minimize (λ _ _, Raise TypeError) skip skip skip skip
           7 0 sample_store
           (<["raw_request" := VStr "부산 1박 2일 여행"]>
            (<["execution_log" := VRef 1]> ∅))
           "부산 1박 2일 여행" []); [reflexivity|reflexivity|reflexivity|lia].
Defined.

(** ** Fields of the working mapping *)

Lemma grown_refl (state : loc) (h : Store) : grown state h h.
Proof. split; [done|]. intros fields Hf. by exists fields. Qed.

Lemma grown_trans (state : loc) (h1 h2 h3 : Store) :
  grown state h1 h2 → grown state h2 h3 → grown state h1 h3.
Proof.
  intros [Ho12 Hs12] [Ho23 Hs23]. split.
  - intros l x Hne Hl. by apply Ho23, Ho12.
  - intros fields Hf.
    destruct (Hs12 _ Hf) as (fields2 & Hf2 & Hsub2).
    destruct (Hs23 _ Hf2) as (fields3 & Hf3 & Hsub3).
    exists fields3. split; [done|]. by etrans.
Qed.

Lemma extends_grown (state : loc) (h h' : Store) :
  extends h h' → grown state h h'.
Proof.
  intros Hext. split.
  - intros l x _. apply Hext.
  - intros fields Hf. exists fields. split; [by apply Hext|done].
Qed.

Lemma update_grown (state : loc) (result : gmap string Val) (h : Store) :
  grown state h (update state result h).
Proof.
  unfold update.
  destruct (h !! state) as [[items|fields]|] eqn:Hs;
    try apply grown_refl.
  split.
  - intros l x Hne Hl. by rewrite lookup_insert_ne.
  - intros fields0 Hf. assert (fields0 = fields) as -> by congruence.
    exists (result ∪ fields). split; [apply lookup_insert_eq|].
    rewrite dom_union. apply union_subseteq_r.
Qed.

Lemma turn_grown (g : MockCompiledGraph) (name : string) (state : loc)
    (h : Store) :
  functional g → grown state h (turn g name state h).1.
Proof.
  intros [Hnodes Hrouters]. unfold turn.
  assert (grown state h (run_node g name state h).1) as Hrun.
  { unfold run_node. destruct (nodes g !! name) as [node|] eqn:Hn;
      [|apply grown_refl].
    pose proof (Hnodes _ _ Hn h state) as Hext.
    destruct (node h state) as [h1 [result|e]]; cbn [fst] in *.
    - eapply grown_trans; [by apply extends_grown|apply update_grown].
    - by apply extends_grown. }
  destruct (run_node g name state h) as [h1 [[]|e]]; cbn [fst] in *; [|done].
  eapply grown_trans; [exact Hrun|]. unfold next_node.
  destruct (conditional_edges g !! name) as [[router_func route_map]|] eqn:Hc.
  - pose proof (Hrouters _ _ _ Hc h1 state) as Hext.
    destruct (router_func h1 state) as [h2 [label|e]]; cbn [fst] in *;
      by apply extends_grown.
  - destruct (edges g !! name); apply grown_refl.
Qed.

Lemma loop_grown (g : MockCompiledGraph) (fuel : nat) (next : option string)
    (state : loc) (h : Store) :
  functional g → grown state h (loop g fuel next state h).1.1.
Proof.
  intros Hg. revert next h. induction fuel as [|fuel IH]; intros next h; simpl.
  - destruct (truthy next); apply grown_refl.
  - destruct (truthy next); [|apply grown_refl].
    pose proof (turn_grown g (default "" next) state h Hg) as Hturn.
    destruct (turn g (default "" next) state h) as [h1 [next'|e]];
      cbn [fst] in *; [|done].
    specialize (IH next' h1).
    destruct (loop g fuel next' state h1) as [[h2 visited] r].
    cbn [fst] in *. by eapply grown_trans.
Qed.

(** When no node function and no routing function changes an object of
    the store (they return their updates), the mapping that [invoke]
    works on never loses a key: at every outcome, also after an
    exception or with the fuel used up, it holds every key of the
    caller's mapping, and the caller's mapping is as it was. *)
Theorem fields_only_grow (g : MockCompiledGraph) (fuel : nat)
    (initial_state : loc) (h : Store) (fields : gmap string Val) :
  functional g →
  h !! initial_state = Some (ODict fields) →
  let out := invoke g fuel initial_state h in
  (∃ fields', out.1.1 !! fresh (dom h) = Some (ODict fields') ∧
              dom fields ⊆ dom fields') ∧
  out.1.1 !! initial_state = Some (ODict fields) ∧
  (∀ state, out.2 = Some (Ok state) → state = fresh (dom h)).
Proof.
  intros Hg Hdict. cbv zeta.
  rewrite (invoke_on_mapping _ _ _ _ _ Hdict). cbv zeta.
  pose proof (loop_grown g fuel (entry_point g) (fresh (dom h))
                (<[fresh (dom h) := ODict fields]> h) Hg) as [Hothers Hstate].
  destruct (loop g fuel _ _ _) as [[h' visited] r]. cbn [fst snd] in *.
  assert (fresh (dom h) ≠ initial_state) as Hne.
  { intros Heq. apply (is_fresh (dom h)). rewrite Heq.
    apply elem_of_dom. by eexists. }
  split; [apply Hstate, lookup_insert_eq|]. split.
  - apply Hothers; [done|]. by rewrite lookup_insert_ne.
  - intros state Hr. destruct r as [[[]|e]|]; congruence.
Qed.

(** The nodes of the sample return their updates. *)
Lemma parse_request_allocates format_slice50 :
  allocates_only (parse_request format_slice50).
Proof.
  intros h state l x Hl. unfold parse_request.
  destruct (h !! state) as [[items|fields]|]; try done.
  destruct (fields !! "raw_request") as [raw|]; [|done].
  destruct (slice50 format_slice50 h raw) as [shown|e]; [|done].
  pose proof (extends_alloc (OList [VStr "조용한 카페"; VStr "전시"]) h) as H1.
  destruct (alloc _ h) as [preferences h1].
  pose proof (extends_alloc
                (OList [VStr "혼밥 가능"; VStr "이동 동선 최소화"]) h1) as H2.
  destruct (alloc _ h1) as [constraints h2]. cbn [fst snd] in *.
  destruct (extended_log h2 fields _) as [items|e]; [|by apply H2, H1].
  pose proof (extends_alloc (OList items) h2) as H3.
  destruct (alloc (OList items) h2) as [execution_log h3].
  by apply H3, H2, H1.
Qed.

Lemma analyze_preferences_allocates : allocates_only analyze_preferences.
Proof.
  intros h state l x Hl. unfold analyze_preferences.
  destruct (h !! state) as [[items|fields]|]; try done.
  destruct (fields !! "preferences") as [preferences|]; [|done].
  destruct (contains h "조용한 카페" preferences) as [quiet|e]; [|done].
  destruct (contains h "전시" preferences) as [shows|e]; [|done].
  destruct (fields !! "constraints") as [constraints|]; [|done].
  destruct (contains h "이동 동선 최소화" constraints) as [minimize|e]; [|done].
  cbv zeta.
  pose proof (extends_alloc
                (OList ((if quiet then [VStr "cafe"] else [])
                        ++ (if shows then [VStr "exhibition"] else [])
                        ++ [VStr "restaurant"])) h) as H1.
  destruct (alloc _ h) as [place_types_needed h1]. cbn [fst snd] in *.
  destruct (extended_log h1 fields _) as [items|e]; [|by apply H1].
  pose proof (extends_alloc (OList items) h1) as H2.
  destruct (alloc (OList items) h1) as [execution_log h2].
  by apply H2, H1.
Qed.

Lemma route_by_priority_allocates : allocates_only route_by_priority.
Proof.
  intros h state l x Hl. unfold route_by_priority.
  destruct (h !! state) as [[items|fields]|]; try done.
  by destruct (fields !! "priority").
Qed.

Lemma sample_graph_functional : functional sample_graph.
Proof.
  split.
  - intros k node Hk. simpl in Hk. unravel Hk; subst node;
      first [apply parse_request_allocates
            |apply analyze_preferences_allocates
            |by intros h state l x Hl].
  - intros k router_func route_map Hk. simpl in Hk. unravel Hk.
    injection Hk as <- _. apply route_by_priority_allocates.
Qed.

Lemma fields_only_grow_witness :
  ∃ fields',
    (invoke sample_graph 7 0 sample_store).1.1 !! 2 = Some (ODict fields') ∧
    is_Some (fields' !! "raw_request").
Proof.
  destruct (fields_only_grow sample_graph 7 0 sample_store
              (<["raw_request" := VStr "부산 1박 2일 여행"]>
               (<["execution_log" := VRef 1]> ∅))
              sample_graph_functional eq_refl)
    as [(fields' & Hstate & Hsub) _].
  exists fields'. split; [exact Hstate|].
  apply elem_of_dom, Hsub, elem_of_dom. by eexists.
Defined.



End GraphExtras.
